(** * Forwarding engine of the auto-forward bot: model and verification

    The development embeds the forwarding engine of [bot.py]
    ([check_source_match], the album buffer with [send_album_group], and
    [forward_handler] with its filter checks, caption cleaning and
    per-destination dispatch) and settles the properties stated about it. *)

From Stdlib Require Import ZArith NArith List Bool Ascii String Lia.
From Stdlib Require Import DecimalString DecimalZ.
From stdpp Require Import gmap strings list.

Local Open Scope Z_scope.

(** ** Python text

    A Python [str] is a sequence of code points.  Captions are modelled as
    [list N]; identifiers that the program only compares or parses (sources,
    destinations, filter keys) are modelled as [string]. *)

Abbreviation text := (list N).

Definition txt (s : string) : text :=
  map N_of_ascii (list_ascii_of_string s).

(** Truthiness of a string and Python's [a or b] on strings. *)
Definition truthy (t : text) : bool :=
  match t with [] => false | _ :: _ => true end.

Definition py_or (a b : text) : text := if truthy a then a else b.

(** The character tables of the interpreter above ASCII are not part of the
    program; they are a parameter of the model. *)
Record Unicode := {
  uni_alnum : N -> bool;
  uni_decimal : N -> bool;
  uni_space : N -> bool
}.

Definition between (lo hi c : N) : bool := ((lo <=? c) && (c <=? hi))%N.

Section Classes.
Variable U : Unicode.

(** [\d], [\w] and [\s] of [re] on [str] patterns. *)
Definition is_digit (c : N) : bool :=
  if (c <? 128)%N then between 48 57 c else uni_decimal U c.

Definition is_word (c : N) : bool :=
  if (c <? 128)%N
  then between 48 57 c || between 65 90 c || between 97 122 c || (c =? 95)%N
  else uni_alnum U c.

Definition is_space (c : N) : bool :=
  if (c <? 128)%N
  then between 9 13 c || between 28 32 c
  else uni_space U c.

Definition non_space (c : N) : bool := negb (is_space c).
End Classes.

(** ** A backtracking matcher for the patterns of the program

    Every quantifier in the patterns of [bot.py] is greedy and applies to a
    single character class, so [Rep] repeats a class. [Bol] and [Eol] are
    [^] and [$] under [re.MULTILINE]. *)

Inductive regex :=
| Eps
| Cls (p : N -> bool)
| Rep (p : N -> bool) (lo : nat) (hi : option nat)
| Cat (r1 r2 : regex)
| Alt (r1 r2 : regex)
| Bol
| Eol.

Definition cont := option N -> text -> option text.

Definition can_take (hi : option nat) : bool :=
  match hi with Some O => false | _ => true end.

Definition at_bol (prev : option N) : bool :=
  match prev with None => true | Some c => (c =? 10)%N end.

Definition at_eol (s : text) : bool :=
  match s with [] => true | c :: _ => (c =? 10)%N end.

(** Greedy repetition: take one more character when possible, and fall back
    to stopping here when the rest of the pattern fails. *)
Fixpoint rep_match (p : N -> bool) (lo : nat) (hi : option nat)
    (prev : option N) (s : text) (k : cont) {struct s} : option text :=
  let stop := match lo with O => k prev s | S _ => None end in
  match s with
  | [] => stop
  | c :: s' =>
      if p c && can_take hi then
        match rep_match p (Nat.pred lo) (option_map Nat.pred hi) (Some c) s' k with
        | Some x => Some x
        | None => stop
        end
      else stop
  end.

Fixpoint rmatch (r : regex) (prev : option N) (s : text) (k : cont)
    : option text :=
  match r with
  | Eps => k prev s
  | Cls p =>
      match s with
      | c :: s' => if p c then k (Some c) s' else None
      | [] => None
      end
  | Rep p lo hi => rep_match p lo hi prev s k
  | Cat r1 r2 => rmatch r1 prev s (fun prev' s' => rmatch r2 prev' s' k)
  | Alt r1 r2 =>
      match rmatch r1 prev s k with
      | Some x => Some x
      | None => rmatch r2 prev s k
      end
  | Bol => if at_bol prev then k prev s else None
  | Eol => if at_eol s then k prev s else None
  end.

Definition accept : cont := fun _ s => Some s.

(** Length of the match of [r] that starts at the head of [s], if any. *)
Definition match_len (r : regex) (prev : option N) (s : text) : option nat :=
  match rmatch r prev s accept with
  | Some rest => Some (length s - length rest)%nat
  | None => None
  end.

(** [re.sub(r, repl, s)] with a constant replacement: leftmost matches,
    scanned left to right; [skip] counts the characters of the current match
    that are still to be dropped. *)
Fixpoint sub_scan (r : regex) (repl : text) (skip : nat) (prev : option N)
    (s : text) : text :=
  match s with
  | [] =>
      match skip, match_len r prev [] with
      | O, Some _ => repl
      | _, _ => []
      end
  | c :: s' =>
      match skip with
      | S n => sub_scan r repl n (Some c) s'
      | O =>
          match match_len r prev s with
          | Some (S n) => repl ++ sub_scan r repl n (Some c) s'
          | Some O => repl ++ c :: sub_scan r repl O (Some c) s'
          | None => c :: sub_scan r repl O (Some c) s'
          end
      end
  end.

Definition re_sub (r : regex) (repl : text) (s : text) : text :=
  sub_scan r repl O None s.

(** [re.search(r, s)] as a truth value. *)
Fixpoint search_from (r : regex) (prev : option N) (s : text) : bool :=
  match match_len r prev s with
  | Some _ => true
  | None =>
      match s with
      | [] => false
      | c :: s' => search_from r (Some c) s'
      end
  end.

Definition re_search (r : regex) (s : text) : bool := search_from r None s.

(** Pattern constructors. *)
Definition chr (a : ascii) : regex := Cls (N.eqb (N_of_ascii a)).

Fixpoint lit_chars (l : list ascii) : regex :=
  match l with
  | [] => Eps
  | [a] => chr a
  | a :: l' => Cat (chr a) (lit_chars l')
  end.

Definition lit (s : string) : regex := lit_chars (list_ascii_of_string s).
Definition opt (p : N -> bool) : regex := Rep p 0 (Some 1%nat).
Definition plus (p : N -> bool) : regex := Rep p 1 None.
Definition one_of (s : string) (c : N) : bool :=
  existsb (fun a => (N_of_ascii a =? c)%N) (list_ascii_of_string s).

Declare Scope regex_scope.
Delimit Scope regex_scope with re.
Infix ">>" := Cat (at level 41, right associativity) : regex_scope.

(** ** The patterns of the caption cleaner ([forward_handler], stages 1-6 and
    the final whitespace clean-up) *)

Definition emoji_ranges : list (N * N) :=
  [ (0x1F600, 0x1F64F); (0x1F300, 0x1F5FF); (0x1F680, 0x1F6FF);
    (0x1F700, 0x1F77F); (0x1F780, 0x1F7FF); (0x1F800, 0x1F8FF);
    (0x1F900, 0x1F9FF); (0x1FA00, 0x1FA6F); (0x1FA70, 0x1FAFF);
    (0x2702, 0x27B0); (0x1F1E0, 0x1F1FF); (0x2600, 0x26FF);
    (0x2700, 0x27BF); (0x1F000, 0x1F02F); (0x1F0A0, 0x1F0FF);
    (0xFE00, 0xFE0F); (0xFE0E, 0xFE0F); (0x200D, 0x200D);
    (0x2640, 0x2642); (0x23E9, 0x23F3); (0x23F8, 0x23FA);
    (0x2B50, 0x2B50); (0x2B55, 0x2B55); (0x2934, 0x2935);
    (0x2B05, 0x2B07); (0x2B1B, 0x2B1C); (0x3030, 0x3030);
    (0x303D, 0x303D); (0x3297, 0x3297); (0x3299, 0x3299);
    (0x24C2, 0x1F251); (0x2500, 0x2BEF); (0x231A, 0x231B);
    (0x25AA, 0x25AB); (0x25B6, 0x25B6); (0x25C0, 0x25C0);
    (0x25FB, 0x25FE); (0x2764, 0x2764); (0x2763, 0x2763);
    (0x2665, 0x2665); (0x1F493, 0x1F49F); (0x2714, 0x2714);
    (0x2716, 0x2716); (0x270A, 0x270D); (0x23CF, 0x23CF);
    (0x23ED, 0x23EF); (0x23F1, 0x23F2); (0x200B, 0x200F);
    (0x2028, 0x202F); (0x205F, 0x206F) ]%N.

Definition is_emoji (c : N) : bool :=
  existsb (fun '(lo, hi) => between lo hi c) emoji_ranges.

Section Patterns.
Variable U : Unicode.
Local Open Scope regex_scope.

Local Abbreviation word := (is_word U).
Local Abbreviation digit := (is_digit U).
Local Abbreviation nsp := (non_space U).

(** [#\w+] and [@\w+] *)
Definition hashtag_re : regex := chr "#" >> plus word.
Definition mention_re : regex := chr "@" >> plus word.

(** [https?://\S+], [http?://\S+], [www\.\S+], [t\.me/\S+], [tg://\S+] *)
Definition link_re1 : regex :=
  lit "http" >> opt (N.eqb 115) >> lit "://" >> plus nsp.
Definition link_re2 : regex :=
  lit "htt" >> opt (N.eqb 112) >> lit "://" >> plus nsp.
Definition link_re3 : regex := lit "www." >> plus nsp.
Definition link_re4 : regex := lit "t.me/" >> plus nsp.
Definition link_re5 : regex := lit "tg://" >> plus nsp.

Definition emoji_re : regex := plus is_emoji.

(** [[-.\s]] *)
Definition phone_sep (c : N) : bool := one_of "-." c || is_space U c.

(** [\+?\d{1,4}[-.\s]?\(?\d{1,3}\)?[-.\s]?\d{1,4}[-.\s]?\d{1,4}[-.\s]?\d{1,9}] *)
Definition phone_re1 : regex :=
  opt (one_of "+") >> Rep digit 1 (Some 4%nat) >> opt phone_sep >>
  opt (one_of "(") >> Rep digit 1 (Some 3%nat) >> opt (one_of ")") >>
  opt phone_sep >> Rep digit 1 (Some 4%nat) >> opt phone_sep >>
  Rep digit 1 (Some 4%nat) >> opt phone_sep >> Rep digit 1 (Some 9%nat).

(** [\+?\d{10,15}] *)
Definition phone_re2 : regex :=
  opt (one_of "+") >> Rep digit 10 (Some 15%nat).

(** [[\w.+-]+@[\w-]+\.[\w.-]+] *)
Definition email_local (c : N) : bool := word c || one_of ".+-" c.
Definition email_domain (c : N) : bool := word c || one_of "-" c.
Definition email_tld (c : N) : bool := word c || one_of ".-" c.
Definition email_re : regex :=
  plus email_local >> chr "@" >> plus email_domain >> chr "." >>
  plus email_tld.

(** [[ \t]+], [^ +| +$] (MULTILINE) and [\n{3,}] *)
Definition blanks_re : regex := plus (fun c => (c =? 32)%N || (c =? 9)%N).
Definition line_trim_re : regex :=
  Alt (Bol >> plus (N.eqb 32)) (plus (N.eqb 32) >> Eol).
Definition newlines_re : regex := Rep (N.eqb 10) 3 None.

(** [https?://|www\.|t\.me/|tg://], the pattern of the link filter *)
Definition has_link_re : regex :=
  Alt (lit "http" >> opt (N.eqb 115) >> lit "://")
    (Alt (lit "www.") (Alt (lit "t.me/") (lit "tg://"))).

(** The cleaning stages, each as the function the handler applies. *)
Definition strip_hashtags (t : text) : text := re_sub hashtag_re [] t.
Definition strip_mentions (t : text) : text := re_sub mention_re [] t.
Definition strip_links (t : text) : text :=
  let t := re_sub link_re1 [] t in
  let t := re_sub link_re2 [] t in
  let t := re_sub link_re3 [] t in
  let t := re_sub link_re4 [] t in
  re_sub link_re5 [] t.
Definition strip_emoji (t : text) : text := re_sub emoji_re [] t.
Definition strip_phones (t : text) : text :=
  let t := re_sub phone_re1 [] t in
  re_sub phone_re2 [] t.
Definition strip_emails (t : text) : text := re_sub email_re [] t.

(** [str.strip()] *)
Fixpoint lstrip (t : text) : text :=
  match t with
  | c :: t' => if is_space U c then lstrip t' else t
  | [] => []
  end.
Definition py_strip (t : text) : text := rev (lstrip (rev (lstrip t))).

Definition normalize_ws (t : text) : text :=
  let t := re_sub blanks_re [32%N] t in
  let t := re_sub line_trim_re [] t in
  let t := re_sub newlines_re [10%N; 10%N] t in
  py_strip t.
End Patterns.

(** A rule's [filters] dict; [filters.get(key, False)]. *)
Definition flag (filters : gmap string bool) (key : string) : bool :=
  default false (filters !! key).

Section Cleaner.
Variable U : Unicode.

(** The caption cleaning of [forward_handler]: [original_text] to
    [filtered_text], the value stored as [caption_text].  The list
    [removed_items] only feeds the log and is left out. *)
Definition clean_caption (filters : gmap string bool) (original_text : text)
    : text :=
  let t := original_text in
  let t := if flag filters "clean_caption" && truthy original_text
           then [] else t in
  let t := if flag filters "clean_hashtag" && truthy t
           then strip_hashtags U t else t in
  let t := if flag filters "clean_mention" then strip_mentions U t else t in
  let t := if flag filters "clean_link" then strip_links U t else t in
  let t := if flag filters "clean_emoji" then strip_emoji t else t in
  let t := if flag filters "clean_phone" then strip_phones U t else t in
  let t := if flag filters "clean_email" then strip_emails U t else t in
  normalize_ws U t.
End Cleaner.

Definition ascii_only : Unicode :=
  {| uni_alnum := fun _ => false; uni_decimal := fun _ => false;
     uni_space := fun _ => false |}.

(** ** Source matching ([check_source_match]) *)

(** [str(n)] and [int(s)].  A [string] is a sequence of code points below
    256; among these the decimal digits are [0]-[9], and the whitespace that
    [int] strips is 9-13, 32, 133 and 160.  [None] stands for
    [ValueError]. *)
Definition py_str (z : Z) : string := NilZero.string_of_int (Z.to_int z).

(** A sign and decimal digits. *)
Definition parse_numeral (s : string) : option Z :=
  match s with
  | String "+" s' => option_map Z.of_uint (NilZero.uint_of_string s')
  | _ => option_map Z.of_int (NilZero.int_of_string s)
  end.

Definition int_space (a : ascii) : bool :=
  let n := N_of_ascii a in
  between 9 13 n || (n =? 32)%N || (n =? 133)%N || (n =? 160)%N.

Definition dec_digit (a : ascii) : bool := between 48 57 (N_of_ascii a).

Fixpoint int_lstrip (s : string) : string :=
  match s with
  | String a s' => if int_space a then int_lstrip s' else s
  | EmptyString => EmptyString
  end.

Fixpoint int_rstrip (s : string) : string :=
  match s with
  | String a s' =>
      match int_rstrip s' with
      | EmptyString => if int_space a then EmptyString else String a EmptyString
      | r => String a r
      end
  | EmptyString => EmptyString
  end.

(** Digit grouping: an underscore is accepted between two digits and
    nowhere else. *)
Fixpoint ungroup (after_digit : bool) (s : string) : option string :=
  match s with
  | EmptyString => Some EmptyString
  | String a s' =>
      if Ascii.eqb a "_" then
        match s' with
        | String b _ =>
            if after_digit && dec_digit b then ungroup false s' else None
        | EmptyString => None
        end
      else option_map (String a) (ungroup (dec_digit a) s')
  end.

Definition py_int (s : string) : option Z :=
  match ungroup false (int_rstrip (int_lstrip s)) with
  | Some digits => parse_numeral digits
  | None => None
  end.

Definition startswith (p s : string) : bool := String.prefix p s.

(** [s[n:]] *)
Fixpoint slice_from (n : nat) (s : string) : string :=
  match n, s with
  | S n', String _ s' => slice_from n' s'
  | _, _ => s
  end.

(** [str.lower()] on the code points below 256. *)
Definition lower_char (a : ascii) : ascii :=
  let n := N_of_ascii a in
  if between 65 90 n || (between 192 222 n && negb (n =? 215)%N)
  then ascii_of_N (n + 32) else a.

Fixpoint lower (s : string) : string :=
  match s with
  | EmptyString => EmptyString
  | String a s' => String (lower_char a) (lower s')
  end.

Definition bind_opt {A B} (o : option A) (k : A -> option B) : option B :=
  match o with Some a => k a | None => None end.

(** The numeric branch; [None] is a [ValueError] raised inside the [try]. *)
Definition numeric_match (chat_id : Z) (source : string) : option bool :=
  bind_opt (py_int source) (fun src_num =>
  if (chat_id =? src_num) || (Z.abs chat_id =? Z.abs src_num) then Some true
  else
    bind_opt
      (if startswith "-100" (py_str src_num) then
         bind_opt (py_int (slice_from 4 (py_str src_num))) (fun src_real =>
         bind_opt
           (if startswith "-100" (py_str chat_id) then
              bind_opt (py_int (slice_from 4 (py_str chat_id)))
                (fun chat_real => Some (chat_real =? src_real))
            else Some false)
           (fun hit => Some (hit || (Z.abs chat_id =? src_real))))
       else Some false)
      (fun hit =>
       if hit then Some true
       else if startswith "-100" (py_str chat_id) then
         bind_opt (py_int (slice_from 4 (py_str chat_id)))
           (fun chat_real => Some (chat_real =? Z.abs src_num))
       else Some false)).

Definition check_source_match (chat_id : Z) (chat_username : option string)
    (source : string) : bool :=
  if startswith "@" source then
    let src_username := lower (slice_from 1 source) in
    match chat_username with
    | Some u => negb (String.eqb u "") && String.eqb (lower u) src_username
    | None => false
    end
  else
    match numeric_match chat_id source with
    | Some b => b
    | None => false
    end.

(** ** Messages, rules and the connection *)

Inductive entity_kind :=
| MessageEntityUrl
| MessageEntityTextUrl
| MessageEntityCustomEmoji
| MessageEntityOther.

(** The attributes of a Telethon message that [forward_handler] probes. *)
Record Message := {
  msg_id : Z;
  msg_message : text;
  msg_text : text;
  msg_photo : bool;
  msg_video_note : bool;
  msg_video : bool;
  msg_voice : bool;
  msg_audio : bool;
  msg_sticker : bool;
  msg_gif : bool;
  msg_document : bool;
  msg_poll : bool;
  msg_grouped_id : option Z;
  msg_forward : bool;
  msg_reply_to : bool;
  msg_entities : list entity_kind;
  msg_reply_markup : bool;
  msg_media : bool;
  msg_web_preview : bool
}.

(** The part of [DEFAULT_MODIFY] that concerns word lists. *)
Record Modify := {
  block_words_enabled : bool;
  block_words : list text;
  whitelist_enabled : bool;
  whitelist_words : list text
}.

Record Rule := {
  rule_id : Z;
  source_list : list string;
  dest_list : list string;
  forward_mode : string;
  filters : gmap string bool;
  modify : Modify
}.

Definition Entity := string.
Definition File := Z.

(** What [client.download_media] does: it returns a path, it returns
    [None], or it raises. *)
Inductive download :=
| Downloaded (f : File)
| NoFile
| DownloadError.

(** What the Telegram connection answers.  [resolve_dest] is the closure of
    that name (it returns [None] when nothing resolves and never raises); the
    other fields say whether a call succeeds or raises. *)
Record Client := {
  resolve_dest : string -> option Entity;
  forward_messages_ok : Entity -> bool;
  download_media : Message -> download;
  send_file_ok : Entity -> bool;
  send_message_ok : Entity -> text -> bool
}.

Inductive send_kind :=
| AsPhoto | AsVideoNote | AsVoice | AsVideo | AsGif | AsSticker | AsAudio
| AsDocument | AsMedia | AsAlbum.

(** Effects that were carried out. *)
Inductive Action :=
| ForwardMessages (e : Entity) (msgs : list Message)
| SendMessage (e : Entity) (t : text) (link_preview : bool)
| SendFile (e : Entity) (files : list File) (caption : option text)
    (kind : send_kind)
| RemoveFile (f : File).

Inductive exn :=
| NameError (name : string)
| ClientError.

Inductive result (A : Type) :=
| Ok (a : A)
| Raise (e : exn).
Arguments Ok {A} a.
Arguments Raise {A} e.

(** ** One dispatch pass: effects, the success counter and exceptions *)

Record Pass := {
  sent : list Action;
  success_count : nat
}.

Definition M (A : Type) := Pass -> Pass * result A.

Definition ret {A} (a : A) : M A := fun p => (p, Ok a).
Definition raise {A} (e : exn) : M A := fun p => (p, Raise e).
Definition bind {A B} (m : M A) (k : A -> M B) : M B :=
  fun p => match m p with
           | (p', Ok a) => k a p'
           | (p', Raise e) => (p', Raise e)
           end.
Definition seq {A} (m : M unit) (k : M A) : M A := bind m (fun _ => k).

(** [try: m except Exception: (log)] *)
Definition try_except (m : M unit) : M unit :=
  fun p => match m p with
           | (p', _) => (p', Ok tt)
           end.

(** [try: m finally: c] where [c] does not raise *)
Definition try_finally {A} (m : M A) (c : Pass -> Pass) : M A :=
  fun p => match m p with
           | (p', r) => (c p', r)
           end.

Definition emit (a : Action) : Pass -> Pass :=
  fun p => {| sent := sent p ++ [a]; success_count := success_count p |}.

Definition perform (ok : bool) (a : Action) : M unit :=
  fun p => if ok then (emit a p, Ok tt) else (p, Raise ClientError).

Definition succeed : M unit :=
  fun p => ({| sent := sent p; success_count := S (success_count p) |}, Ok tt).

Declare Scope pass_scope.
Delimit Scope pass_scope with pass.
Notation "m1 ';;;' m2" := (seq m1 m2)
  (at level 65, right associativity) : pass_scope.

Definition original_text_of (msg : Message) : text :=
  py_or (msg_message msg) (py_or (msg_text msg) []).

Section Engine.
Variable U : Unicode.
Variable client : Client.
Local Open Scope pass_scope.

Definition send_message (e : Entity) (t : text) (link_preview : bool)
    : M unit :=
  perform (send_message_ok client e t) (SendMessage e t link_preview).

Definition send_file (e : Entity) (files : list File)
    (caption : option text) (kind : send_kind) : M unit :=
  perform (send_file_ok client e) (SendFile e files caption kind).

Definition forward_messages (e : Entity) (msgs : list Message) : M unit :=
  perform (forward_messages_ok client e) (ForwardMessages e msgs).

(** Copy mode for one resolved destination: the body of the inner [try]
    of [forward_handler]. *)
Definition copy_message (msg : Message) (original_text caption_text : text)
    (remove_link_preview : bool) (dest_entity : Entity) : M unit :=
  let has_web_preview := msg_web_preview msg && negb remove_link_preview in
  if msg_media msg then
    let is_only_web_preview :=
      msg_web_preview msg && negb (msg_photo msg) && negb (msg_video msg)
      && negb (msg_document msg) && negb (msg_audio msg)
      && negb (msg_voice msg) && negb (msg_sticker msg)
      && negb (msg_gif msg) && negb (msg_video_note msg) in
    if is_only_web_preview then
      send_message dest_entity caption_text (negb remove_link_preview) ;;;
      succeed
    else
      match download_media client msg with
      | DownloadError => raise ClientError
      | NoFile =>
          if truthy caption_text
          then send_message dest_entity caption_text has_web_preview
          else ret tt
      | Downloaded temp_file =>
          let caption_kwargs :=
            if truthy caption_text then Some caption_text else None in
          try_finally
            ((if msg_photo msg then
                send_file dest_entity [temp_file] caption_kwargs AsPhoto
              else if msg_video_note msg then
                send_file dest_entity [temp_file] None AsVideoNote
              else if msg_voice msg then
                send_file dest_entity [temp_file] None AsVoice ;;;
                (if truthy original_text
                 then raise (NameError "original_entities")
                 else ret tt)
              else if msg_video msg then
                send_file dest_entity [temp_file] caption_kwargs AsVideo
              else if msg_gif msg then
                send_file dest_entity [temp_file] caption_kwargs AsGif
              else if msg_sticker msg then
                send_file dest_entity [temp_file] None AsSticker
              else if msg_audio msg then
                send_file dest_entity [temp_file] caption_kwargs AsAudio
              else if msg_document msg then
                send_file dest_entity [temp_file] caption_kwargs AsDocument
              else
                send_file dest_entity [temp_file] caption_kwargs AsMedia) ;;;
             succeed)
            (emit (RemoveFile temp_file))
      end
  else if truthy caption_text then
    send_message dest_entity caption_text (negb remove_link_preview) ;;;
    succeed
  else ret tt.

(** The body of [for dest in dest_list] in [forward_handler]. *)
Definition deliver (msg : Message) (forward_mode : string)
    (original_text caption_text : text) (remove_link_preview : bool)
    (dest : string) : M unit :=
  try_except
    match resolve_dest client dest with
    | None => ret tt
    | Some dest_entity =>
        if String.eqb forward_mode "copy" then
          try_except
            (copy_message msg original_text caption_text remove_link_preview
               dest_entity)
        else
          forward_messages dest_entity [msg] ;;; succeed
    end.

Fixpoint for_each {A} (body : A -> M unit) (l : list A) : M unit :=
  match l with
  | [] => ret tt
  | a :: l' => body a ;;; for_each body l'
  end.
End Engine.

(** ** The account state: album buffers, pending timers, effects, counters *)

Record Album := {
  messages : list Message;
  album_dest_list : list string;
  album_rule : Rule;
  caption_text : text
}.

Record State := {
  album_cache : gmap Z Album;
  timers : list Z;
  outbox : list Action;
  forward_count : gmap Z nat
}.

Definition set_album_cache (f : gmap Z Album -> gmap Z Album) (st : State)
    : State :=
  {| album_cache := f (album_cache st); timers := timers st;
     outbox := outbox st; forward_count := forward_count st |}.

Definition add_timer (gid : Z) (st : State) : State :=
  {| album_cache := album_cache st; timers := timers st ++ [gid];
     outbox := outbox st; forward_count := forward_count st |}.

Definition set_timers (l : list Z) (st : State) : State :=
  {| album_cache := album_cache st; timers := l;
     outbox := outbox st; forward_count := forward_count st |}.

Definition record_sent (l : list Action) (st : State) : State :=
  {| album_cache := album_cache st; timers := timers st;
     outbox := outbox st ++ l; forward_count := forward_count st |}.

(** The rule's counter, as the [forward_count] column reads. *)
Definition counter (st : State) (rid : Z) : nat :=
  default 0%nat (forward_count st !! rid).

(** [db.increment_forward_count(rule_id)] *)
Definition increment_forward_count (rid : Z) (st : State) : State :=
  {| album_cache := album_cache st; timers := timers st;
     outbox := outbox st;
     forward_count := <[rid := S (counter st rid)]> (forward_count st) |}.

Definition new_pass : Pass := {| sent := []; success_count := 0 |}.
Definition run_pass (m : M unit) : Pass := fst (m new_pass).

Definition grouped (msg : Message) : option Z :=
  match msg_grouped_id msg with
  | Some g => if g =? 0 then None else Some g
  | None => None
  end.

Definition has_text (msg : Message) : bool :=
  truthy (msg_message msg) || truthy (msg_text msg).

(** The classification chain of [forward_handler]. *)
Definition msg_type (msg : Message) : option string :=
  if msg_photo msg then Some "photo"
  else if msg_video_note msg then Some "video_note"
  else if msg_video msg then Some "video"
  else if msg_voice msg then Some "voice"
  else if msg_audio msg then Some "audio"
  else if msg_sticker msg then Some "sticker"
  else if msg_gif msg then Some "gif"
  else if msg_document msg then Some "document"
  else if msg_poll msg then Some "poll"
  else if truthy (msg_text msg) || truthy (msg_message msg) then Some "text"
  else None.

Definition is_url_entity (k : entity_kind) : bool :=
  match k with
  | MessageEntityUrl | MessageEntityTextUrl => true
  | _ => false
  end.

Definition is_custom_emoji (k : entity_kind) : bool :=
  match k with
  | MessageEntityCustomEmoji => true
  | _ => false
  end.

(** What the handler decides for one rule before any text is cleaned: the
    rule does not match the chat, the message is skipped by a filter, it goes
    to the album buffer, or it proceeds to cleaning and dispatch. *)
Inductive verdict :=
| NoMatch
| Skipped (why : string)
| ToAlbum (gid : Z)
| Proceed.

Definition evaluate (rule : Rule) (chat_id : Z) (chat_username : option string)
    (msg : Message) : verdict :=
  let f := flag (filters rule) in
  if negb (existsb (check_source_match chat_id chat_username)
             (source_list rule)) then NoMatch
  else if msg_photo msg && f "photo_only" && negb (has_text msg)
  then Skipped "photo_only"
  else if msg_photo msg && f "photo_with_text" && has_text msg
  then Skipped "photo_with_text"
  else if msg_poll msg && f "poll" then Skipped "poll"
  else
    match grouped msg with
    | Some gid => if f "album" then Skipped "album" else ToAlbum gid
    | None =>
        if msg_forward msg && f "forward" then Skipped "forward"
        else if msg_reply_to msg && f "reply" then Skipped "reply"
        else if f "link"
                && (re_search has_link_re (original_text_of msg)
                    || existsb is_url_entity (msg_entities msg))
        then Skipped "link"
        else if msg_reply_markup msg && f "button" then Skipped "button"
        else if f "emoji" && existsb is_custom_emoji (msg_entities msg)
        then Skipped "emoji"
        else if match msg_type msg with
                | Some ty => f ty
                | None => false
                end
        then Skipped "type"
        else Proceed
    end.

Section Handler.
Variable U : Unicode.
Variable client : Client.
Local Open Scope pass_scope.

(** [for msg in messages: temp_file = download_media(msg); if temp_file:
    files.append(temp_file)]; [None] when a download raises, which ends the
    loop with the files downloaded so far left where they are. *)
Fixpoint download_all (msgs : list Message) : option (list File) :=
  match msgs with
  | [] => Some []
  | msg :: rest =>
      match download_media client msg with
      | DownloadError => None
      | NoFile => download_all rest
      | Downloaded temp_file => option_map (cons temp_file) (download_all rest)
      end
  end.

(** The body of [for dest in dest_list] in [send_album_group]. *)
Definition album_to (album : Album) (dest : string) : M unit :=
  try_except
    match resolve_dest client dest with
    | None => ret tt
    | Some dest_entity =>
        if String.eqb (forward_mode (album_rule album)) "copy" then
          match download_all (messages album) with
          | None => raise ClientError
          | Some [] => ret tt
          | Some files =>
              try_finally
                (send_file client dest_entity files
                   (if truthy (caption_text album)
                    then Some (caption_text album) else None) AsAlbum)
                (fun p => fold_left (fun p f => emit (RemoveFile f) p)
                            files p)
          end
        else forward_messages client dest_entity (messages album)
    end.

(** The dispatch pass of an album: [for dest in dest_list] over the
    captured destinations. *)
Definition album_pass (album : Album) : list Action :=
  sent (run_pass (for_each (album_to album) (album_dest_list album))).

(** [send_album_group(grouped_id)], run under [album_lock]. *)
Definition send_album_group (gid : Z) (st : State) : State :=
  match album_cache st !! gid with
  | None => st
  | Some album =>
      let st := set_album_cache (delete gid) st in
      match messages album with
      | [] => st
      | _ :: _ => record_sent (album_pass album) st
      end
  end.

(** The album branch of [forward_handler], run under [album_lock]. *)
Definition album_add (gid : Z) (msg : Message) (rule : Rule) (st : State)
    : State :=
  match album_cache st !! gid with
  | None =>
      add_timer gid
        (set_album_cache
           (insert gid {| messages := [msg];
                          album_dest_list := dest_list rule;
                          album_rule := rule;
                          caption_text := original_text_of msg |}) st)
  | Some album =>
      set_album_cache
        (insert gid {| messages := messages album ++ [msg];
                       album_dest_list := album_dest_list album;
                       album_rule := album_rule album;
                       caption_text :=
                         if has_text msg
                         then py_or (msg_message msg) (msg_text msg)
                         else caption_text album |}) st
  end.

(** Cleaning and dispatch of a message that survived the filters. *)
Definition dispatch (rule : Rule) (msg : Message) (st : State) : State :=
  let original_text := original_text_of msg in
  let filtered_text := clean_caption U (filters rule) original_text in
  let remove_link_preview := flag (filters rule) "clean_link" in
  let p := run_pass
             (for_each
                (deliver client msg (forward_mode rule) original_text
                   filtered_text remove_link_preview)
                (dest_list rule)) in
  let st := record_sent (sent p) st in
  if (0 <? success_count p)%nat
  then increment_forward_count (rule_id rule) st
  else st.

(** The body of [for rule in rules]. *)
Definition process_rule (chat_id : Z) (chat_username : option string)
    (msg : Message) (st : State) (rule : Rule) : State :=
  match evaluate rule chat_id chat_username msg with
  | NoMatch | Skipped _ => st
  | ToAlbum gid => album_add gid msg rule st
  | Proceed => dispatch rule msg st
  end.

(** [forward_handler(event)]; [rules] is what [get_rules_by_phone]
    returns for the account. *)
Definition forward_handler (rules : list Rule) (chat_id : Z)
    (chat_username : option string) (msg : Message) (st : State) : State :=
  fold_left (process_rule chat_id chat_username msg) rules st.

(** The event loop of one account: a message arrives, or a flush timer set
    by [call_later] fires. *)
Inductive Event :=
| NewMessage (chat_id : Z) (chat_username : option string) (msg : Message)
| TimerFires (gid : Z).

Fixpoint remove_first (gid : Z) (l : list Z) : list Z :=
  match l with
  | [] => []
  | g :: l' => if g =? gid then l' else g :: remove_first gid l'
  end.

Definition step (rules : list Rule) (st : State) (ev : Event) : State :=
  match ev with
  | NewMessage chat_id chat_username msg =>
      forward_handler rules chat_id chat_username msg st
  | TimerFires gid =>
      if existsb (Z.eqb gid) (timers st)
      then send_album_group gid (set_timers (remove_first gid (timers st)) st)
      else st
  end.

Definition run (rules : list Rule) (evs : list Event) (st : State) : State :=
  fold_left (step rules) evs st.
End Handler.

Definition initial_state : State :=
  {| album_cache := empty; timers := []; outbox := [];
     forward_count := empty |}.

(** ** Notions used to state the properties *)

(** [extend p q] is the pass [p] followed by what [q] records. *)
Definition extend (p q : Pass) : Pass :=
  {| sent := sent p ++ sent q;
     success_count := success_count p + success_count q |}.

(** A computation is uniform when what it adds to the pass and how it ends
    do not depend on what the pass already holds. *)
Definition uniform {A} (m : M A) : Prop :=
  forall p, m p = (extend p (fst (m new_pass)), snd (m new_pass)).

(** ** Concrete inputs used in the scenarios *)

Definition no_modify : Modify :=
  {| block_words_enabled := false; block_words := [];
     whitelist_enabled := false; whitelist_words := [] |}.

Definition flags_on (keys : list string) : gmap string bool :=
  list_to_map (map (fun k => (k, true)) keys).

(** A message with text [t] and nothing else. *)
Definition text_message (t : text) : Message :=
  {| msg_id := 1; msg_message := t; msg_text := t;
     msg_photo := false; msg_video_note := false; msg_video := false;
     msg_voice := false; msg_audio := false; msg_sticker := false;
     msg_gif := false; msg_document := false; msg_poll := false;
     msg_grouped_id := None; msg_forward := false; msg_reply_to := false;
     msg_entities := []; msg_reply_markup := false;
     msg_media := false; msg_web_preview := false |}.

(** The same message when Telegram attached a link preview card to it. *)
Definition with_preview (preview : bool) (m : Message) : Message :=
  {| msg_id := msg_id m; msg_message := msg_message m;
     msg_text := msg_text m;
     msg_photo := msg_photo m; msg_video_note := msg_video_note m;
     msg_video := msg_video m; msg_voice := msg_voice m;
     msg_audio := msg_audio m; msg_sticker := msg_sticker m;
     msg_gif := msg_gif m; msg_document := msg_document m;
     msg_poll := msg_poll m; msg_grouped_id := msg_grouped_id m;
     msg_forward := msg_forward m; msg_reply_to := msg_reply_to m;
     msg_entities := msg_entities m;
     msg_reply_markup := msg_reply_markup m;
     msg_media := preview; msg_web_preview := preview |}.

(** The rule and message of the copy scenario. *)
Definition scenario_rule : Rule :=
  {| rule_id := 1;
     source_list := ["@chanA"; "-1001111111111"];
     dest_list := ["@chanB"];
     forward_mode := "copy";
     filters := flags_on ["photo_only"; "clean_hashtag"; "clean_mention";
                          "clean_link"];
     modify := no_modify |}.

Definition scenario_text : text := txt "Hello #world @user http://x.com".

(** A connection on which every identifier resolves to itself and every call
    succeeds, except for the destinations listed in [unknown]. *)
Definition friendly_client (unknown : list string) : Client :=
  {| resolve_dest := fun d =>
       if existsb (String.eqb d) unknown then None else Some d;
     forward_messages_ok := fun _ => true;
     download_media := fun m => Downloaded (msg_id m);
     send_file_ok := fun _ => true;
     send_message_ok := fun _ _ => true |}.

Section Alone.
Variable U : Unicode.
Variable client : Client.

(** What delivering to [dest] alone does. *)
Definition alone (rule : Rule) (msg : Message) (dest : string) : Pass :=
  run_pass
    (deliver client msg (forward_mode rule) (original_text_of msg)
       (clean_caption U (filters rule) (original_text_of msg))
       (flag (filters rule) "clean_link") dest).
End Alone.

(** A voice note carrying the text [t]. *)
Definition voice_note (t : text) : Message :=
  {| msg_id := 7; msg_message := t; msg_text := t;
     msg_photo := false; msg_video_note := false; msg_video := false;
     msg_voice := true; msg_audio := false; msg_sticker := false;
     msg_gif := false; msg_document := true; msg_poll := false;
     msg_grouped_id := None; msg_forward := false; msg_reply_to := false;
     msg_entities := []; msg_reply_markup := false;
     msg_media := true; msg_web_preview := false |}.

(** A forward-mode rule with two destinations. *)
Definition two_dest_rule : Rule :=
  {| rule_id := 5; source_list := ["@src"];
     dest_list := ["@gone"; "@chanB"];
     forward_mode := "forward"; filters := empty;
     modify := no_modify |}.

(** The caption an album buffer holds after its members arrived in the order
    of [msgs]: the text of the first member, overwritten by every later
    member that carries text. *)
Definition captured_caption (msgs : list Message) : text :=
  match msgs with
  | [] => []
  | first :: rest =>
      fold_left
        (fun c m => if has_text m then py_or (msg_message m) (msg_text m)
                    else c)
        rest (original_text_of first)
  end.

(** The buffer that [msgs], arriving for [rule], leave in the cache. *)
Definition collected (rule : Rule) (msgs : list Message) : Album :=
  {| messages := msgs; album_dest_list := dest_list rule;
     album_rule := rule; caption_text := captured_caption msgs |}.

(** A rule that neither buffers nor dispatches the message. *)
Definition idle (rule : Rule) (chat_id : Z) (chat_username : option string)
    (msg : Message) : Prop :=
  match evaluate rule chat_id chat_username msg with
  | NoMatch | Skipped _ => True
  | ToAlbum _ | Proceed => False
  end.

(** The state after the members [msgs] were buffered on top of [st0]. *)
Definition buffering (gid : Z) (album : Album) (st0 st : State) : Prop :=
  album_cache st = <[gid := album]> (album_cache st0)
  /\ timers st = timers st0 ++ [gid]
  /\ outbox st = outbox st0
  /\ forward_count st = forward_count st0.

(** A photo that belongs to the album [gid]. *)
Definition album_photo (id gid : Z) (caption : text) : Message :=
  {| msg_id := id; msg_message := caption; msg_text := caption;
     msg_photo := true; msg_video_note := false; msg_video := false;
     msg_voice := false; msg_audio := false; msg_sticker := false;
     msg_gif := false; msg_document := false; msg_poll := false;
     msg_grouped_id := Some gid; msg_forward := false; msg_reply_to := false;
     msg_entities := []; msg_reply_markup := false;
     msg_media := true; msg_web_preview := false |}.

(** A rule from [@chanA] to [@chanB] with the given mode and flags. *)
Definition simple_rule (id : Z) (mode : string) (on : list string) : Rule :=
  {| rule_id := id; source_list := ["@chanA"]; dest_list := ["@chanB"];
     forward_mode := mode; filters := flags_on on; modify := no_modify |}.

Definition set_modify (md : Modify) (rule : Rule) : Rule :=
  {| rule_id := rule_id rule; source_list := source_list rule;
     dest_list := dest_list rule; forward_mode := forward_mode rule;
     filters := filters rule; modify := md |}.

(** Three photos of album 77; the last one carries the caption. *)
Definition three_photos : list Message :=
  [album_photo 1 77 []; album_photo 2 77 []; album_photo 3 77 (txt "trip")].

(** ** Notions about patterns

    [lang r w]: the word [w] is matched by [r] (anchors aside).  [hit r s]:
    some match of [r] starts at the head of [s].  [clean r t]: no match of
    [r] starts anywhere in [t]. *)

Definition within (hi : option nat) (n : nat) : Prop :=
  match hi with Some h => (n <= h)%nat | None => True end.

Definition last_of (prev : option N) (w : text) : option N :=
  fold_left (fun _ c => Some c) w prev.

Fixpoint lang (r : regex) (w : text) : Prop :=
  match r with
  | Eps | Bol | Eol => w = []
  | Cls p => exists c, w = [c] /\ p c = true
  | Rep p lo hi =>
      Forall (fun c => p c = true) w /\ (lo <= length w)%nat
      /\ within hi (length w)
  | Cat r1 r2 => exists w1 w2, w = w1 ++ w2 /\ lang r1 w1 /\ lang r2 w2
  | Alt r1 r2 => lang r1 w \/ lang r2 w
  end.

Fixpoint anchor_free (r : regex) : Prop :=
  match r with
  | Bol | Eol => False
  | Cat r1 r2 | Alt r1 r2 => anchor_free r1 /\ anchor_free r2
  | _ => True
  end.

Definition hit (r : regex) (s : text) : Prop :=
  exists w s', s = w ++ s' /\ lang r w.

Definition clean (r : regex) (t : text) : Prop :=
  forall a u, t = a ++ u -> ~ hit r u.

(** [r] ends with an unbounded run of the class [q] of at least one
    character. *)
Fixpoint tail_run (q : N -> bool) (r : regex) : Prop :=
  match r with
  | Rep p (S _) None => forall c, p c = q c
  | Cat _ r2 => tail_run q r2
  | _ => False
  end.

(** Every character that [r] can consume is in the class [q]. *)
Fixpoint chars_in (q : N -> bool) (r : regex) : Prop :=
  match r with
  | Cls p | Rep p _ _ => forall c, p c = true -> q c = true
  | Cat r1 r2 | Alt r1 r2 => chars_in q r1 /\ chars_in q r2
  | _ => True
  end.

(** Every word of [r] is one character followed by characters of [q]. *)
Definition body_in (q : N -> bool) (r : regex) : Prop :=
  forall w, lang r w ->
    exists c w', w = c :: w' /\ Forall (fun c => q c = true) w'.

(** The text is empty or starts outside the class [q]. *)
Definition stops (q : N -> bool) (x : text) : Prop :=
  match x with [] => True | c :: _ => q c = false end.

(** What a match of [rj] across a seam can be, when the text after the seam
    starts outside [q]: it ends before the seam, or it also starts after the
    seam, or it survives putting any match of [rk] at the seam. *)
Definition junction (q : N -> bool) (rk rj : regex) : Prop :=
  forall a c x,
    a <> [] -> q c = false -> hit rj (a ++ c :: x) ->
    hit rj a \/ hit rj (c :: x) \/ (forall u, hit rk u -> hit rj (a ++ u)).

(** Wherever [rk] does not match, no match of [rj] starts. *)
Definition kept_free (rk rj : regex) (s : text) : Prop :=
  forall a c s', s = a ++ c :: s' -> ~ hit rk (c :: s') -> ~ hit rj (c :: s').

(** A pattern of literal visible characters followed by [\S+]. *)
Definition link_like (U : Unicode) (r : regex) : Prop :=
  anchor_free r /\ tail_run (non_space U) r /\ chars_in (non_space U) r.

(** The words of the e-mail pattern: local part, [@], domain, [.], rest. *)
Definition address (U : Unicode) (w l d t : text) : Prop :=
  w = l ++ 64%N :: d ++ 46%N :: t
  /\ (l <> [] /\ Forall (fun c => email_local U c = true) l)
  /\ (d <> [] /\ Forall (fun c => email_domain U c = true) d)
  /\ (t <> [] /\ Forall (fun c => email_tld U c = true) t).

(** The channel form of the id [r]: [int("-100" + str(r))]. *)
Definition with_prefix (r : positive) : Z :=
  default 0 (py_int (String.append "-100" (py_str (Z.pos r)))).

(** The three ways the id [r] is written. *)
Definition forms (r : positive) : list Z :=
  [Z.pos r; Z.neg r; with_prefix r].

(** ** Further notions for the dispatch of one message *)

(** What forward mode sends for a destination list: the original message,
    to every destination that resolves and accepts it. *)
Definition forwarded (client : Client) (msg : Message) (dests : list string)
    : list Action :=
  omap (fun d =>
          match resolve_dest client d with
          | Some e =>
              if forward_messages_ok client e
              then Some (ForwardMessages e [msg]) else None
          | None => None
          end) dests.

(** The test [is_only_web_preview] of copy mode. *)
Definition is_only_web_preview (msg : Message) : bool :=
  msg_web_preview msg && negb (msg_photo msg) && negb (msg_video msg)
  && negb (msg_document msg) && negb (msg_audio msg)
  && negb (msg_voice msg) && negb (msg_sticker msg)
  && negb (msg_gif msg) && negb (msg_video_note msg).

(** A sticker with nothing else set. *)
Definition sticker_message : Message :=
  {| msg_id := 9; msg_message := []; msg_text := [];
     msg_photo := false; msg_video_note := false; msg_video := false;
     msg_voice := false; msg_audio := false; msg_sticker := true;
     msg_gif := false; msg_document := true; msg_poll := false;
     msg_grouped_id := None; msg_forward := false; msg_reply_to := false;
     msg_entities := []; msg_reply_markup := false;
     msg_media := true; msg_web_preview := false |}.

(** ** Further notions for the cleaning stages *)

(** The words of the link filter's pattern [https?://|www\.|t\.me/|tg://]. *)
Definition link_markers : list text :=
  [txt "http://"; txt "https://"; txt "www."; txt "t.me/"; txt "tg://"].

(** [m in t] for Python strings. *)
Definition occurs_in (m t : text) : Prop := exists a b, t = a ++ m ++ b.

(** The text consists of characters of the class [q]. *)
Definition all_in (q : N -> bool) (t : text) : Prop :=
  Forall (fun c => q c = true) t.

(** ** Text helpers ([escape_markdown], [safe_text], [parse_multi_ids]) *)

(** [text.replace(c, new)] for a one-character [c]. *)
Definition replace_char (c : N) (new : text) (t : text) : text :=
  flat_map (fun x => if (x =? c)%N then new else [x]) t.

Definition escape_chars : text := txt "_*[]()~`>#+-=|{}.!".

(** [escape_markdown(text)]: one [replace] per character of
    [escape_chars], in order. *)
Definition escape_markdown (t : text) : text :=
  if truthy t
  then fold_left (fun t c => replace_char c [92%N; c] t) escape_chars t
  else [].

(** [safe_text(text)] *)
Definition safe_text (t : text) : text :=
  if truthy t
  then replace_char 91 [92%N; 91%N]
         (replace_char 96 [92%N; 96%N]
            (replace_char 42 [92%N; 42%N]
               (replace_char 95 [92%N; 95%N] t)))
  else [].

(** Escaping in one pass: a backslash in front of every character of
    [specials], everything else as it is. *)
Definition escaped (specials : text) (t : text) : text :=
  flat_map (fun x => if existsb (N.eqb x) specials then [92%N; x] else [x]) t.

(** [t.split(sep)] for a one-character [sep]. *)
Fixpoint split_on (sep : N) (t : text) : list text :=
  match t with
  | [] => [[]]
  | c :: t' =>
      if (c =? sep)%N then [] :: split_on sep t'
      else
        match split_on sep t' with
        | p :: ps => (c :: p) :: ps
        | [] => [[c]]
        end
  end.

(** [sep.join(l)] *)
Fixpoint join (sep : text) (l : list text) : text :=
  match l with
  | [] => []
  | [p] => p
  | p :: l' => p ++ sep ++ join sep l'
  end.

Section Ids.
Variable U : Unicode.

(** The loop of [parse_multi_ids]; [seen] is only asked for membership. *)
Definition keep_new (acc : list text * list text) (p : text)
    : list text * list text :=
  let '(seen, result) := acc in
  if truthy p && negb (bool_decide (p ∈ seen))
  then (p :: seen, result ++ [p])
  else (seen, result).

(** [parse_multi_ids(text)] *)
Definition parse_multi_ids (t : text) : list text :=
  let t := replace_char 32 [44%N]
             (replace_char 59 [44%N] (replace_char 10 [44%N] t)) in
  let parts := map (py_strip U) (split_on 44 t) in
  snd (fold_left keep_new parts ([], [])).

(** [[s.strip() for s in column.split(',') if s.strip()]], the way
    [get_user_rules] and [get_rules_by_phone] read a list column. *)
Definition read_list (column : text) : list text :=
  map (py_strip U)
    (filter (fun s => truthy (py_strip U s) = true) (split_on 44 column)).

(** [','.join(ids)], the way [add_forward_rule] and [update_rule_sources]
    write a list column. *)
Definition write_list (ids : list text) : text := join [44%N] ids.
End Ids.

(** What [parse_multi_ids] treats as a separator. *)
Definition is_separator (c : N) : bool :=
  (c =? 10)%N || (c =? 59)%N || (c =? 32)%N || (c =? 44)%N.

(** A well-formed id: not empty, no whitespace at either end, and free of
    separators. *)
Definition wellformed_id (U : Unicode) (p : text) : Prop :=
  p <> [] /\ py_strip U p = p /\ Forall (fun c => is_separator c = false) p.

(** ** The rule wizard: filter steps *)

(** [DEFAULT_FILTERS] *)
Definition DEFAULT_FILTERS : gmap string bool :=
  list_to_map
    [ ("document", false); ("video", false); ("audio", false);
      ("sticker", false); ("text", false); ("photo", false);
      ("photo_only", false); ("photo_with_text", false); ("album", false);
      ("poll", false); ("voice", false); ("video_note", false);
      ("gif", false); ("emoji", false); ("forward", false);
      ("reply", false); ("link", false); ("button", false);
      ("clean_caption", false); ("clean_hashtag", false);
      ("clean_mention", false); ("clean_link", false);
      ("clean_emoji", false); ("clean_phone", false);
      ("clean_email", false) ].

(** The steps of [ConnectState]. *)
Inductive Step :=
| IDLE | WAITING_PHONE | WAITING_CODE | WAITING_PASSWORD
| ADD_RULE_SOURCE | ADD_RULE_DEST | ADD_RULE_MODE | ADD_RULE_FILTERS
| ADD_RULE_CLEANER | ADD_RULE_MODIFY
| MODIFY_RENAME | MODIFY_BLOCK_WORDS | MODIFY_WHITELIST | MODIFY_REPLACE
| MODIFY_HEADER | MODIFY_FOOTER | MODIFY_BUTTONS | MODIFY_DELAY
| MODIFY_HISTORY | EDIT_RULE_SOURCE | EDIT_RULE_DEST.

(** The fields of a [ConnectState] that the filter steps read and write. *)
Record ConnectState := {
  state_step : Step;
  state_forward_mode : string;
  state_filters : gmap string bool
}.

Definition set_filters (f : gmap string bool) (state : ConnectState)
    : ConnectState :=
  {| state_step := state_step state;
     state_forward_mode := state_forward_mode state;
     state_filters := f |}.

(** [for key in keys: filters[key] = turn_on] *)
Definition set_keys (keys : list string) (turn_on : bool)
    (f : gmap string bool) : gmap string bool :=
  fold_left (fun f key => <[key := turn_on]> f) keys f.

Definition ignore_keys : list string :=
  [ "document"; "video"; "audio"; "sticker"; "text"; "photo";
    "photo_only"; "photo_with_text"; "album"; "poll"; "voice";
    "video_note"; "gif"; "emoji"; "forward"; "reply"; "link"; "button" ].

Definition cleaner_keys : list string :=
  [ "clean_hashtag"; "clean_mention"; "clean_link";
    "clean_emoji"; "clean_phone"; "clean_email" ].

(** The handlers take [connect_states.get(user.id)] and return the session
    as they update it; [None] is the answer "Session expired", given when
    there is no session or it is in another step, which changes nothing.
    The keyboards they redraw are left out. *)

(** [handle_filter_toggle], with [filter_key] already cut out of the
    callback data. *)
Definition handle_filter_toggle (state : option ConnectState)
    (filter_key : string) : option ConnectState :=
  match state with
  | None => None
  | Some st =>
      match state_step st with
      | ADD_RULE_FILTERS | ADD_RULE_CLEANER =>
          let current := flag (state_filters st) filter_key in
          Some (set_filters (<[filter_key := negb current]> (state_filters st))
                  st)
      | _ => None
      end
  end.

(** [handle_filters_all] *)
Definition handle_filters_all (state : option ConnectState) (turn_on : bool)
    : option ConnectState :=
  match state with
  | None => None
  | Some st =>
      match state_step st with
      | ADD_RULE_FILTERS =>
          Some (set_filters (set_keys ignore_keys turn_on (state_filters st))
                  st)
      | _ => None
      end
  end.

(** [handle_cleaner_all] *)
Definition handle_cleaner_all (state : option ConnectState) (turn_on : bool)
    : option ConnectState :=
  match state with
  | None => None
  | Some st =>
      match state_step st with
      | ADD_RULE_CLEANER =>
          Some (set_filters (set_keys cleaner_keys turn_on (state_filters st))
                  st)
      | _ => None
      end
  end.

(** The rule the handler sees once the wizard's filters are stored. *)
Definition with_filters (f : gmap string bool) (rule : Rule) : Rule :=
  {| rule_id := rule_id rule; source_list := source_list rule;
     dest_list := dest_list rule; forward_mode := forward_mode rule;
     filters := f; modify := modify rule |}.

(** A wizard session in the filter step with two ignore flags on. *)
Definition filter_step : ConnectState :=
  {| state_step := ADD_RULE_FILTERS; state_forward_mode := "forward";
     state_filters := flags_on ["photo"; "link"] |}.

(** A wizard session in the cleaner step. *)
Definition cleaner_step : ConnectState :=
  {| state_step := ADD_RULE_CLEANER; state_forward_mode := "copy";
     state_filters := flags_on ["photo"; "clean_caption"] |}.

(** The session after the toggle button for [key] was pressed. *)
Definition toggled (key : string) (state : ConnectState) : ConnectState :=
  default state (handle_filter_toggle (Some state) key).

(** ** Resolving identifiers ([resolve_entity], [resolve_dest]) *)

(** What the account's connection answers.  [None] stands for a raised
    exception; [iter_dialogs()] yields [dialogs] and then ends, or raises
    when [dialogs_fail] is set. *)
Record Telegram := {
  get_entity_by_name : string -> option Entity;
  get_entity_by_id : Z -> option Entity;
  get_entity_by_channel : Z -> option Entity;
  dialogs : list (Z * Entity);
  dialogs_fail : bool
}.

(** How a step of a resolver ends: with an entity, without one, or with an
    exception that reaches the outer [except]. *)
Inductive lookup :=
| Found (e : Entity)
| Missing
| Failed.

(** The body of [async for dialog in client.iter_dialogs()], which is the
    same in both resolvers; [None] is the [ValueError] of
    [int(str(num_id)[4:])]. *)
Definition dialog_matches (num_id did : Z) : option bool :=
  if (did =? num_id) || (Z.abs did =? Z.abs num_id) then Some true
  else if startswith "-100" (py_str num_id) then
    bind_opt (py_int (slice_from 4 (py_str num_id))) (fun real_id =>
    Some ((did =? real_id) || (Z.abs did =? real_id)))
  else Some false.

Fixpoint iter_dialogs (num_id : Z) (ds : list (Z * Entity)) (fail : bool)
    : lookup :=
  match ds with
  | [] => if fail then Failed else Missing
  | (did, e) :: ds' =>
      match dialog_matches num_id did with
      | None => Failed
      | Some true => Found e
      | Some false => iter_dialogs num_id ds' fail
      end
  end.

Inductive resolve_error :=
| ClientNotConnected
| InvalidIdFormat
| EntityNotFound
| Raised.

Module Resolver.

(** [resolve_entity(phone, identifier)]; [client] is
    [self.clients.get(phone)].  [(True, entity, None)] is [inl entity],
    [(False, None, error_msg)] is [inr] of the kind of message. *)
Definition resolve_entity (client : option Telegram) (identifier : string)
    : Entity + resolve_error :=
  match client with
  | None => inr ClientNotConnected
  | Some client =>
      if startswith "@" identifier then
        match get_entity_by_name client identifier with
        | Some entity => inl entity
        | None => inr Raised
        end
      else
        match py_int identifier with
        | None => inr InvalidIdFormat
        | Some num_id =>
            match get_entity_by_id client num_id with
            | Some entity => inl entity
            | None =>
                let by_channel :=
                  if startswith "-100" (py_str num_id) then
                    match py_int (slice_from 4 (py_str num_id)) with
                    | None => Failed
                    | Some real_id =>
                        match get_entity_by_channel client real_id with
                        | Some entity => Found entity
                        | None => Missing
                        end
                    end
                  else Missing in
                match by_channel with
                | Found entity => inl entity
                | Failed => inr Raised
                | Missing =>
                    match iter_dialogs num_id (dialogs client)
                            (dialogs_fail client) with
                    | Found entity => inl entity
                    | Missing => inr EntityNotFound
                    | Failed => inr Raised
                    end
                end
            end
        end
  end.

(** [resolve_dest(dest_str)] of [attach_forward_handler]: the result and
    the [entity_cache] it leaves. *)
Definition resolve_dest (client : Telegram)
    (entity_cache : gmap string Entity) (dest_str : string)
    : option Entity * gmap string Entity :=
  let cached entity := (Some entity, <[dest_str := entity]> entity_cache) in
  match entity_cache !! dest_str with
  | Some entity => (Some entity, entity_cache)
  | None =>
      if startswith "@" dest_str then
        match get_entity_by_name client dest_str with
        | Some entity => cached entity
        | None => (None, entity_cache)
        end
      else
        match py_int dest_str with
        | None => (None, entity_cache)
        | Some dest_id =>
            match get_entity_by_id client dest_id with
            | Some entity => cached entity
            | None =>
                let by_channel :=
                  if startswith "-100" (py_str dest_id) then
                    match py_int (slice_from 4 (py_str dest_id)) with
                    | None => Failed
                    | Some real_id =>
                        match get_entity_by_channel client real_id with
                        | Some entity => Found entity
                        | None => Missing
                        end
                    end
                  else Missing in
                match by_channel with
                | Found entity => cached entity
                | Failed => (None, entity_cache)
                | Missing =>
                    match iter_dialogs dest_id (dialogs client)
                            (dialogs_fail client) with
                    | Found entity => cached entity
                    | Missing | Failed => (None, entity_cache)
                    end
                end
            end
        end
  end.

End Resolver.

(** A connection that knows one channel by its bare id only through the
    dialogs. *)
Definition small_network : Telegram :=
  {| get_entity_by_name := fun n =>
       if String.eqb n "@news" then Some "news" else None;
     get_entity_by_id := fun _ => None;
     get_entity_by_channel := fun _ => None;
     dialogs := [(7, "seven"); (-1005, "five")];
     dialogs_fail := false |}.

(** ** The rule table ([DatabaseManager])

    The tables are lists of rows in insertion order.  A TEXT column that can
    be NULL is an [option]; a JSON column holds the dict that its text
    encodes.  The time stamps ([created_at], [connected_at]), the legacy
    [source_id] and [dest_id], and the row id of an account play no part in
    any statement modelled here and are left out. *)

Record RuleRow := {
  row_id : Z;
  row_user_id : Z;
  row_phone : string;
  row_source : text;
  row_destination : text;
  row_is_enabled : Z;
  row_forward_count : Z;
  row_sources : option text;
  row_destinations : option text;
  row_forward_mode : option string;
  row_filters : option (gmap string bool);
  row_modify : option Modify
}.

Record Account := {
  acc_user_id : Z;
  acc_phone : string;
  acc_display_name : option string;
  acc_is_active : Z
}.

(** [last_rowid] is the AUTOINCREMENT sequence of [forward_rules]. *)
Record Database := {
  forward_rules : list RuleRow;
  last_rowid : Z;
  connected_accounts : list Account
}.

Definition with_rules (rows : list RuleRow) (db : Database) : Database :=
  {| forward_rules := rows; last_rowid := last_rowid db;
     connected_accounts := connected_accounts db |}.

(** [UPDATE forward_rules SET ... WHERE hit]; the second component is
    [cursor.rowcount > 0]. *)
Definition update_where (hit : RuleRow -> bool) (set : RuleRow -> RuleRow)
    (db : Database) : Database * bool :=
  (with_rules (map (fun r => if hit r then set r else r) (forward_rules db))
     db,
   existsb hit (forward_rules db)).

(** [WHERE id = ? AND user_id = ?] *)
Definition owned (rule_id user_id : Z) (r : RuleRow) : bool :=
  (row_id r =? rule_id) && (row_user_id r =? user_id).

(** [WHERE user_id = ? AND phone = ?] *)
Definition of_account (user_id : Z) (phone : string) (r : RuleRow) : bool :=
  (row_user_id r =? user_id) && String.eqb (row_phone r) phone.

Definition set_is_enabled (v : Z) (r : RuleRow) : RuleRow :=
  {| row_id := row_id r; row_user_id := row_user_id r;
     row_phone := row_phone r; row_source := row_source r;
     row_destination := row_destination r; row_is_enabled := v;
     row_forward_count := row_forward_count r;
     row_sources := row_sources r; row_destinations := row_destinations r;
     row_forward_mode := row_forward_mode r; row_filters := row_filters r;
     row_modify := row_modify r |}.

Definition set_forward_mode (v : string) (r : RuleRow) : RuleRow :=
  {| row_id := row_id r; row_user_id := row_user_id r;
     row_phone := row_phone r; row_source := row_source r;
     row_destination := row_destination r;
     row_is_enabled := row_is_enabled r;
     row_forward_count := row_forward_count r;
     row_sources := row_sources r; row_destinations := row_destinations r;
     row_forward_mode := Some v; row_filters := row_filters r;
     row_modify := row_modify r |}.

Definition set_sources (v : text) (r : RuleRow) : RuleRow :=
  {| row_id := row_id r; row_user_id := row_user_id r;
     row_phone := row_phone r; row_source := v;
     row_destination := row_destination r;
     row_is_enabled := row_is_enabled r;
     row_forward_count := row_forward_count r;
     row_sources := Some v; row_destinations := row_destinations r;
     row_forward_mode := row_forward_mode r; row_filters := row_filters r;
     row_modify := row_modify r |}.

Definition set_destinations (v : text) (r : RuleRow) : RuleRow :=
  {| row_id := row_id r; row_user_id := row_user_id r;
     row_phone := row_phone r; row_source := row_source r;
     row_destination := v;
     row_is_enabled := row_is_enabled r;
     row_forward_count := row_forward_count r;
     row_sources := row_sources r; row_destinations := Some v;
     row_forward_mode := row_forward_mode r; row_filters := row_filters r;
     row_modify := row_modify r |}.

Definition set_row_filters (v : gmap string bool) (r : RuleRow) : RuleRow :=
  {| row_id := row_id r; row_user_id := row_user_id r;
     row_phone := row_phone r; row_source := row_source r;
     row_destination := row_destination r;
     row_is_enabled := row_is_enabled r;
     row_forward_count := row_forward_count r;
     row_sources := row_sources r; row_destinations := row_destinations r;
     row_forward_mode := row_forward_mode r; row_filters := Some v;
     row_modify := row_modify r |}.

Definition set_row_modify (v : Modify) (r : RuleRow) : RuleRow :=
  {| row_id := row_id r; row_user_id := row_user_id r;
     row_phone := row_phone r; row_source := row_source r;
     row_destination := row_destination r;
     row_is_enabled := row_is_enabled r;
     row_forward_count := row_forward_count r;
     row_sources := row_sources r; row_destinations := row_destinations r;
     row_forward_mode := row_forward_mode r; row_filters := row_filters r;
     row_modify := Some v |}.

(** [add_connected_account]: INSERT OR REPLACE under UNIQUE(user_id, phone) *)
Definition add_connected_account (db : Database) (user_id : Z)
    (phone : string) (display_name : option string) : Database :=
  {| forward_rules := forward_rules db; last_rowid := last_rowid db;
     connected_accounts :=
       List.filter
         (fun a => negb ((acc_user_id a =? user_id)
                         && String.eqb (acc_phone a) phone))
         (connected_accounts db)
       ++ [{| acc_user_id := user_id; acc_phone := phone;
              acc_display_name := display_name; acc_is_active := 1 |}] |}.

(** The order of the index that UNIQUE(user_id, phone) creates, for one
    user: by phone. *)
Fixpoint insert_by_phone (a : Account) (l : list Account) : list Account :=
  match l with
  | [] => [a]
  | b :: l' =>
      if String.leb (acc_phone a) (acc_phone b) then a :: l
      else b :: insert_by_phone a l'
  end.

Definition by_phone (l : list Account) : list Account :=
  fold_right insert_by_phone [] l.

(** [get_user_accounts]; the query has no ORDER BY and is answered from the
    index on (user_id, phone). *)
Definition get_user_accounts (db : Database) (user_id : Z)
    : list (string * option string) :=
  map (fun a => (acc_phone a, acc_display_name a))
    (by_phone
       (List.filter
          (fun a => (acc_user_id a =? user_id) && (acc_is_active a =? 1))
          (connected_accounts db))).

(** [remove_account] *)
Definition remove_account (db : Database) (user_id : Z) (phone : string)
    : Database :=
  {| forward_rules :=
       map (fun r => if of_account user_id phone r
                     then set_is_enabled 0 r else r) (forward_rules db);
     last_rowid := last_rowid db;
     connected_accounts :=
       map (fun a => if (acc_user_id a =? user_id)
                        && String.eqb (acc_phone a) phone
                     then {| acc_user_id := acc_user_id a;
                             acc_phone := acc_phone a;
                             acc_display_name := acc_display_name a;
                             acc_is_active := 0 |}
                     else a) (connected_accounts db) |}.

(** [json.dumps(filters) if filters else None] *)
Definition dumps_filters (filters : option (gmap string bool))
    : option (gmap string bool) :=
  match filters with
  | Some f => if decide (f = ∅) then None else Some f
  | None => None
  end.

(** [add_forward_rule]; the result is [cursor.lastrowid]. *)
Definition add_forward_rule (db : Database) (user_id : Z) (phone : string)
    (sources destinations : list text) (forward_mode : string)
    (filters : option (gmap string bool)) (modify : option Modify)
    : Database * Z :=
  let source_str := write_list sources in
  let dest_str := write_list destinations in
  let rowid := last_rowid db + 1 in
  ({| forward_rules :=
        forward_rules db
        ++ [{| row_id := rowid; row_user_id := user_id; row_phone := phone;
               row_source := source_str; row_destination := dest_str;
               row_is_enabled := 1; row_forward_count := 0;
               row_sources := Some source_str;
               row_destinations := Some dest_str;
               row_forward_mode := Some forward_mode;
               row_filters := dumps_filters filters;
               row_modify := modify |}];
      last_rowid := rowid;
      connected_accounts := connected_accounts db |},
   rowid).

(** What the rule queries return for a row: the row and the parsed
    columns. *)
Record StoredRule := {
  stored_row : RuleRow;
  stored_source_list : list text;
  stored_dest_list : list text;
  stored_forward_mode : string;
  stored_filters : gmap string bool;
  stored_modify : Modify
}.

(** [d.get('sources') or d.get('source', '')] *)
Definition column_or (a : option text) (b : text) : text :=
  match a with
  | Some s => if truthy s then s else b
  | None => b
  end.

Section Queries.
Variable U : Unicode.

Definition read_row (r : RuleRow) : StoredRule :=
  {| stored_row := r;
     stored_source_list :=
       read_list U (column_or (row_sources r) (row_source r));
     stored_dest_list :=
       read_list U (column_or (row_destinations r) (row_destination r));
     stored_forward_mode :=
       match row_forward_mode r with
       | Some m => if String.eqb m "" then "forward" else m
       | None => "forward"
       end;
     stored_filters := default DEFAULT_FILTERS (row_filters r);
     stored_modify := default no_modify (row_modify r) |}.

(** [get_rules_by_phone]: [WHERE phone = ? AND is_enabled = 1] *)
Definition get_rules_by_phone (db : Database) (phone : string)
    : list StoredRule :=
  map read_row
    (List.filter
       (fun r => String.eqb (row_phone r) phone && (row_is_enabled r =? 1))
       (forward_rules db)).
End Queries.

(** [delete_rule] *)
Definition delete_rule (db : Database) (user_id rule_id : Z)
    : Database * bool :=
  (with_rules
     (List.filter (fun r => negb (owned rule_id user_id r)) (forward_rules db))
     db,
   existsb (owned rule_id user_id) (forward_rules db)).

(** [toggle_rule]: [SET is_enabled = 1 - is_enabled], then the new value of
    the row with this id. *)
Definition toggle_rule (db : Database) (user_id rule_id : Z)
    : Database * option bool :=
  let '(db', changed) :=
    update_where (owned rule_id user_id)
      (fun r => set_is_enabled (1 - row_is_enabled r) r) db in
  (db',
   if changed then
     match List.find (fun r => row_id r =? rule_id) (forward_rules db') with
     | Some row => Some (negb (row_is_enabled row =? 0))
     | None => None
     end
   else None).

Definition update_rule_mode (db : Database) (user_id rule_id : Z)
    (mode : string) : Database * bool :=
  update_where (owned rule_id user_id) (set_forward_mode mode) db.

Definition update_rule_sources (db : Database) (user_id rule_id : Z)
    (sources : list text) : Database * bool :=
  update_where (owned rule_id user_id) (set_sources (write_list sources)) db.

Definition update_rule_destinations (db : Database) (user_id rule_id : Z)
    (destinations : list text) : Database * bool :=
  update_where (owned rule_id user_id)
    (set_destinations (write_list destinations)) db.

Definition update_rule_filters (db : Database) (user_id rule_id : Z)
    (filters : gmap string bool) : Database * bool :=
  update_where (owned rule_id user_id) (set_row_filters filters) db.

Definition update_rule_modify (db : Database) (user_id rule_id : Z)
    (modify : Modify) : Database * bool :=
  update_where (owned rule_id user_id) (set_row_modify modify) db.

(** The rules that do not belong to [user_id]. *)
Definition rules_of_others (user_id : Z) (db : Database) : list RuleRow :=
  List.filter (fun r => negb (row_user_id r =? user_id)) (forward_rules db).

(** What forward mode sends for an album: the whole buffer, in one call, to
    every destination that resolves and accepts it. *)
Definition forwarded_group (client : Client) (msgs : list Message)
    (dests : list string) : list Action :=
  omap (fun d =>
          match resolve_dest client d with
          | Some e =>
              if forward_messages_ok client e
              then Some (ForwardMessages e msgs) else None
          | None => None
          end) dests.

(** A connection on which the download of the message [bad] raises. *)
Definition failing_download (bad : Z) : Client :=
  {| resolve_dest := fun d => Some d;
     forward_messages_ok := fun _ => true;
     download_media := fun m =>
       if msg_id m =? bad then DownloadError else Downloaded (msg_id m);
     send_file_ok := fun _ => true;
     send_message_ok := fun _ _ => true |}.

(** ** Bursts of album members under any list of rules *)

(** Whether [rule] hands the message to the album branch. *)
Definition takes (chat_id : Z) (chat_username : option string)
    (msg : Message) (rule : Rule) : bool :=
  match evaluate rule chat_id chat_username msg with
  | ToAlbum _ => true
  | _ => false
  end.

(** The appends to the album buffer that a burst causes, in the order in
    which the handler makes them: the members in order of arrival, each one
    once for every rule that takes it, in the order of the rules. *)
Definition appends (rules : list Rule) (chat_id : Z)
    (chat_username : option string) (msgs : list Message)
    : list (Message * Rule) :=
  flat_map
    (fun m => map (fun r => (m, r))
                (List.filter (takes chat_id chat_username m) rules))
    msgs.

(** A second rule from [@chanA], to [@chanC]. *)
Definition other_rule : Rule :=
  {| rule_id := 2; source_list := ["@chanA"]; dest_list := ["@chanC"];
     forward_mode := "forward"; filters := flags_on [];
     modify := no_modify |}.

(** A string with no whitespace for [int] to strip and no underscore. *)
Fixpoint plain (s : string) : bool :=
  match s with
  | EmptyString => true
  | String a s' => negb (int_space a) && negb (Ascii.eqb a "_") && plain s'
  end.

(** * Properties *)

(** ** Dispatch passes only append *)

Lemma extend_new_l q : extend new_pass q = q.
Proof. destruct q; reflexivity. Qed.

Lemma extend_new_r p : extend p new_pass = p.
Proof.
  destruct p as [l n]; unfold extend; simpl.
  rewrite app_nil_r, Nat.add_0_r; reflexivity.
Qed.

Lemma extend_assoc p q r : extend (extend p q) r = extend p (extend q r).
Proof.
  unfold extend; simpl. rewrite <- app_assoc, Nat.add_assoc; reflexivity.
Qed.

Lemma uniform_ret {A} (a : A) : uniform (ret a).
Proof. intros p; unfold ret; simpl. rewrite extend_new_r; reflexivity. Qed.

Lemma uniform_raise {A} e : uniform (@raise A e).
Proof. intros p; unfold raise; simpl. rewrite extend_new_r; reflexivity. Qed.

Lemma uniform_perform ok a : uniform (perform ok a).
Proof.
  intros p; unfold perform; destruct ok; simpl.
  - unfold extend, emit; simpl. rewrite Nat.add_0_r; reflexivity.
  - rewrite extend_new_r; reflexivity.
Qed.

Lemma uniform_succeed : uniform succeed.
Proof.
  intros [l n]; unfold succeed, extend; simpl.
  rewrite app_nil_r, Nat.add_1_r; reflexivity.
Qed.

Lemma uniform_bind {A B} (m : M A) (k : A -> M B) :
  uniform m -> (forall a, uniform (k a)) -> uniform (bind m k).
Proof.
  intros Hm Hk p. unfold bind. rewrite (Hm p).
  destruct (m new_pass) as [q [a | e]]; simpl.
  - rewrite (Hk a (extend p q)), (Hk a q), extend_assoc; reflexivity.
  - reflexivity.
Qed.

Lemma uniform_seq {A} (m : M unit) (k : M A) :
  uniform m -> uniform k -> uniform (seq m k).
Proof. intros Hm Hk; apply uniform_bind; auto. Qed.

Lemma uniform_try_except m : uniform m -> uniform (try_except m).
Proof.
  intros Hm p. unfold try_except. rewrite (Hm p).
  destruct (m new_pass); reflexivity.
Qed.

Lemma uniform_try_finally {A} (m : M A) c :
  uniform m -> (forall p q, c (extend p q) = extend p (c q)) ->
  uniform (try_finally m c).
Proof.
  intros Hm Hc p. unfold try_finally. rewrite (Hm p).
  destruct (m new_pass); simpl. rewrite Hc; reflexivity.
Qed.

Lemma emit_extend a p q : emit a (extend p q) = extend p (emit a q).
Proof. unfold emit, extend; simpl. rewrite app_assoc; reflexivity. Qed.

Lemma emit_all_extend files p q :
  fold_left (fun p f => emit (RemoveFile f) p) files (extend p q)
  = extend p (fold_left (fun p f => emit (RemoveFile f) p) files q).
Proof.
  revert q; induction files as [| f files IH]; intros q; simpl.
  - reflexivity.
  - rewrite emit_extend; apply IH.
Qed.

Create HintDb uniform.
#[export] Hint Resolve uniform_ret uniform_raise uniform_perform
  uniform_succeed uniform_seq uniform_try_except : uniform.

Section PassFacts.
Variable U : Unicode.
Variable client : Client.

Lemma uniform_copy_message msg original caption rlp e :
  uniform (copy_message client msg original caption rlp e).
Proof.
  unfold copy_message, send_message, send_file.
  repeat match goal with
         | |- uniform (if ?b then _ else _) => destruct b
         | |- uniform (match ?o with Some _ => _ | None => _ end) =>
             destruct o
         | |- uniform (match ?d with Downloaded _ => _ | _ => _ end) =>
             destruct d
         | |- uniform (try_finally _ _) =>
             apply uniform_try_finally; [| intros; apply emit_extend]
         | |- uniform (seq _ _) => apply uniform_seq
         | |- _ => solve [auto with uniform]
         end.
Qed.

Lemma uniform_deliver msg mode original caption rlp dest :
  uniform (deliver client msg mode original caption rlp dest).
Proof.
  unfold deliver, forward_messages.
  apply uniform_try_except.
  destruct (resolve_dest client dest); auto with uniform.
  destruct (String.eqb mode "copy"); auto with uniform.
  apply uniform_try_except, uniform_copy_message.
Qed.

Lemma uniform_album_to album dest : uniform (album_to client album dest).
Proof.
  unfold album_to, forward_messages, send_file.
  apply uniform_try_except.
  destruct (resolve_dest client dest); auto with uniform.
  destruct (String.eqb _ "copy"); auto with uniform.
  destruct (download_all _ _) as [[| f files] |]; auto with uniform.
  apply uniform_try_finally; auto with uniform.
  intros; apply emit_all_extend.
Qed.

Lemma deliver_ok msg mode original caption rlp dest p :
  snd (deliver client msg mode original caption rlp dest p) = Ok tt.
Proof. unfold deliver, try_except. destruct (_ p); reflexivity. Qed.

Lemma album_to_ok album dest p :
  snd (album_to client album dest p) = Ok tt.
Proof. unfold album_to, try_except. destruct (_ p); reflexivity. Qed.
End PassFacts.

(** A loop whose body is uniform and never raises visits every element: the
    pass it produces is the concatenation of what the body does for each
    element on its own. *)
Lemma for_each_isolated {A} (body : A -> M unit) (l : list A) :
  (forall a, uniform (body a)) ->
  (forall a p, snd (body a p) = Ok tt) ->
  forall p,
    for_each body l p
    = ({| sent := sent p ++ concat (map (fun a => sent (run_pass (body a))) l);
          success_count :=
            success_count p
            + list_sum (map (fun a => success_count (run_pass (body a))) l) |},
       Ok tt).
Proof.
  intros Hu Hok. induction l as [| a l IH]; intros p; simpl.
  - unfold ret. destruct p as [s n]; simpl.
    rewrite app_nil_r, Nat.add_0_r; reflexivity.
  - unfold seq, bind. rewrite (Hu a p).
    specialize (Hok a new_pass).
    unfold run_pass. destruct (body a new_pass) as [q r]; simpl in *; subst r.
    rewrite IH; simpl. rewrite <- app_assoc, Nat.add_assoc; reflexivity.
Qed.

(** ** The dispatch pass of a single message *)

Section DispatchFacts.
Variable U : Unicode.
Variable client : Client.

Lemma counter_increment rid st :
  counter (increment_forward_count rid st) rid = S (counter st rid).
Proof.
  unfold counter at 1, increment_forward_count; simpl.
  rewrite lookup_insert_eq; reflexivity.
Qed.

Lemma counter_increment_ne rid rid' st :
  rid <> rid' ->
  counter (increment_forward_count rid st) rid' = counter st rid'.
Proof.
  intros Hne. unfold counter at 1, increment_forward_count; simpl.
  rewrite lookup_insert_ne by exact Hne; reflexivity.
Qed.

Lemma counter_record_sent l st rid :
  counter (record_sent l st) rid = counter st rid.
Proof. reflexivity. Qed.

(** The pass visits every destination; the counter moves once when some
    destination counted a success, and not at all otherwise. *)
Lemma dispatch_outcome rule msg st :
  let st' := dispatch U client rule msg st in
  let n := list_sum (map (fun d => success_count (alone U client rule msg d))
                       (dest_list rule)) in
  outbox st'
  = outbox st ++ concat (map (fun d => sent (alone U client rule msg d))
                           (dest_list rule))
  /\ counter st' (rule_id rule)
     = (counter st (rule_id rule) + if (0 <? n)%nat then 1 else 0)%nat
  /\ album_cache st' = album_cache st
  /\ timers st' = timers st.
Proof.
  unfold dispatch, run_pass.
  rewrite (for_each_isolated _ (dest_list rule)
             (fun d => uniform_deliver client msg _ _ _ _ d)
             (fun d p => deliver_ok client msg _ _ _ _ d p)).
  cbn [fst sent success_count new_pass app Nat.add].
  fold (alone U client rule msg).
  destruct (0 <? _)%nat.
  - rewrite counter_increment, counter_record_sent.
    split; [reflexivity |]. split; [lia |]. split; reflexivity.
  - rewrite counter_record_sent.
    split; [reflexivity |]. split; [lia |]. split; reflexivity.
Qed.
End DispatchFacts.

(** ** The copy scenario *)

Lemma scenario_cleaned U :
  clean_caption U (filters scenario_rule) scenario_text = txt "Hello".
Proof. vm_compute. reflexivity. Qed.

(** C9: with [clean_hashtag], [clean_mention] and [clean_link] on, the text
    "Hello #world @user http://x.com" is cleaned to "Hello", and in copy mode
    that text is what is sent to the resolved destination; the rule's counter
    moves by one. *)
Theorem scenario_copy_dispatch U client chat_id preview e st :
  resolve_dest client "@chanB" = Some e ->
  send_message_ok client e (txt "Hello") = true ->
  let msg := with_preview preview (text_message scenario_text) in
  let st' := forward_handler U client [scenario_rule] chat_id (Some "chanA")
               msg st in
  clean_caption U (filters scenario_rule) (original_text_of msg) = txt "Hello"
  /\ outbox st' = outbox st ++ [SendMessage e (txt "Hello") false]
  /\ counter st' 1 = S (counter st 1).
Proof.
  intros Hres Hsend msg st'.
  assert (Hclean : clean_caption U (filters scenario_rule)
                     (original_text_of msg) = txt "Hello")
    by (vm_compute; reflexivity).
  split; [exact Hclean |].
  assert (Hev : evaluate scenario_rule chat_id (Some "chanA") msg = Proceed)
    by (destruct preview; vm_compute; reflexivity).
  subst st'. unfold forward_handler, process_rule; simpl fold_left.
  rewrite Hev.
  pose proof (dispatch_outcome U client scenario_rule msg st) as Hd.
  cbv zeta in Hd. destruct Hd as (Hout & Hcnt & _).
  assert (Halone : alone U client scenario_rule msg "@chanB"
                   = {| sent := [SendMessage e (txt "Hello") false];
                        success_count := 1 |}).
  { unfold alone. rewrite Hclean.
    unfold run_pass, deliver, try_except. rewrite Hres.
    change (String.eqb (forward_mode scenario_rule) "copy") with true.
    cbv iota. unfold copy_message.
    change (flag (filters scenario_rule) "clean_link") with true.
    destruct preview; simpl; unfold send_message, perform, seq, bind;
      rewrite Hsend; reflexivity. }
  change (dest_list scenario_rule) with ["@chanB"] in Hout, Hcnt.
  simpl in Hout, Hcnt. rewrite Halone in Hout, Hcnt. simpl in Hout, Hcnt.
  change (rule_id scenario_rule) with 1 in Hcnt.
  split; [exact Hout | lia].
Qed.

Lemma scenario_copy_dispatch_witness :
  resolve_dest (friendly_client []) "@chanB" = Some "@chanB"
  /\ send_message_ok (friendly_client []) "@chanB" (txt "Hello") = true
  /\ outbox (forward_handler ascii_only (friendly_client []) [scenario_rule]
               (-1001111111111) (Some "chanA")
               (with_preview true (text_message scenario_text))
               initial_state)
     = [SendMessage "@chanB" (txt "Hello") false].
Proof.
  split; [reflexivity |]. split; [reflexivity |].
  apply (scenario_copy_dispatch ascii_only (friendly_client [])
           (-1001111111111) true "@chanB" initial_state);
    reflexivity.
Defined.

(** ** Copy mode on a voice message *)

(** C10: in copy mode, for a voice message with non-empty text, once the
    voice file has been downloaded and uploaded to the destination, the
    branch raises [NameError] on [original_entities]: the trailing text is
    never sent and the destination does not count as a success. *)
Theorem copy_voice_with_text_raises client msg caption rlp dest e f p :
  msg_voice msg = true ->
  msg_media msg = true ->
  msg_photo msg = false ->
  msg_video_note msg = false ->
  truthy (original_text_of msg) = true ->
  resolve_dest client dest = Some e ->
  download_media client msg = Downloaded f ->
  send_file_ok client e = true ->
  let uploaded :=
    {| sent := sent p ++ [SendFile e [f] None AsVoice; RemoveFile f];
       success_count := success_count p |} in
  copy_message client msg (original_text_of msg) caption rlp e p
  = (uploaded, Raise (NameError "original_entities"))
  /\ deliver client msg "copy" (original_text_of msg) caption rlp dest p
     = (uploaded, Ok tt).
Proof.
  intros Hvoice Hmedia Hphoto Hnote Htext Hres Hdl Hsf uploaded.
  assert (Hcopy : copy_message client msg (original_text_of msg) caption rlp
                    e p
                  = (uploaded, Raise (NameError "original_entities"))).
  { unfold copy_message.
    rewrite Hmedia, Hvoice, Hphoto, Hnote, Hdl, Htext.
    cbn [negb]. rewrite !andb_false_r. cbn [andb].
    unfold try_finally, seq, bind, send_file, perform, raise.
    rewrite Hsf. cbn. unfold uploaded, emit; cbn.
    rewrite <- app_assoc; reflexivity. }
  split; [exact Hcopy |].
  unfold deliver, try_except. rewrite Hres. cbn.
  unfold try_except. rewrite Hcopy. reflexivity.
Qed.

Lemma copy_voice_with_text_raises_witness :
  deliver (friendly_client []) (voice_note (txt "listen")) "copy"
    (txt "listen") (txt "listen") false "@chanB" new_pass
  = ({| sent := [SendFile "@chanB" [7] None AsVoice; RemoveFile 7];
        success_count := 0 |}, Ok tt).
Proof.
  apply (copy_voice_with_text_raises (friendly_client [])
           (voice_note (txt "listen")) (txt "listen") false "@chanB"
           "@chanB" 7 new_pass); reflexivity.
Defined.

(** ** Failures stay with their destination *)

Lemma alone_unresolved U client rule msg bad :
  resolve_dest client bad = None -> alone U client rule msg bad = new_pass.
Proof.
  intros H. unfold alone, run_pass, deliver, try_except. rewrite H.
  reflexivity.
Qed.

Lemma alone_forwarded U client rule msg good e :
  resolve_dest client good = Some e ->
  String.eqb (forward_mode rule) "copy" = false ->
  forward_messages_ok client e = true ->
  alone U client rule msg good
  = {| sent := [ForwardMessages e [msg]]; success_count := 1 |}.
Proof.
  intros Hres Hmode Hok.
  unfold alone, run_pass, deliver, try_except. rewrite Hres, Hmode.
  unfold forward_messages, seq, bind, perform. rewrite Hok. reflexivity.
Qed.

(** C5: whatever happens on the other destinations of the rule (resolution
    failure, send failure), the destination [good] is attempted exactly as if
    it were alone; when that delivery succeeds the counter moves by exactly
    one.  In particular, with two destinations of which one does not resolve
    and the other resolves and accepts the forward, the latter receives the
    message and the counter moves by one. *)
Theorem failed_destination_is_isolated U client rule msg st before good after :
  dest_list rule = before ++ good :: after ->
  let st' := dispatch U client rule msg st in
  let a := alone U client rule msg good in
  (exists l1 l2, outbox st' = outbox st ++ l1 ++ sent a ++ l2)
  /\ ((0 < success_count a)%nat ->
      counter st' (rule_id rule) = S (counter st (rule_id rule)))
  /\ (forall bad e,
        before ++ after = [bad] ->
        resolve_dest client bad = None ->
        resolve_dest client good = Some e ->
        String.eqb (forward_mode rule) "copy" = false ->
        forward_messages_ok client e = true ->
        outbox st' = outbox st ++ [ForwardMessages e [msg]]
        /\ counter st' (rule_id rule) = S (counter st (rule_id rule))).
Proof.
  intros Hdests st' a.
  destruct (dispatch_outcome U client rule msg st) as (Hout & Hcnt & _).
  fold st' in Hout, Hcnt. rewrite Hdests in Hout, Hcnt.
  rewrite map_app, concat_app in Hout. cbn [map concat] in Hout.
  rewrite map_app, list_sum_app in Hcnt. cbn [map list_sum fold_right] in Hcnt.
  fold a in Hout, Hcnt.
  assert (Hpos : (0 < success_count a)%nat ->
                 counter st' (rule_id rule) = S (counter st (rule_id rule))).
  { intros Ha. rewrite Hcnt.
    match goal with |- context [(0 <? ?n)%nat] =>
      destruct (Nat.ltb_spec 0 n); lia end. }
  split; [| split].
  - eexists _, _. rewrite Hout. reflexivity.
  - exact Hpos.
  - intros bad e Hone Hbad Hres Hmode Hok.
    pose proof (alone_forwarded U client rule msg good e Hres Hmode Hok) as Ha.
    fold a in Ha. split.
    + rewrite Hout, Ha.
      destruct before as [| b before'].
      * cbn in Hone. subst after. cbn.
        rewrite (alone_unresolved U client rule msg bad Hbad). reflexivity.
      * destruct before'; [| destruct before'; discriminate Hone].
        destruct after; [| discriminate Hone].
        injection Hone as ->. cbn.
        rewrite (alone_unresolved U client rule msg bad Hbad). reflexivity.
    + apply Hpos. rewrite Ha. cbn. lia.
Qed.

Lemma failed_destination_is_isolated_witness :
  dest_list two_dest_rule = ["@gone"] ++ "@chanB" :: []
  /\ outbox (dispatch ascii_only (friendly_client ["@gone"]) two_dest_rule
               (text_message (txt "hi")) initial_state)
     = [ForwardMessages "@chanB" [text_message (txt "hi")]]
  /\ counter (dispatch ascii_only (friendly_client ["@gone"]) two_dest_rule
                (text_message (txt "hi")) initial_state) 5 = 1%nat.
Proof.
  split; [reflexivity |].
  apply (failed_destination_is_isolated ascii_only
           (friendly_client ["@gone"]) two_dest_rule (text_message (txt "hi"))
           initial_state ["@gone"] "@chanB" [] eq_refl) with (bad := "@gone");
    reflexivity.
Defined.

(** ** The album buffer *)

Section AlbumFacts.
Variable U : Unicode.
Variable client : Client.

Lemma process_rule_idle chat_id chat_username msg st rule :
  idle rule chat_id chat_username msg ->
  process_rule U client chat_id chat_username msg st rule = st.
Proof.
  unfold idle, process_rule.
  destruct (evaluate rule chat_id chat_username msg); tauto.
Qed.

Lemma fold_idle chat_id chat_username msg rules st :
  (forall r, In r rules -> idle r chat_id chat_username msg) ->
  fold_left (process_rule U client chat_id chat_username msg) rules st = st.
Proof.
  induction rules as [| r rules IH]; intros H; simpl.
  - reflexivity.
  - rewrite process_rule_idle by (apply H; left; reflexivity).
    apply IH. intros r' Hr'. apply H. right. exact Hr'.
Qed.

(** With one rule buffering the message and the others idle, the handler
    does exactly the album branch for that rule. *)
Lemma forward_handler_buffers pre rule post chat_id chat_username msg gid st :
  (forall r, In r (pre ++ post) -> idle r chat_id chat_username msg) ->
  evaluate rule chat_id chat_username msg = ToAlbum gid ->
  forward_handler U client (pre ++ rule :: post) chat_id chat_username msg st
  = album_add gid msg rule st.
Proof.
  intros Hidle Hev. unfold forward_handler.
  rewrite fold_left_app. simpl.
  rewrite (fold_idle _ _ _ pre)
    by (intros r Hr; apply Hidle, in_or_app; left; exact Hr).
  unfold process_rule at 2. rewrite Hev.
  apply fold_idle. intros r Hr. apply Hidle, in_or_app. right. exact Hr.
Qed.

Lemma album_add_first gid msg rule st :
  album_cache st !! gid = None ->
  buffering gid (collected rule [msg]) st (album_add gid msg rule st).
Proof.
  intros Hnone. unfold album_add. rewrite Hnone.
  repeat split.
Qed.

Lemma album_add_next gid msg rule rule' msgs st0 st :
  msgs <> [] ->
  buffering gid (collected rule msgs) st0 st ->
  buffering gid (collected rule (msgs ++ [msg])) st0
    (album_add gid msg rule' st).
Proof.
  intros Hne (Hc & Ht & Ho & Hf). unfold album_add.
  rewrite Hc, lookup_insert_eq.
  unfold buffering; simpl. rewrite Hc, insert_insert_eq.
  repeat split; try assumption.
  f_equal. unfold collected; simpl. f_equal.
  destruct msgs as [| m0 rest]; [congruence |].
  simpl. rewrite fold_left_app. reflexivity.
Qed.

Lemma run_buffers pre rule post chat_id chat_username gid st0 more msgs st :
  (forall r m, In r (pre ++ post) -> In m more ->
               idle r chat_id chat_username m) ->
  (forall m, In m more ->
             evaluate rule chat_id chat_username m = ToAlbum gid) ->
  msgs <> [] ->
  buffering gid (collected rule msgs) st0 st ->
  buffering gid (collected rule (msgs ++ more)) st0
    (run U client (pre ++ rule :: post)
       (map (NewMessage chat_id chat_username) more) st).
Proof.
  revert msgs st. induction more as [| m more IH]; intros msgs st Hidle Hev Hne Hb.
  - simpl. rewrite app_nil_r. exact Hb.
  - simpl. unfold run in IH.
    rewrite (forward_handler_buffers pre rule post _ _ m gid);
      [| intros r Hr; apply Hidle; [exact Hr | left; reflexivity]
       | apply Hev; left; reflexivity].
    replace (msgs ++ m :: more) with ((msgs ++ [m]) ++ more)
      by (rewrite <- app_assoc; reflexivity).
    apply IH.
    + intros r m' Hr Hm'. apply Hidle; [exact Hr | right; exact Hm'].
    + intros m' Hm'. apply Hev. right. exact Hm'.
    + destruct msgs; discriminate.
    + apply album_add_next; assumption.
Qed.

Lemma remove_first_last gid l :
  ~ In gid l -> remove_first gid (l ++ [gid]) = l.
Proof.
  induction l as [| g l IH]; intros Hnot; simpl.
  - rewrite Z.eqb_refl. reflexivity.
  - destruct (Z.eqb_spec g gid) as [-> | Hne].
    + exfalso. apply Hnot. left. reflexivity.
    + rewrite IH; [reflexivity |]. intros H. apply Hnot. right. exact H.
Qed.

Lemma existsb_eqb_in gid l : existsb (Z.eqb gid) l = true <-> In gid l.
Proof.
  rewrite existsb_exists. split.
  - intros (x & Hx & Heq). apply Z.eqb_eq in Heq. subst x. exact Hx.
  - intros H. exists gid. split; [exact H | apply Z.eqb_refl].
Qed.

Lemma flush_noop gid st :
  album_cache st !! gid = None -> send_album_group client gid st = st.
Proof. intros H. unfold send_album_group. rewrite H. reflexivity. Qed.

Lemma flush_gone gid st :
  album_cache (send_album_group client gid st) !! gid = None.
Proof.
  unfold send_album_group.
  destruct (album_cache st !! gid) as [album |] eqn:Hl; [| exact Hl].
  destruct (messages album); simpl; apply lookup_delete_eq.
Qed.

(** A second flush for the same group id finds no buffer. *)
Lemma flush_twice gid st :
  send_album_group client gid (send_album_group client gid st)
  = send_album_group client gid st.
Proof. apply flush_noop, flush_gone. Qed.

(** Every message in the buffer at flush time is in the single pass. *)
Lemma flush_sends_buffer gid album st :
  album_cache st !! gid = Some album ->
  messages album <> [] ->
  outbox (send_album_group client gid st)
  = outbox st ++ album_pass client album
  /\ album_cache (send_album_group client gid st) !! gid = None.
Proof.
  intros Hl Hne. unfold send_album_group. rewrite Hl.
  destruct (messages album); [congruence |].
  simpl. split; [reflexivity | apply lookup_delete_eq].
Qed.

Lemma album_pass_forwards album dest e :
  In dest (album_dest_list album) ->
  resolve_dest client dest = Some e ->
  String.eqb (forward_mode (album_rule album)) "copy" = false ->
  forward_messages_ok client e = true ->
  In (ForwardMessages e (messages album)) (album_pass client album).
Proof.
  intros Hin Hres Hmode Hok. unfold album_pass, run_pass.
  rewrite (for_each_isolated _ _ (uniform_album_to client album)
             (album_to_ok client album)).
  simpl. apply in_concat.
  exists (sent (run_pass (album_to client album dest))). split.
  - apply in_map_iff. exists dest. split; [reflexivity | exact Hin].
  - unfold run_pass, album_to, try_except. rewrite Hres, Hmode.
    unfold forward_messages, perform. rewrite Hok. simpl. left. reflexivity.
Qed.
End AlbumFacts.

Lemma evaluate_grouped rule chat_id chat_username msg gid :
  grouped msg = Some gid ->
  evaluate rule chat_id chat_username msg
  = if takes chat_id chat_username msg rule
    then ToAlbum gid
    else evaluate rule chat_id chat_username msg.
Proof.
  intros Hg. unfold takes, evaluate. rewrite Hg.
  repeat match goal with
         | |- context [if ?b then _ else _] =>
             lazymatch b with
             | context [if _ then _ else _] => fail
             | _ => destruct b
             end
         end; reflexivity.
Qed.

Lemma process_rule_grouped U client chat_id chat_username msg gid st rule :
  grouped msg = Some gid ->
  process_rule U client chat_id chat_username msg st rule
  = if takes chat_id chat_username msg rule
    then album_add gid msg rule st else st.
Proof.
  intros Hg. unfold process_rule.
  rewrite (evaluate_grouped rule chat_id chat_username msg gid Hg).
  unfold takes.
  destruct (evaluate rule chat_id chat_username msg) eqn:E; try reflexivity.
  exfalso. revert E. unfold evaluate. rewrite Hg.
  repeat match goal with
         | |- context [if ?b then _ else _] =>
             lazymatch b with
             | context [if _ then _ else _] => fail
             | _ => destruct b
             end
         end; discriminate.
Qed.

Lemma forward_handler_grouped U client rules chat_id chat_username msg gid :
  grouped msg = Some gid ->
  forall st,
    forward_handler U client rules chat_id chat_username msg st
    = fold_left (fun st '(m, r) => album_add gid m r st)
        (map (fun r => (msg, r))
           (List.filter (takes chat_id chat_username msg) rules)) st.
Proof.
  intros Hg. unfold forward_handler.
  induction rules as [| r rules IH]; intros st; [reflexivity |].
  cbn [fold_left List.filter].
  rewrite (process_rule_grouped U client _ _ msg gid st r Hg), IH.
  destruct (takes chat_id chat_username msg r); reflexivity.
Qed.

Lemma run_grouped U client rules chat_id chat_username gid msgs :
  (forall m, In m msgs -> grouped m = Some gid) ->
  forall st,
    run U client rules (map (NewMessage chat_id chat_username) msgs) st
    = fold_left (fun st '(m, r) => album_add gid m r st)
        (appends rules chat_id chat_username msgs) st.
Proof.
  unfold run, appends.
  induction msgs as [| m msgs IH]; intros Hg st; [reflexivity |].
  cbn [map fold_left flat_map]. rewrite fold_left_app.
  unfold step at 2.
  rewrite (forward_handler_grouped U client rules _ _ m gid
             (Hg m (or_introl eq_refl))).
  apply IH. intros m' Hm'. apply Hg. right. exact Hm'.
Qed.

Lemma appends_buffer gid rule rest : forall msgs st0 st,
  msgs <> [] ->
  buffering gid (collected rule msgs) st0 st ->
  buffering gid (collected rule (msgs ++ map fst rest)) st0
    (fold_left (fun st '(m, r) => album_add gid m r st) rest st).
Proof.
  induction rest as [| [m r] rest IH]; intros msgs st0 st Hne Hb.
  - cbn [map fold_left]. rewrite app_nil_r. exact Hb.
  - cbn [map fold_left fst].
    replace (msgs ++ m :: map fst rest) with ((msgs ++ [m]) ++ map fst rest)
      by (rewrite <- app_assoc; reflexivity).
    apply IH; [destruct msgs; discriminate |].
    apply (album_add_next gid m rule r msgs st0 st Hne Hb).
Qed.

(** A burst of members of one album under any list of rules: the appends
    that the handler makes all go to one buffer, created by the first of
    them, and schedule one flush, which hands all of them to one pass. *)
Lemma burst_flushed_once U client rules chat_id chat_username gid msgs st
    m0 r0 rest :
  (forall m, In m msgs -> grouped m = Some gid) ->
  appends rules chat_id chat_username msgs = (m0, r0) :: rest ->
  album_cache st !! gid = None ->
  ~ In gid (timers st) ->
  let album := collected r0 (m0 :: map fst rest) in
  let st1 := run U client rules (map (NewMessage chat_id chat_username) msgs)
               st in
  let st2 := step U client rules st1 (TimerFires gid) in
  album_cache st1 !! gid = Some album
  /\ (forall m r, In m msgs -> In r rules ->
                  takes chat_id chat_username m r = true ->
                  In m (messages album))
  /\ timers st1 = timers st ++ [gid]
  /\ outbox st1 = outbox st
  /\ outbox st2 = outbox st ++ album_pass client album
  /\ forward_count st2 = forward_count st
  /\ album_cache st2 !! gid = None
  /\ step U client rules st2 (TimerFires gid) = st2
  /\ send_album_group client gid st2 = st2
  /\ (forall st, send_album_group client gid
                   (send_album_group client gid st)
                 = send_album_group client gid st)
  /\ (forall st album,
        album_cache st !! gid = Some album -> messages album <> [] ->
        outbox (send_album_group client gid st)
        = outbox st ++ album_pass client album).
Proof.
  intros Hg Happ Hnone Htimer album st1 st2.
  assert (Hb : buffering gid album st st1).
  { subst st1 album. rewrite (run_grouped U client rules _ _ gid msgs Hg).
    rewrite Happ. cbn [fold_left].
    change (m0 :: map fst rest) with ([m0] ++ map fst rest).
    apply appends_buffer; [discriminate |].
    apply album_add_first. exact Hnone. }
  destruct Hb as (Hc & Ht & Ho & Hf).
  assert (Hl1 : album_cache st1 !! gid = Some album)
    by (rewrite Hc; apply lookup_insert_eq).
  assert (Hst2 : st2 = send_album_group client gid
                         (set_timers (timers st) st1)).
  { subst st2. unfold step. rewrite Ht.
    rewrite (proj2 (existsb_eqb_in gid (timers st ++ [gid])))
      by (apply in_or_app; right; left; reflexivity).
    rewrite remove_first_last by exact Htimer. reflexivity. }
  destruct (flush_sends_buffer client gid album
              (set_timers (timers st) st1) Hl1 ltac:(discriminate))
    as (Hout2 & Hgone2).
  rewrite <- Hst2 in Hout2, Hgone2.
  assert (Hflush : send_album_group client gid st2 = st2)
    by (apply flush_noop; exact Hgone2).
  assert (Htm2 : timers st2 = timers st).
  { rewrite Hst2. unfold send_album_group.
    change (album_cache (set_timers (timers st) st1)) with (album_cache st1).
    rewrite Hl1. reflexivity. }
  assert (Hfc2 : forward_count st2 = forward_count st).
  { rewrite Hst2. unfold send_album_group.
    change (album_cache (set_timers (timers st) st1)) with (album_cache st1).
    rewrite Hl1. simpl. exact Hf. }
  repeat split.
  - exact Hl1.
  - intros m r Hm Hr Htakes.
    change (messages album) with (map fst ((m0, r0) :: rest)).
    rewrite <- Happ. apply in_map_iff. exists (m, r). split; [reflexivity |].
    unfold appends. apply in_flat_map. exists m. split; [exact Hm |].
    apply in_map, filter_In. split; assumption.
  - exact Ht.
  - exact Ho.
  - rewrite Hout2. simpl. rewrite Ho. reflexivity.
  - exact Hfc2.
  - exact Hgone2.
  - unfold step. rewrite Htm2.
    destruct (existsb (Z.eqb gid) (timers st)) eqn:E; [| reflexivity].
    apply existsb_eqb_in in E. contradiction.
  - exact Hflush.
  - intros st'. apply flush_twice.
  - intros st' album' Hl Hm.
    apply (flush_sends_buffer client gid album' st' Hl Hm).
Qed.

Lemma evaluate_to_album rule chat_id chat_username msg gid :
  evaluate rule chat_id chat_username msg = ToAlbum gid ->
  grouped msg = Some gid
  /\ takes chat_id chat_username msg rule = true.
Proof.
  intros E. split; [| unfold takes; rewrite E; reflexivity].
  revert E. unfold evaluate.
  destruct (grouped msg) as [g |];
    repeat match goal with
           | |- context [if ?b then _ else _] =>
               lazymatch b with
               | context [if _ then _ else _] => fail
               | _ => destruct b
               end
           end; try discriminate.
  intros [= ->]. reflexivity.
Qed.

Lemma idle_not_taken rule chat_id chat_username msg :
  idle rule chat_id chat_username msg ->
  takes chat_id chat_username msg rule = false.
Proof.
  unfold idle, takes.
  destruct (evaluate rule chat_id chat_username msg); tauto.
Qed.

Lemma filter_none {A} (f : A -> bool) l :
  (forall x, In x l -> f x = false) -> List.filter f l = [].
Proof.
  induction l as [| x l IH]; intros H; [reflexivity |].
  cbn [List.filter]. rewrite (H x (or_introl eq_refl)).
  apply IH. intros y Hy. apply H. right. exact Hy.
Qed.

(** With the other rules idle, the appends are the members, once each. *)
Lemma appends_single pre rule post chat_id chat_username msgs :
  (forall m, In m msgs -> takes chat_id chat_username m rule = true) ->
  (forall r m, In r (pre ++ post) -> In m msgs ->
               idle r chat_id chat_username m) ->
  appends (pre ++ rule :: post) chat_id chat_username msgs
  = map (fun m => (m, rule)) msgs.
Proof.
  unfold appends. induction msgs as [| m msgs IH]; intros Ht Hidle;
    [reflexivity |].
  cbn [flat_map map]. rewrite IH.
  - rewrite List.filter_app. cbn [List.filter].
    rewrite (Ht m (or_introl eq_refl)).
    rewrite (filter_none _ pre), (filter_none _ post); [reflexivity | |];
      intros r Hr; apply idle_not_taken, Hidle;
      solve [ apply in_or_app; auto | left; reflexivity ].
  - intros m' Hm'. apply Ht. right. exact Hm'.
  - intros r m' Hr Hm'. apply Hidle; [exact Hr | right; exact Hm'].
Qed.

(** C4: a burst of members of one album that a rule of the account takes,
    arriving before the flush timer fires, whatever the other rules do.  All
    appends go to one buffer and schedule one flush; the flush hands the whole
    buffer, which holds every member of the burst (once for every rule that
    took it, so exactly the members when the other rules stay idle), to one
    dispatch pass and removes the buffer; any later flush for the same group
    id does nothing. *)
Theorem album_flushed_once U client pre rule post chat_id chat_username gid
    msgs st :
  msgs <> [] ->
  (forall m, In m msgs -> evaluate rule chat_id chat_username m = ToAlbum gid) ->
  album_cache st !! gid = None ->
  ~ In gid (timers st) ->
  let rules := pre ++ rule :: post in
  let st1 := run U client rules (map (NewMessage chat_id chat_username) msgs)
               st in
  let st2 := step U client rules st1 (TimerFires gid) in
  exists album,
    album_cache st1 !! gid = Some album
    /\ messages album = map fst (appends rules chat_id chat_username msgs)
    /\ Forall (fun m => In m (messages album)) msgs
    /\ In (album_rule album) rules
    /\ ((forall r m, In r (pre ++ post) -> In m msgs ->
                     idle r chat_id chat_username m) ->
        album = collected rule msgs)
    /\ timers st1 = timers st ++ [gid]
    /\ outbox st1 = outbox st
    /\ outbox st2 = outbox st ++ album_pass client album
    /\ forward_count st2 = forward_count st
    /\ album_cache st2 !! gid = None
    /\ step U client rules st2 (TimerFires gid) = st2
    /\ send_album_group client gid st2 = st2
    /\ (forall st, send_album_group client gid
                     (send_album_group client gid st)
                   = send_album_group client gid st)
    /\ (forall st album,
          album_cache st !! gid = Some album -> messages album <> [] ->
          outbox (send_album_group client gid st)
          = outbox st ++ album_pass client album).
Proof.
  intros Hne Hev Hnone Htimer rules st1 st2.
  assert (Hg : forall m, In m msgs -> grouped m = Some gid)
    by (intros m Hm; exact (proj1 (evaluate_to_album _ _ _ _ _ (Hev m Hm)))).
  assert (Htake : forall m, In m msgs ->
                            takes chat_id chat_username m rule = true)
    by (intros m Hm; exact (proj2 (evaluate_to_album _ _ _ _ _ (Hev m Hm)))).
  assert (Hrule : In rule rules)
    by (apply in_or_app; right; left; reflexivity).
  destruct msgs as [| m0 more]; [congruence |].
  destruct (appends rules chat_id chat_username (m0 :: more))
    as [| [m r0] rest] eqn:Happ.
  { exfalso. unfold appends in Happ. cbn [flat_map] in Happ.
    apply app_eq_nil in Happ. destruct Happ as (Happ & _).
    apply map_eq_nil in Happ.
    assert (Hin : In rule (List.filter (takes chat_id chat_username m0) rules))
      by (apply filter_In; split; [exact Hrule | apply Htake; left; reflexivity]).
    rewrite Happ in Hin. exact Hin. }
  assert (Hfirst : In (m, r0) (appends rules chat_id chat_username (m0 :: more)))
    by (rewrite Happ; left; reflexivity).
  unfold appends in Hfirst. apply in_flat_map in Hfirst.
  destruct Hfirst as (m' & _ & Hfirst). apply in_map_iff in Hfirst.
  destruct Hfirst as (r' & [= _ ->] & Hr0). apply filter_In in Hr0.
  destruct (burst_flushed_once U client rules chat_id chat_username gid
              (m0 :: more) st m r0 rest Hg Happ Hnone Htimer)
    as (H1 & H2 & H3 & H4 & H5 & H6 & H7 & H8 & H9 & H10 & H11).
  exists (collected r0 (m :: map fst rest)).
  split; [exact H1 |]. split; [reflexivity |].
  split.
  { apply Forall_forall. intros x Hx. apply list_elem_of_In in Hx.
    exact (H2 x rule Hx Hrule (Htake x Hx)). }
  split; [exact (proj1 Hr0) |].
  split.
  { intros Hidle.
    pose proof (appends_single pre rule post chat_id chat_username
                  (m0 :: more) Htake Hidle) as Hs.
    fold rules in Hs. rewrite Happ in Hs.
    cbn [map] in Hs. injection Hs as -> -> ->.
    f_equal. rewrite map_map. cbn [fst]. rewrite map_id. reflexivity. }
  repeat split; assumption.
Qed.

Lemma album_flushed_once_witness :
  outbox (step ascii_only (friendly_client [])
            [simple_rule 4 "forward" []; other_rule]
            (run ascii_only (friendly_client [])
               [simple_rule 4 "forward" []; other_rule]
               (map (NewMessage 10 (Some "chanA")) three_photos)
               initial_state)
            (TimerFires 77))
  = [ForwardMessages "@chanB"
       [album_photo 1 77 []; album_photo 1 77 [];
        album_photo 2 77 []; album_photo 2 77 [];
        album_photo 3 77 (txt "trip"); album_photo 3 77 (txt "trip")]].
Proof.
  pose proof (album_flushed_once ascii_only (friendly_client []) []
                (simple_rule 4 "forward" []) [other_rule] 10 (Some "chanA")
                77 three_photos initial_state) as H.
  destruct H as (album & Hl & _ & _ & _ & _ & _ & _ & Hout & _).
  - discriminate.
  - intros m [<- | [<- | [<- | []]]]; vm_compute; reflexivity.
  - reflexivity.
  - intros [].
  - vm_compute in Hl. injection Hl as <-.
    etransitivity; [exact Hout | vm_compute; reflexivity].
Defined.

(** ** Where the album path departs from the single-message path *)

Lemma album_add_keeps_counters gid msg rule st :
  forward_count (album_add gid msg rule st) = forward_count st.
Proof.
  unfold album_add. destruct (album_cache st !! gid); reflexivity.
Qed.

Lemma flush_keeps_counters client gid st :
  forward_count (send_album_group client gid st) = forward_count st.
Proof.
  unfold send_album_group.
  destruct (album_cache st !! gid) as [album |]; [| reflexivity].
  destruct (messages album); reflexivity.
Qed.

(** C1: the flush of an album never touches the forward counter, also when
    the album was delivered: two photos of one album are forwarded to the
    resolved destination and the rule's counter is still 0, where the claim
    asks for exactly one increment. *)
Theorem album_delivery_not_counted :
  (forall client gid st,
     forward_count (send_album_group client gid st) = forward_count st)
  /\ let st := run ascii_only (friendly_client [])
                 [simple_rule 3 "forward" []]
                 [NewMessage 10 (Some "chanA") (album_photo 1 77 []);
                  NewMessage 10 (Some "chanA") (album_photo 2 77 []);
                  TimerFires 77] initial_state in
     outbox st = [ForwardMessages "@chanB"
                    [album_photo 1 77 []; album_photo 2 77 []]]
     /\ counter st 3 = 0%nat.
Proof.
  split; [exact flush_keeps_counters |].
  vm_compute. split; reflexivity.
Qed.

(** C2: the handler never reads the rule's [modify] settings, so block words
    change nothing: a message that contains an enabled block word is
    forwarded and counted, where the claim asks for it to be skipped. *)
Theorem block_words_not_enforced :
  (forall U client rule md chat_id chat_username msg st,
     evaluate (set_modify md rule) chat_id chat_username msg
     = evaluate rule chat_id chat_username msg
     /\ dispatch U client (set_modify md rule) msg st
        = dispatch U client rule msg st)
  /\ let blocking := {| block_words_enabled := true;
                        block_words := [txt "spam"];
                        whitelist_enabled := false;
                        whitelist_words := [] |} in
     let msg := text_message (txt "cheap spam here") in
     let st := forward_handler ascii_only (friendly_client [])
                 [set_modify blocking (simple_rule 2 "forward" [])]
                 10 (Some "chanA") msg initial_state in
     outbox st = [ForwardMessages "@chanB" [msg]]
     /\ counter st 2 = 1%nat.
Proof.
  split.
  - intros. split; reflexivity.
  - vm_compute. split; reflexivity.
Qed.

Lemma album_add_stores_raw_caption gid msg rule st :
  album_cache st !! gid = None ->
  caption_text <$> (album_cache (album_add gid msg rule st) !! gid)
  = Some (original_text_of msg).
Proof.
  intros Hnone. unfold album_add. rewrite Hnone. simpl.
  rewrite lookup_insert_eq. reflexivity.
Qed.

(** C3: the album path stores the caption as it arrived and hands it to the
    upload unchanged: with [clean_hashtag] on, a one-photo album captioned
    "#sale today" is re-uploaded with that caption, while the cleaning
    pipeline of the single-message path turns the same caption into
    "today". *)
Theorem album_caption_not_cleaned :
  let rule := simple_rule 6 "copy" ["clean_hashtag"] in
  let st := run ascii_only (friendly_client []) [rule]
              [NewMessage 10 (Some "chanA")
                 (album_photo 1 77 (txt "#sale today"));
               TimerFires 77] initial_state in
  outbox st = [SendFile "@chanB" [1] (Some (txt "#sale today")) AsAlbum;
               RemoveFile 1]
  /\ clean_caption ascii_only (filters rule) (txt "#sale today")
     = txt "today".
Proof. vm_compute. split; reflexivity. Qed.

(** ** The kind filter *)

Lemma kind_filter_never_proceeds rule chat_id chat_username msg ty :
  msg_type msg = Some ty ->
  flag (filters rule) ty = true ->
  evaluate rule chat_id chat_username msg <> Proceed.
Proof.
  intros Hty Hflag. unfold evaluate. rewrite Hty, Hflag.
  repeat match goal with
         | |- context [if ?b then _ else _] => destruct b
         | |- context [match ?o with Some _ => _ | None => _ end] =>
             destruct o
         end; discriminate.
Qed.

(** With the flag of its kind on, a message outside any album is skipped,
    and no message moves the counter. *)
Lemma kind_filter_skips_single U client rule chat_id chat_username msg ty st :
  msg_type msg = Some ty ->
  flag (filters rule) ty = true ->
  (grouped msg = None ->
   process_rule U client chat_id chat_username msg st rule = st)
  /\ forward_count (process_rule U client chat_id chat_username msg st rule)
     = forward_count st.
Proof.
  intros Hty Hflag.
  pose proof (kind_filter_never_proceeds rule chat_id chat_username msg ty
                Hty Hflag) as Hnp.
  unfold process_rule. split.
  - intros Hg.
    destruct (evaluate rule chat_id chat_username msg) as [| | gid |] eqn:Hev;
      try reflexivity; [| congruence].
    exfalso. revert Hev. unfold evaluate. rewrite Hg.
    repeat match goal with
           | |- context [if ?b then _ else _] => destruct b
           end; discriminate.
  - destruct (evaluate rule chat_id chat_username msg); try reflexivity.
    + apply album_add_keeps_counters.
    + congruence.
Qed.

(** C7: a photo that belongs to an album passes the [photo] flag: the album
    branch is taken before the kind filter is looked at, and the flush
    forwards the photo, where the claim asks for the message to be skipped.
    The counter does not move. *)
Theorem kind_filter_bypassed_by_album :
  let rule := simple_rule 8 "forward" ["photo"] in
  let msg := album_photo 1 77 [] in
  let st := run ascii_only (friendly_client []) [rule]
              [NewMessage 10 (Some "chanA") msg; TimerFires 77]
              initial_state in
  msg_type msg = Some "photo"
  /\ flag (filters rule) "photo" = true
  /\ outbox st = [ForwardMessages "@chanB" [msg]]
  /\ counter st 8 = 0%nat.
Proof.
  vm_compute. repeat split; reflexivity.
Qed.

(** ** The matcher against the words of a pattern *)

Lemma last_of_app prev w1 w2 :
  last_of prev (w1 ++ w2) = last_of (last_of prev w1) w2.
Proof. unfold last_of. apply fold_left_app. Qed.

Lemma rep_match_sound p k x s :
  forall lo hi prev,
    rep_match p lo hi prev s k = Some x ->
    exists w s', s = w ++ s' /\ lang (Rep p lo hi) w
                 /\ k (last_of prev w) s' = Some x.
Proof.
  induction s as [| c s IH]; intros lo hi prev H; simpl in H.
  - destruct lo; [| discriminate].
    exists [], []. repeat split; auto. destruct hi; simpl; lia.
  - assert (Hstop : match lo with O => k prev (c :: s) | S _ => None end
                    = Some x ->
                    exists w s', c :: s = w ++ s' /\ lang (Rep p lo hi) w
                                 /\ k (last_of prev w) s' = Some x).
    { destruct lo; [| discriminate]. intros Hk.
      exists [], (c :: s). repeat split; auto. destruct hi; simpl; lia. }
    destruct (p c) eqn:Hpc; [| exact (Hstop H)].
    destruct (can_take hi) eqn:Hct; [| exact (Hstop H)].
    simpl in H.
    destruct (rep_match p (Nat.pred lo) (option_map Nat.pred hi) (Some c) s k)
      as [y |] eqn:Hrec; [| exact (Hstop H)].
    injection H as ->.
    destruct (IH _ _ _ Hrec) as (w & s' & -> & (Hall & Hlo & Hhi) & Hk).
    exists (c :: w), s'. repeat split; auto.
    + simpl. lia.
    + destruct hi as [[| h] |]; simpl in *; try discriminate; lia.
Qed.

Lemma rmatch_sound r :
  forall prev s k x,
    rmatch r prev s k = Some x ->
    exists w s', s = w ++ s' /\ lang r w /\ k (last_of prev w) s' = Some x.
Proof.
  induction r as [| p | p lo hi | r1 IH1 r2 IH2 | r1 IH1 r2 IH2 | |];
    intros prev s k x H; simpl in H.
  - exists [], s. repeat split; assumption.
  - destruct s as [| c s]; [discriminate |].
    destruct (p c) eqn:Hpc; [| discriminate].
    exists [c], s. repeat split; [exists c; auto | exact H].
  - apply rep_match_sound. exact H.
  - destruct (IH1 _ _ _ _ H) as (w1 & s1 & -> & Hl1 & Hk1).
    destruct (IH2 _ _ _ _ Hk1) as (w2 & s2 & -> & Hl2 & Hk2).
    exists (w1 ++ w2), s2. rewrite last_of_app, <- app_assoc.
    split; [reflexivity |]. split; [| exact Hk2].
    exists w1, w2. auto.
  - destruct (rmatch r1 prev s k) as [y |] eqn:H1.
    + injection H as ->.
      destruct (IH1 _ _ _ _ H1) as (w & s' & -> & Hl & Hk).
      exists w, s'. simpl. auto.
    + destruct (IH2 _ _ _ _ H) as (w & s' & -> & Hl & Hk).
      exists w, s'. simpl. auto.
  - destruct (at_bol prev); [| discriminate].
    exists [], s. repeat split; assumption.
  - destruct (at_eol s); [| discriminate].
    exists [], s. repeat split; assumption.
Qed.

Lemma rep_match_complete p k w s' :
  forall lo hi prev,
    lang (Rep p lo hi) w ->
    k (last_of prev w) s' <> None ->
    rep_match p lo hi prev (w ++ s') k <> None.
Proof.
  induction w as [| c w IH]; intros lo hi prev (Hall & Hlo & Hhi) Hk.
  - simpl in *. assert (lo = 0%nat) as -> by lia.
    destruct s' as [| c s]; simpl; [exact Hk |].
    destruct (p c && can_take hi); [| exact Hk].
    destruct (rep_match p 0 (option_map Nat.pred hi) (Some c) s k);
      [discriminate | exact Hk].
  - inversion Hall as [| ? ? Hpc Hall']; subst. simpl.
    rewrite Hpc.
    assert (Hct : can_take hi = true)
      by (destruct hi as [[| h] |]; simpl in *; auto; lia).
    rewrite Hct. simpl.
    assert (Hrec : rep_match p (Nat.pred lo) (option_map Nat.pred hi)
                     (Some c) (w ++ s') k <> None).
    { apply IH; [| exact Hk]. repeat split; auto.
      - simpl in Hlo. lia.
      - destruct hi as [[| h] |]; simpl in *; auto; lia. }
    destruct (rep_match p (Nat.pred lo) (option_map Nat.pred hi) (Some c)
                (w ++ s') k); [discriminate | congruence].
Qed.

Lemma rmatch_complete r :
  anchor_free r ->
  forall w prev s' k,
    lang r w ->
    k (last_of prev w) s' <> None ->
    rmatch r prev (w ++ s') k <> None.
Proof.
  induction r as [| p | p lo hi | r1 IH1 r2 IH2 | r1 IH1 r2 IH2 | |];
    intros Haf w prev s' k Hl Hk; simpl in *.
  - subst w. exact Hk.
  - destruct Hl as (c & -> & Hpc). simpl. rewrite Hpc. exact Hk.
  - apply rep_match_complete; assumption.
  - destruct Haf as (Haf1 & Haf2).
    destruct Hl as (w1 & w2 & -> & Hl1 & Hl2).
    rewrite <- app_assoc. apply IH1; auto.
    apply IH2; auto. rewrite <- last_of_app. exact Hk.
  - destruct Haf as (Haf1 & Haf2).
    destruct Hl as [Hl | Hl].
    + pose proof (IH1 Haf1 _ prev s' k Hl Hk) as H1.
      destruct (rmatch r1 prev (w ++ s') k); [discriminate | congruence].
    + destruct (rmatch r1 prev (w ++ s') k); [discriminate |].
      apply IH2; auto.
  - contradiction.
  - contradiction.
Qed.

(** A match is found exactly where a word of the pattern starts. *)
Lemma match_len_hit r prev s n : match_len r prev s = Some n -> hit r s.
Proof.
  unfold match_len. destruct (rmatch r prev s accept) as [x |] eqn:H;
    [| discriminate].
  intros _. destruct (rmatch_sound r _ _ _ _ H) as (w & s' & -> & Hl & _).
  exists w, s'. auto.
Qed.

Lemma hit_match_len r prev s :
  anchor_free r -> hit r s -> match_len r prev s <> None.
Proof.
  intros Haf (w & s' & -> & Hl). unfold match_len.
  pose proof (rmatch_complete r Haf w prev s' accept Hl) as H.
  destruct (rmatch r prev (w ++ s') accept); [discriminate |].
  exfalso. apply H; [discriminate | reflexivity].
Qed.

Lemma hit_app r a y : hit r a -> hit r (a ++ y).
Proof.
  intros (w & s' & -> & Hl). exists w, (s' ++ y).
  rewrite app_assoc. auto.
Qed.

(** ** Greedy runs end where the class ends *)

Lemma rep_accept_total p s : forall prev hi,
  rep_match p 0 hi prev s accept <> None.
Proof.
  induction s as [| c s IH]; intros prev hi; simpl.
  - discriminate.
  - destruct (p c && can_take hi); [| discriminate].
    destruct (rep_match p 0 (option_map Nat.pred hi) (Some c) s accept);
      discriminate.
Qed.

Lemma rep_greedy_accept p s : forall lo prev x,
  rep_match p lo None prev s accept = Some x ->
  stops p x /\ (length x <= length s)%nat
  /\ (lo <= length s - length x)%nat.
Proof.
  induction s as [| c s IH]; intros lo prev x H; simpl in H.
  - destruct lo; [| discriminate]. injection H as <-. simpl. auto.
  - destruct (p c) eqn:Hpc; simpl in H.
    + destruct (rep_match p (Nat.pred lo) None (Some c) s accept)
        as [y |] eqn:Hrec.
      * injection H as ->. destruct (IH _ _ _ Hrec) as (Hs & Hle & Hlo).
        repeat split; auto; simpl; lia.
      * destruct lo; [| discriminate].
        exfalso. exact (rep_accept_total p s (Some c) None Hrec).
    + destruct lo; [| discriminate]. injection H as <-.
      simpl. repeat split; auto. lia.
Qed.

Lemma stops_ext p q x : (forall c, p c = q c) -> stops p x -> stops q x.
Proof. intros E. destruct x; simpl; auto. rewrite E. auto. Qed.

(** The match the scanner takes for a pattern that ends in a run of [q] is
    not empty and is followed by a character outside [q], if any. *)
Lemma tail_closed q r :
  tail_run q r ->
  forall prev s x,
    rmatch r prev s accept = Some x ->
    stops q x /\ (length x < length s)%nat /\ exists w, s = w ++ x.
Proof.
  induction r as [| p | p lo hi | r1 IH1 r2 IH2 | r1 IH1 r2 IH2 | |];
    intros Ht prev s x H; simpl in Ht; try contradiction.
  - destruct lo as [| lo]; [contradiction |].
    destruct hi; [contradiction |]. simpl in H.
    destruct (rep_greedy_accept _ _ _ _ _ H) as (Hs & Hle & Hlo).
    destruct (rep_match_sound _ _ _ _ _ _ _ H) as (w & s' & -> & _ & Hk).
    injection Hk as ->.
    split; [exact (stops_ext _ _ _ Ht Hs) |]. split; [lia |].
    exists w. reflexivity.
  - simpl in H.
    destruct (rmatch_sound r1 _ _ _ _ H) as (w1 & s1 & -> & _ & Hk).
    destruct (IH2 Ht _ _ _ Hk) as (Hs & Hlt & w2 & ->).
    split; [exact Hs |]. split.
    + rewrite !length_app in *. lia.
    + exists (w1 ++ w2). rewrite app_assoc. reflexivity.
Qed.

Lemma tail_run_nonempty q r w : tail_run q r -> lang r w -> w <> [].
Proof.
  revert w. induction r as [| p | p lo hi | r1 IH1 r2 IH2 | r1 IH1 r2 IH2 | |];
    intros w Ht Hl; simpl in *; try contradiction.
  - destruct lo; [contradiction |]. destruct Hl as (_ & Hlo & _).
    destruct w; simpl in *; [lia | discriminate].
  - destruct Hl as (w1 & w2 & -> & _ & Hl2).
    specialize (IH2 _ Ht Hl2). destruct w1, w2; simpl; congruence.
Qed.

Lemma chars_in_lang q r w :
  chars_in q r -> lang r w -> Forall (fun c => q c = true) w.
Proof.
  revert w. induction r as [| p | p lo hi | r1 IH1 r2 IH2 | r1 IH1 r2 IH2 | |];
    intros w Hc Hl; simpl in *; subst; auto.
  - destruct Hl as (c & -> & Hpc). auto.
  - destruct Hl as (Hall & _). eapply Forall_impl; [exact Hall | auto].
  - destruct Hc as (Hc1 & Hc2). destruct Hl as (w1 & w2 & -> & Hl1 & Hl2).
    apply Forall_app. auto.
  - destruct Hc as (Hc1 & Hc2). destruct Hl as [Hl | Hl]; auto.
Qed.

(** ** Removing the matches of a pattern *)

(** A text without matches is left as it is. *)
Lemma scan_fixed r repl t : forall prev,
  clean r t -> sub_scan r repl 0 prev t = t.
Proof.
  induction t as [| c t IH]; intros prev Hc; simpl.
  - destruct (match_len r prev []) eqn:E; [| reflexivity].
    exfalso. apply (Hc [] []); [reflexivity |].
    exact (match_len_hit _ _ _ _ E).
  - destruct (match_len r prev (c :: t)) eqn:E.
    + exfalso. apply (Hc [] (c :: t)); [reflexivity |].
      exact (match_len_hit _ _ _ _ E).
    + f_equal. apply IH. intros a u -> Hu.
      exact (Hc (c :: a) u eq_refl Hu).
Qed.

Section Scan.
Variable q : N -> bool.
Variable rk : regex.
Hypothesis rk_anchor_free : anchor_free rk.
Hypothesis rk_tail : tail_run q rk.

(** The match taken at the head of [c :: s]. *)
Lemma scan_match prev c s n :
  match_len rk prev (c :: s) = Some n ->
  exists m w x, n = S m /\ s = w ++ x /\ length w = m /\ stops q x.
Proof.
  unfold match_len.
  destruct (rmatch rk prev (c :: s) accept) as [x |] eqn:H; [| discriminate].
  intros [= <-].
  destruct (tail_closed q rk rk_tail _ _ _ H) as (Hs & Hlt & w & Hw).
  destruct w as [| c' w]; simpl in Hw.
  - subst x. simpl in Hlt. lia.
  - injection Hw as <- ->.
    exists (length w), w, x. simpl. rewrite length_app.
    repeat split; auto. lia.
Qed.

Lemma scan_nil n prev : sub_scan rk [] n prev [] = [].
Proof. simpl. destruct n, (match_len rk prev []); reflexivity. Qed.

(** After a match has been dropped, what the scan emits next is outside
    the class [q]. *)
Lemma skip_stops s : forall n prev skipped x,
  s = skipped ++ x -> length skipped = n -> stops q x ->
  stops q (sub_scan rk [] n prev s).
Proof.
  induction s as [| c s IH]; intros n prev skipped x Hs Hn Hx.
  - rewrite scan_nil. exact I.
  - destruct n as [| n]; simpl.
    + destruct skipped; [| discriminate]. simpl in Hs. subst x.
      destruct (match_len rk prev (c :: s)) as [[| m] |] eqn:E;
        simpl; try exact Hx.
      destruct (scan_match _ _ _ _ E) as (m' & w & x & [= <-] & -> & Hl & Hq).
      exact (IH _ _ w x eq_refl Hl Hq).
    + destruct skipped as [| c' sk]; [discriminate |].
      injection Hs as <- ->. injection Hn as Hn.
      exact (IH _ _ sk x eq_refl Hn Hx).
Qed.

(** Up to the first match the scan copies the text; after it the output
    continues outside [q]. *)
Lemma scan_prefix s : forall prev,
  exists p u o,
    s = p ++ u /\ sub_scan rk [] 0 prev s = p ++ o
    /\ ((u = [] /\ o = []) \/ (hit rk u /\ stops q o)).
Proof.
  induction s as [| c s IH]; intros prev.
  - exists [], [], []. rewrite scan_nil. auto.
  - simpl. destruct (match_len rk prev (c :: s)) as [[| m] |] eqn:E.
    + destruct (scan_match _ _ _ _ E) as (? & ? & ? & [=] & _).
    + exists [], (c :: s), (sub_scan rk [] m (Some c) s).
      repeat split. right. split; [exact (match_len_hit _ _ _ _ E) |].
      destruct (scan_match _ _ _ _ E) as (m' & w & x & [= <-] & -> & Hl & Hq).
      exact (skip_stops _ _ _ w x eq_refl Hl Hq).
    + destruct (IH (Some c)) as (p & u & o & -> & -> & H).
      exists (c :: p), u, o. auto.
Qed.

Variable rj : regex.
Hypothesis rj_nonempty : forall w, lang rj w -> w <> [].
Hypothesis seam : junction q rk rj.

Lemma clean_nil : clean rj [].
Proof.
  intros a u E (w & s' & -> & Hl).
  destruct a; [| discriminate]. destruct w; [| discriminate].
  exact (rj_nonempty [] Hl eq_refl).
Qed.

Lemma scan_clean s : forall n prev,
  kept_free rk rj s -> clean rj (sub_scan rk [] n prev s).
Proof.
  induction s as [| c s IH]; intros n prev Hk.
  - rewrite scan_nil. exact clean_nil.
  - assert (Hk' : kept_free rk rj s).
    { intros a c' s' -> H. exact (Hk (c :: a) c' s' eq_refl H). }
    destruct n as [| n]; simpl; [| exact (IH _ _ Hk')].
    destruct (match_len rk prev (c :: s)) as [[| m] |] eqn:E.
    + destruct (scan_match _ _ _ _ E) as (? & ? & ? & [=] & _).
    + exact (IH _ _ Hk').
    + pose proof (IH 0%nat (Some c) Hk') as Hclean.
      assert (Hnot : ~ hit rj (c :: s)).
      { apply (Hk [] c s eq_refl). intros Hh.
        exact (hit_match_len rk prev _ rk_anchor_free Hh E). }
      intros a u Eau Hu. destruct a as [| c' a].
      * simpl in Eau. subst u.
        destruct (scan_prefix s (Some c)) as (p & u & o & Hs & Ho & Hcase).
        rewrite Ho in Hu, Hclean.
        destruct Hcase as [(-> & ->) | (Hrk & Hstop)].
        -- rewrite app_nil_r in Hs, Hu. subst p. exact (Hnot Hu).
        -- destruct o as [| d o].
           ++ rewrite app_nil_r in Hu. apply Hnot. rewrite Hs.
              exact (hit_app rj (c :: p) u Hu).
           ++ simpl in Hstop.
              destruct (seam (c :: p) d o ltac:(discriminate) Hstop Hu)
                as [H | [H | H]].
              ** apply Hnot. rewrite Hs. exact (hit_app rj (c :: p) u H).
              ** exact (Hclean p (d :: o) eq_refl H).
              ** apply Hnot. rewrite Hs. exact (H u Hrk).
      * injection Eau as <- Eau. exact (Hclean a u Eau Hu).
Qed.
End Scan.

(** Removing the matches of [rk] leaves no match of [rj] behind, provided
    none starts where [rk] fails to match. *)
Lemma re_sub_clean q rk rj s :
  anchor_free rk -> tail_run q rk ->
  (forall w, lang rj w -> w <> []) ->
  junction q rk rj ->
  kept_free rk rj s ->
  clean rj (re_sub rk [] s).
Proof.
  intros Haf Ht Hne Hj Hk. unfold re_sub.
  exact (scan_clean q rk Haf Ht rj Hne Hj s 0%nat None Hk).
Qed.

Lemma re_sub_fixed r repl t : clean r t -> re_sub r repl t = t.
Proof. apply scan_fixed. Qed.

(** A pattern whose matches cannot be completed across a seam is removed
    once and for all. *)
Lemma re_sub_idempotent q r s :
  anchor_free r -> tail_run q r -> junction q r r ->
  re_sub r [] (re_sub r [] s) = re_sub r [] s.
Proof.
  intros Haf Ht Hj. apply re_sub_fixed.
  apply (re_sub_clean q r r s Haf Ht); auto.
  - intros w Hl. exact (tail_run_nonempty q r w Ht Hl).
  - intros a c s' _ H. exact H.
Qed.

Lemma re_sub_keeps_clean q rk rj s :
  anchor_free rk -> tail_run q rk ->
  (forall w, lang rj w -> w <> []) ->
  junction q rk rj ->
  clean rj s -> clean rj (re_sub rk [] s).
Proof.
  intros Haf Ht Hne Hj Hc. apply (re_sub_clean q rk rj s Haf Ht Hne Hj).
  intros a c s' -> _. exact (Hc a (c :: s') eq_refl).
Qed.

(** Patterns whose words stay inside [q] after their first character. *)
Lemma body_in_junction q rk rj : body_in q rj -> junction q rk rj.
Proof.
  intros Hb a c x Ha Hq (w & s' & E & Hl). left.
  destruct (Hb w Hl) as (c0 & w' & -> & Hall).
  destruct a as [| a0 a]; [congruence |].
  simpl in E. injection E as -> E.
  apply app_eq_app in E. destruct E as (l & [(-> & E) | (-> & E)]).
  - exists (c0 :: w'), l. split; [reflexivity | exact Hl].
  - destruct l as [| d l].
    + rewrite app_nil_r in Hl. exists (c0 :: a), []. rewrite app_nil_r.
      split; [reflexivity | exact Hl].
    + simpl in E. injection E as <- _.
      apply Forall_app in Hall. destruct Hall as (_ & Hd).
      inversion Hd; subst. congruence.
Qed.

Lemma body_in_chars q q' r : chars_in q r -> tail_run q' r -> body_in q r.
Proof.
  intros Hc Ht w Hl.
  pose proof (chars_in_lang q r w Hc Hl) as Hall.
  pose proof (tail_run_nonempty q' r w Ht Hl) as Hne.
  destruct w as [| c w]; [congruence |].
  exists c, w. split; [reflexivity |]. inversion Hall; auto.
Qed.

Lemma body_in_marked q m r : chars_in q r -> body_in q (Cat (Cls m) r).
Proof.
  intros Hc w (w1 & w2 & -> & (c & -> & _) & Hl2).
  exists c, w2. split; [reflexivity |]. exact (chars_in_lang q r w2 Hc Hl2).
Qed.

(** ** The cleaning stages *)

Section Stages.
Variable U : Unicode.

Ltac class_facts :=
  unfold link_like, link_re1, link_re2, link_re3, link_re4, link_re5, lit,
    opt, plus, chr;
  cbn [lit_chars list_ascii_of_string chars_in tail_run anchor_free];
  repeat split;
  first [ exact I
        | intros c; reflexivity
        | intros c H; first [ exact H
                            | apply N.eqb_eq in H; subst c; reflexivity ] ].

(** *** Hashtags and mentions *)

Lemma marked_idempotent m t :
  let r := Cat (Cls m) (plus (is_word U)) in
  re_sub r [] (re_sub r [] t) = re_sub r [] t.
Proof.
  intros r. apply (re_sub_idempotent (is_word U)).
  - simpl. auto.
  - simpl. reflexivity.
  - apply body_in_junction, body_in_marked. simpl. auto.
Qed.

Lemma strip_hashtags_idempotent t :
  strip_hashtags U (strip_hashtags U t) = strip_hashtags U t.
Proof. apply marked_idempotent. Qed.

Lemma strip_mentions_idempotent t :
  strip_mentions U (strip_mentions U t) = strip_mentions U t.
Proof. apply marked_idempotent. Qed.

(** *** Emoji *)

Lemma strip_emoji_idempotent t :
  strip_emoji (strip_emoji t) = strip_emoji t.
Proof.
  apply (re_sub_idempotent is_emoji).
  - exact I.
  - simpl. reflexivity.
  - apply body_in_junction, (body_in_chars _ is_emoji); simpl; auto.
Qed.

(** *** Links *)

Lemma link_like_re1 : link_like U (link_re1 U).
Proof. class_facts. Qed.
Lemma link_like_re2 : link_like U (link_re2 U).
Proof. class_facts. Qed.
Lemma link_like_re3 : link_like U (link_re3 U).
Proof. class_facts. Qed.
Lemma link_like_re4 : link_like U (link_re4 U).
Proof. class_facts. Qed.
Lemma link_like_re5 : link_like U (link_re5 U).
Proof. class_facts. Qed.

Lemma link_sub_clean r t : link_like U r -> clean r (re_sub r [] t).
Proof.
  intros (Haf & Ht & Hc).
  apply (re_sub_clean (non_space U) r r t Haf Ht).
  - intros w Hl. exact (tail_run_nonempty _ r w Ht Hl).
  - apply body_in_junction, (body_in_chars _ (non_space U)); assumption.
  - intros a c s' _ H. exact H.
Qed.

Lemma link_sub_keeps rk rj t :
  link_like U rk -> link_like U rj -> clean rj t -> clean rj (re_sub rk [] t).
Proof.
  intros (Haf & Ht & _) (_ & Htj & Hcj).
  apply (re_sub_keeps_clean (non_space U) rk rj t Haf Ht).
  - intros w Hl. exact (tail_run_nonempty _ rj w Htj Hl).
  - apply body_in_junction, (body_in_chars _ (non_space U)); assumption.
Qed.

Lemma strip_links_idempotent t :
  strip_links U (strip_links U t) = strip_links U t.
Proof.
  pose proof link_like_re1 as L1. pose proof link_like_re2 as L2.
  pose proof link_like_re3 as L3. pose proof link_like_re4 as L4.
  pose proof link_like_re5 as L5.
  unfold strip_links at 1. cbv zeta.
  set (t5 := strip_links U t).
  assert (C1 : clean (link_re1 U) t5).
  { unfold t5, strip_links. cbv zeta.
    do 4 (apply link_sub_keeps; [assumption | assumption |]).
    apply link_sub_clean. assumption. }
  assert (C2 : clean (link_re2 U) t5).
  { unfold t5, strip_links. cbv zeta.
    do 3 (apply link_sub_keeps; [assumption | assumption |]).
    apply link_sub_clean. assumption. }
  assert (C3 : clean (link_re3 U) t5).
  { unfold t5, strip_links. cbv zeta.
    do 2 (apply link_sub_keeps; [assumption | assumption |]).
    apply link_sub_clean. assumption. }
  assert (C4 : clean (link_re4 U) t5).
  { unfold t5, strip_links. cbv zeta.
    do 1 (apply link_sub_keeps; [assumption | assumption |]).
    apply link_sub_clean. assumption. }
  assert (C5 : clean (link_re5 U) t5).
  { unfold t5, strip_links. cbv zeta.
    apply link_sub_clean. assumption. }
  rewrite (re_sub_fixed _ _ _ C1), (re_sub_fixed _ _ _ C2),
    (re_sub_fixed _ _ _ C3), (re_sub_fixed _ _ _ C4).
  exact (re_sub_fixed _ _ _ C5).
Qed.
End Stages.

(** *** E-mail addresses *)

Section Email.
Variable U : Unicode.

Local Abbreviation at_sign := 64%N.
Local Abbreviation dot := 46%N.
Local Abbreviation all P l := (Forall (fun c : N => P c = true) l).

Ltac same_text :=
  repeat (progress (rewrite <- ?app_assoc; cbn [app])); reflexivity.

Lemma run_lang p l :
  lang (plus p) l <-> l <> [] /\ all p l.
Proof.
  unfold plus. cbn [lang within]. split.
  - intros (Hall & Hlen & _). split; [| exact Hall].
    destruct l; simpl in Hlen; [lia | discriminate].
  - intros (Hne & Hall). repeat split; [exact Hall |].
    destruct l; simpl; [congruence | lia].
Qed.

Lemma chr_lang a w n :
  N_of_ascii a = n -> lang (chr a) w <-> w = [n].
Proof.
  intros <-. unfold chr. cbn [lang]. split.
  - intros (c & -> & Hc). apply N.eqb_eq in Hc. subst c. reflexivity.
  - intros ->. exists (N_of_ascii a). split; [reflexivity | apply N.eqb_refl].
Qed.

Lemma email_words w :
  lang (email_re U) w <-> exists l d t, address U w l d t.
Proof.
  unfold email_re. split.
  - intros (l & w2 & -> & Hl & w3 & w4 & -> & Hc
            & d & w6 & -> & Hd & w7 & t & -> & Hc' & Ht).
    apply (chr_lang "@" _ at_sign eq_refl) in Hc.
    apply (chr_lang "." _ dot eq_refl) in Hc'. subst w3 w7.
    apply run_lang in Hl, Hd, Ht.
    exists l, d, t. split; [reflexivity | auto].
  - intros (l & d & t & -> & Hl & Hd & Ht).
    apply run_lang in Hl, Hd, Ht.
    exists l, (at_sign :: d ++ dot :: t).
    split; [reflexivity |]. split; [exact Hl |].
    exists [at_sign], (d ++ dot :: t).
    split; [reflexivity |].
    split; [apply (chr_lang "@" _ at_sign eq_refl); reflexivity |].
    exists d, (dot :: t).
    split; [reflexivity |]. split; [exact Hd |].
    exists [dot], t.
    split; [reflexivity |].
    split; [apply (chr_lang "." _ dot eq_refl); reflexivity | exact Ht].
Qed.

Lemma domain_is_tld c : email_domain U c = true -> email_tld U c = true.
Proof.
  unfold email_domain, email_tld, one_of.
  cbn [list_ascii_of_string existsb]. intros H.
  destruct (is_word U c); [reflexivity |].
  cbn [orb] in *. rewrite H. apply orb_true_r.
Qed.

Lemma address_tail w l d t :
  address U w l d t -> all (email_tld U) (d ++ dot :: t).
Proof.
  intros (_ & _ & (_ & Hd) & (_ & Ht)).
  apply Forall_app. split.
  - eapply Forall_impl; [exact Hd | exact domain_is_tld].
  - constructor; [reflexivity | exact Ht].
Qed.

Lemma address_word l d t :
  (l <> [] /\ all (email_local U) l) ->
  (d <> [] /\ all (email_domain U) d) ->
  (t <> [] /\ all (email_tld U) t) ->
  lang (email_re U) (l ++ at_sign :: d ++ dot :: t).
Proof.
  intros Hl Hd Ht. apply email_words. exists l, d, t.
  split; [reflexivity | auto].
Qed.

(** A local part can be put in front of any address. *)
Lemma email_extend l u :
  l <> [] -> all (email_local U) l ->
  hit (email_re U) u -> hit (email_re U) (l ++ u).
Proof.
  intros Hne Hl (wu & su & -> & Hu).
  apply email_words in Hu.
  destruct Hu as (lu & du & tu & -> & (_ & Hlu) & Hdu & Htu).
  exists ((l ++ lu) ++ at_sign :: du ++ dot :: tu), su. split.
  - same_text.
  - apply address_word; auto. split.
    + destruct l; [congruence | discriminate].
    + apply Forall_app. auto.
Qed.

Lemma email_junction : junction (email_tld U) (email_re U) (email_re U).
Proof.
  intros a c x Ha Hc (w & s' & E & Hw).
  pose proof Hw as Hword.
  apply email_words in Hw. destruct Hw as (l & d & t & Hw).
  pose proof (address_tail _ _ _ _ Hw) as Htail.
  destruct Hw as (-> & (Hlne & Hl) & Hd & Ht).
  assert (E' : l ++ (at_sign :: (d ++ dot :: t) ++ s') = a ++ c :: x)
    by (rewrite E, <- (app_assoc l); reflexivity).
  apply app_eq_app in E'.
  destruct E' as (z & [(El & Ex) | (Ea & Ex)]).
  - (* the seam lies inside the local part, or right after it *)
    destruct z as [| z0 z].
    + right. right. intros u Hu.
      rewrite app_nil_r in El. subst a.
      exact (email_extend l u Hlne Hl Hu).
    + right. left. cbn [app] in Ex. injection Ex as -> ->.
      subst l. apply Forall_app in Hl. destruct Hl as (_ & Hz).
      exists ((z0 :: z) ++ at_sign :: d ++ dot :: t), s'. split.
      * same_text.
      * apply address_word;
          [split; [discriminate | exact Hz] | exact Hd | exact Ht].
  - (* the seam lies after the local part *)
    destruct z as [| z0 z].
    + right. right. intros u Hu.
      rewrite app_nil_r in Ea. subst a.
      exact (email_extend l u Hlne Hl Hu).
    + cbn [app] in Ex. injection Ex as <- Ex.
      apply app_eq_app in Ex.
      destruct Ex as (y & [(Ey & Es) | (Ez & Es)]).
      * destruct y as [| y0 y].
        -- left. rewrite app_nil_r in Ey. subst a z.
           exists (l ++ at_sign :: d ++ dot :: t), [].
           rewrite app_nil_r. split; [reflexivity | exact Hword].
        -- exfalso. cbn [app] in Es. injection Es as -> _.
           rewrite Ey in Htail. apply Forall_app in Htail.
           destruct Htail as (_ & Hy). inversion Hy; subst. congruence.
      * left. subst a z.
        exists (l ++ at_sign :: d ++ dot :: t), y. split.
        -- same_text.
        -- exact Hword.
Qed.

Lemma strip_emails_idempotent t :
  strip_emails U (strip_emails U t) = strip_emails U t.
Proof.
  apply (re_sub_idempotent (email_tld U)).
  - unfold email_re, chr, plus. cbn [anchor_free]. tauto.
  - unfold email_re, chr, plus. cbn [tail_run]. reflexivity.
  - exact email_junction.
Qed.
End Email.

(** C8, as stated, fails for the phone stage: removing the phone-like
    sequence [+5-5-5-5-5] from "1234+5-5-5-5-5-6" leaves "1234-6", which the
    same stage removes entirely. *)
Lemma phone_stage_not_idempotent :
  strip_phones ascii_only (txt "1234+5-5-5-5-5-6") = txt "1234-6"
  /\ strip_phones ascii_only (txt "1234-6") = []
  /\ ~ (forall U t, strip_phones U (strip_phones U t) = strip_phones U t).
Proof.
  split; [vm_compute; reflexivity |]. split; [vm_compute; reflexivity |].
  intros H. specialize (H ascii_only (txt "1234+5-5-5-5-5-6")).
  vm_compute in H. discriminate H.
Qed.

(** C8, amended: the hashtag, mention, link, emoji and e-mail stages are
    idempotent on every text (the phone stage is not). *)
Theorem cleaning_stages_idempotent U t :
  strip_hashtags U (strip_hashtags U t) = strip_hashtags U t
  /\ strip_mentions U (strip_mentions U t) = strip_mentions U t
  /\ strip_links U (strip_links U t) = strip_links U t
  /\ strip_emoji (strip_emoji t) = strip_emoji t
  /\ strip_emails U (strip_emails U t) = strip_emails U t.
Proof.
  split; [apply strip_hashtags_idempotent |].
  split; [apply strip_mentions_idempotent |].
  split; [apply strip_links_idempotent |].
  split; [apply strip_emoji_idempotent |].
  apply strip_emails_idempotent.
Qed.

(** ** Source matching and the [-100] prefix *)

Section Decimal.
Import Decimal.
Local Abbreviation su := NilEmpty.string_of_uint.

Lemma py_str_pos r : py_str (Z.pos r) = su (Pos.to_uint r).
Proof.
  unfold py_str. simpl.
  pose proof (DecimalPos.Unsigned.to_uint_nonnil r) as H.
  destruct (Pos.to_uint r); [congruence | reflexivity ..].
Qed.

Lemma py_str_neg r : py_str (Z.neg r) = String "-" (su (Pos.to_uint r)).
Proof.
  unfold py_str. simpl.
  pose proof (DecimalPos.Unsigned.to_uint_nonnil r) as H.
  destruct (Pos.to_uint r); [congruence | reflexivity ..].
Qed.

Lemma int_lstrip_plain s : plain s = true -> int_lstrip s = s.
Proof.
  destruct s as [| a s]; [reflexivity |]. cbn [plain int_lstrip].
  destruct (int_space a); [discriminate | reflexivity].
Qed.

Lemma int_rstrip_plain s : plain s = true -> int_rstrip s = s.
Proof.
  induction s as [| a s IH]; [reflexivity |]. cbn [plain int_rstrip].
  destruct (int_space a); [discriminate |].
  destruct (Ascii.eqb a "_"); [discriminate |]. cbn [negb andb].
  intros H. rewrite (IH H). destruct s; reflexivity.
Qed.

Lemma ungroup_plain s : forall b, plain s = true -> ungroup b s = Some s.
Proof.
  induction s as [| a s IH]; intros b; [reflexivity |].
  cbn [plain ungroup].
  destruct (int_space a); [discriminate |].
  destruct (Ascii.eqb a "_"); [discriminate |]. cbn [negb andb].
  intros H. rewrite (IH _ H). reflexivity.
Qed.

(** On a plain string [int] has nothing to strip or to regroup. *)
Lemma py_int_plain s : plain s = true -> py_int s = parse_numeral s.
Proof.
  intros H. unfold py_int.
  rewrite (int_lstrip_plain s H), (int_rstrip_plain s H),
    (ungroup_plain s false H).
  reflexivity.
Qed.

Lemma plain_digits d : plain (su d) = true.
Proof. induction d; [reflexivity | exact IHd ..]. Qed.

Lemma py_int_digits d :
  d <> Nil -> py_int (su d) = Some (Z.of_uint d).
Proof.
  intros Hd. rewrite (py_int_plain _ (plain_digits d)).
  assert (E : parse_numeral (su d)
              = option_map Z.of_int (NilZero.int_of_string (su d)))
    by (destruct d; [congruence | reflexivity ..]).
  rewrite E.
  assert (E2 : NilZero.int_of_string (su d) = Some (Pos d)).
  { pose proof (NilZero.isi (Pos d)) as H. simpl in H.
    replace (NilZero.string_of_uint d) with (su d) in H
      by (destruct d; [congruence | reflexivity ..]).
    apply H; congruence. }
  rewrite E2. reflexivity.
Qed.

Lemma py_int_pos r : py_int (su (Pos.to_uint r)) = Some (Z.pos r).
Proof.
  rewrite py_int_digits by apply DecimalPos.Unsigned.to_uint_nonnil.
  unfold Z.of_uint. rewrite DecimalPos.Unsigned.of_to. reflexivity.
Qed.

Lemma py_int_neg r :
  py_int (String "-" (su (Pos.to_uint r))) = Some (Z.neg r).
Proof.
  pose proof (DecimalPos.Unsigned.to_uint_nonnil r) as Hu.
  rewrite (py_int_plain (String "-" (su (Pos.to_uint r)))
             (plain_digits (Pos.to_uint r))).
  assert (E : parse_numeral (String "-" (su (Pos.to_uint r)))
              = option_map Z.of_int
                  (option_map Neg
                     (NilEmpty.uint_of_string (su (Pos.to_uint r)))))
    by (destruct (Pos.to_uint r); [congruence | reflexivity ..]).
  rewrite E, NilEmpty.usu. simpl. unfold Z.of_uint.
  rewrite DecimalPos.Unsigned.of_to. reflexivity.
Qed.

Lemma with_prefix_eq r :
  with_prefix r = Z.of_int (Neg (D1 (D0 (D0 (Pos.to_uint r))))).
Proof.
  unfold with_prefix. rewrite py_str_pos.
  rewrite (py_int_plain (String.append "-100" (su (Pos.to_uint r)))
             (plain_digits (Pos.to_uint r))).
  simpl.
  change (String.append "" (su (Pos.to_uint r))) with (su (Pos.to_uint r)).
  rewrite NilEmpty.usu. reflexivity.
Qed.

Lemma py_str_with_prefix r :
  py_str (with_prefix r)
  = String.append "-100" (su (Pos.to_uint r)).
Proof.
  unfold py_str. rewrite with_prefix_eq, DecimalZ.to_of. reflexivity.
Qed.

Lemma not_prefixed_digits d : startswith "-100" (su d) = false.
Proof. destruct d; reflexivity. Qed.

(** A bare negative id whose digits start with [100] keeps a numeral
    after the first four characters, unless the id is 100 itself. *)
Lemma rest_after_100 r :
  r <> 100%positive ->
  startswith "-100" (String "-" (su (Pos.to_uint r))) = true ->
  exists v, py_int (slice_from 4 (String "-" (su (Pos.to_uint r)))) = Some v.
Proof.
  intros Hr.
  assert (Hu : Pos.to_uint r <> D1 (D0 (D0 Nil))).
  { intros E. apply Hr. apply DecimalPos.Unsigned.to_uint_inj.
    rewrite E. reflexivity. }
  destruct (Pos.to_uint r) as [| u1 | u1 | u1 | u1 | u1 | u1 | u1 | u1 | u1 | u1];
    try discriminate.
  destruct u1 as [| u2 | u2 | u2 | u2 | u2 | u2 | u2 | u2 | u2 | u2];
    try discriminate.
  destruct u2 as [| u3 | u3 | u3 | u3 | u3 | u3 | u3 | u3 | u3 | u3];
    try discriminate.
  intros _. change (slice_from 4 (String "-" (su (D1 (D0 (D0 u3))))))
    with (su u3).
  exists (Z.of_uint u3). apply py_int_digits. congruence.
Qed.

Lemma py_int_with_prefix r :
  py_int (String.append "-100" (su (Pos.to_uint r)))
  = Some (with_prefix r).
Proof.
  rewrite with_prefix_eq.
  rewrite (py_int_plain (String.append "-100" (su (Pos.to_uint r)))
             (plain_digits (Pos.to_uint r))).
  simpl.
  change (String.append "" (su (Pos.to_uint r))) with (su (Pos.to_uint r)).
  rewrite NilEmpty.usu. reflexivity.
Qed.

Lemma not_username_digits d : startswith "@" (su d) = false.
Proof. destruct d; reflexivity. Qed.

Lemma prefixed_starts x : startswith "-100" (String.append "-100" x) = true.
Proof. destruct x; reflexivity. Qed.

Lemma prefixed_rest x : slice_from 4 (String.append "-100" x) = x.
Proof. reflexivity. Qed.

(** The first test of the numeric branch. *)
Lemma numeric_match_abs c s v :
  py_int s = Some v -> Z.abs c = Z.abs v -> numeric_match c s = Some true.
Proof.
  intros Hs Habs. unfold numeric_match. rewrite Hs. cbn [bind_opt].
  rewrite Habs, Z.eqb_refl, orb_true_r. reflexivity.
Qed.

Ltac first_test :=
  match goal with
  | |- context [if ?b then Some true else _] => destruct b; [reflexivity |]
  end.

(** Except for the id 100, every way of writing an id as the chat id
    matches every way of writing it as the source. *)
Lemma prefix_forms_match r name c s :
  r <> 100%positive ->
  In c (forms r) -> In s (map py_str (forms r)) ->
  check_source_match c name s = true.
Proof.
  intros Hr Hc Hs.
  assert (Hnum : numeric_match c s = Some true).
  { pose proof (not_prefixed_digits (Pos.to_uint r)) as P3.
    pose proof (py_int_pos r) as I1. pose proof (py_int_neg r) as I2.
    pose proof (py_int_with_prefix r) as I3.
    destruct Hs as [<- | [<- | [<- | []]]];
      destruct Hc as [<- | [<- | [<- | []]]];
      rewrite ?py_str_pos, ?py_str_neg, ?py_str_with_prefix;
      try (eapply numeric_match_abs; [eassumption | reflexivity]).
    - (* prefixed chat id, bare positive source *)
      unfold numeric_match. rewrite I1. cbn [bind_opt]. first_test.
      rewrite ?py_str_pos, ?py_str_with_prefix, P3. cbn [bind_opt].
      rewrite ?prefixed_starts, ?prefixed_rest.
      rewrite I1. cbn [bind_opt Z.abs]. rewrite Z.eqb_refl. reflexivity.
    - (* prefixed chat id, bare negative source *)
      unfold numeric_match. rewrite I2. cbn [bind_opt]. first_test.
      rewrite ?py_str_neg, ?py_str_with_prefix.
      rewrite ?prefixed_starts, ?prefixed_rest.
      rewrite I1. cbn [bind_opt Z.abs]. rewrite Z.eqb_refl.
      destruct (startswith "-100" (String "-" (su (Pos.to_uint r)))) eqn:B.
      + destruct (rest_after_100 r Hr B) as (v & ->). cbn [bind_opt].
        destruct (_ || _); reflexivity.
      + reflexivity.
    - (* positive chat id, prefixed source *)
      unfold numeric_match. rewrite I3. cbn [bind_opt]. first_test.
      rewrite ?py_str_pos, ?py_str_with_prefix, P3.
      rewrite ?prefixed_starts, ?prefixed_rest.
      rewrite I1. cbn [bind_opt Z.abs orb].
      rewrite Z.eqb_refl. reflexivity.
    - (* bare negative chat id, prefixed source *)
      unfold numeric_match. rewrite I3. cbn [bind_opt]. first_test.
      rewrite ?py_str_neg, ?py_str_with_prefix.
      rewrite ?prefixed_starts, ?prefixed_rest.
      rewrite I1. cbn [bind_opt].
      destruct (startswith "-100" (String "-" (su (Pos.to_uint r)))) eqn:B.
      + destruct (rest_after_100 r Hr B) as (v & ->). cbn [bind_opt Z.abs].
        rewrite Z.eqb_refl, orb_true_r. reflexivity.
      + cbn [bind_opt Z.abs orb]. rewrite Z.eqb_refl. reflexivity. }
  unfold check_source_match. rewrite Hnum.
  assert (Hat : startswith "@" s = false).
  { destruct Hs as [<- | [<- | [<- | []]]];
      rewrite ?py_str_pos, ?py_str_neg, ?py_str_with_prefix;
      [apply not_username_digits | reflexivity | reflexivity]. }
  rewrite Hat. reflexivity.
Qed.
End Decimal.

(** C6: the match is not symmetric under the [-100] prefix for the id 100.
    The channel form [-100100] as source matches the chat id [100] but not
    the chat id [-100], and the chat id [-100100] matches the source "100"
    but not the source "-100": [str(-100)[4:]] is empty, [int] raises, and
    the handler takes the [ValueError] for a mismatch. *)
Theorem prefix_symmetry_breaks_at_100 :
  In (-100) (forms 100) /\ In (-100100) (forms 100)
  /\ check_source_match 100 None "-100100" = true
  /\ check_source_match (-100) None "-100100" = false
  /\ check_source_match (-100100) None "100" = true
  /\ check_source_match (-100100) None "-100" = false.
Proof. vm_compute. tauto. Qed.

(** * Further properties of the engine *)

(** ** Photo filters *)

(** X1: a photo without caption is skipped under [photo_only], and a photo
    with caption under [photo_with_text]: the handler leaves the state as it
    is, also when the photo belongs to an album, because both checks come
    before the album branch. *)
Theorem photo_caption_filters U client rule chat_id chat_username msg st :
  msg_photo msg = true ->
  (flag (filters rule) "photo_only" = true /\ has_text msg = false)
  \/ (flag (filters rule) "photo_with_text" = true /\ has_text msg = true) ->
  process_rule U client chat_id chat_username msg st rule = st.
Proof.
  intros Hphoto Hcase. unfold process_rule, evaluate. rewrite Hphoto.
  destruct (negb (existsb _ (source_list rule))); [reflexivity |].
  destruct Hcase as [(-> & ->) | (Hw & Ht)].
  - reflexivity.
  - rewrite Hw, Ht. cbn [andb negb].
    destruct (flag (filters rule) "photo_only"); reflexivity.
Qed.

Lemma photo_caption_filters_witness :
  process_rule ascii_only (friendly_client []) 10 (Some "chanA")
    (album_photo 1 77 []) initial_state
    (simple_rule 1 "forward" ["photo_only"])
  = initial_state.
Proof.
  apply photo_caption_filters; [reflexivity |].
  left. split; vm_compute; reflexivity.
Defined.

(** ** Forward mode *)

Lemma alone_forward_mode U client rule msg d :
  String.eqb (forward_mode rule) "copy" = false ->
  alone U client rule msg d
  = match resolve_dest client d with
    | Some e =>
        if forward_messages_ok client e
        then {| sent := [ForwardMessages e [msg]]; success_count := 1 |}
        else new_pass
    | None => new_pass
    end.
Proof.
  intros Hmode. unfold alone, run_pass, deliver, try_except.
  destruct (resolve_dest client d) as [e |]; [| reflexivity].
  rewrite Hmode. unfold forward_messages, seq, bind, perform.
  destruct (forward_messages_ok client e); reflexivity.
Qed.

Lemma forward_mode_passes U client rule msg dests :
  String.eqb (forward_mode rule) "copy" = false ->
  concat (map (fun d => sent (alone U client rule msg d)) dests)
  = forwarded client msg dests
  /\ list_sum (map (fun d => success_count (alone U client rule msg d)) dests)
     = length (forwarded client msg dests).
Proof.
  intros Hmode. unfold forwarded.
  induction dests as [| d dests (IH1 & IH2)]; [split; reflexivity |].
  cbn [map concat list_sum fold_right omap list_omap].
  rewrite (alone_forward_mode U client rule msg d Hmode).
  fold (list_sum (map (fun d => success_count (alone U client rule msg d))
                    dests)).
  rewrite IH1, IH2.
  destruct (resolve_dest client d) as [e |]; [| split; reflexivity].
  destruct (forward_messages_ok client e); split; reflexivity.
Qed.

(** X2: in forward mode the pass sends the original message object, and
    nothing else, to every destination that resolves and accepts it; the
    cleaning flags of the rule have no effect, and the counter moves by one
    exactly when at least one forward went through. *)
Theorem forward_mode_relays_original U client rule msg st :
  String.eqb (forward_mode rule) "copy" = false ->
  let st' := dispatch U client rule msg st in
  outbox st' = outbox st ++ forwarded client msg (dest_list rule)
  /\ counter st' (rule_id rule)
     = (counter st (rule_id rule)
        + match forwarded client msg (dest_list rule) with
          | [] => 0
          | _ :: _ => 1
          end)%nat.
Proof.
  intros Hmode st'.
  destruct (dispatch_outcome U client rule msg st) as (Hout & Hcnt & _).
  destruct (forward_mode_passes U client rule msg (dest_list rule) Hmode)
    as (H1 & H2).
  fold st' in Hout, Hcnt. rewrite H1 in Hout. rewrite H2 in Hcnt.
  split; [exact Hout |]. rewrite Hcnt.
  destruct (forwarded client msg (dest_list rule)); reflexivity.
Qed.

Lemma forward_mode_relays_original_witness :
  outbox (dispatch ascii_only (friendly_client ["@gone"])
            {| rule_id := 5; source_list := ["@src"];
               dest_list := ["@gone"; "@chanB"];
               forward_mode := "forward";
               filters := flags_on ["clean_caption"; "clean_link"];
               modify := no_modify |}
            (text_message (txt "see http://x.com #now")) initial_state)
  = [ForwardMessages "@chanB" [text_message (txt "see http://x.com #now")]].
Proof.
  apply (forward_mode_relays_original ascii_only (friendly_client ["@gone"])).
  reflexivity.
Defined.

(** ** Copy mode: what is sent and what is dropped *)

Lemma clean_caption_of_nothing U filters :
  clean_caption U filters [] = [].
Proof.
  unfold clean_caption. cbn [truthy]. rewrite !andb_false_r.
  destruct (flag filters "clean_mention"), (flag filters "clean_link"),
    (flag filters "clean_emoji"), (flag filters "clean_phone"),
    (flag filters "clean_email"); reflexivity.
Qed.

(** X3: with the [clean_caption] flag on, the cleaned caption is empty for
    every text, whatever the other cleaner flags are. *)
Theorem remove_caption_flag_empties U filters t :
  flag filters "clean_caption" = true ->
  clean_caption U filters t = [].
Proof.
  intros Hflag. destruct t as [| c t]; [apply clean_caption_of_nothing |].
  transitivity (clean_caption U filters []);
    [| apply clean_caption_of_nothing].
  unfold clean_caption. rewrite Hflag. cbn [truthy andb].
  rewrite !andb_false_r. reflexivity.
Qed.

Lemma remove_caption_flag_empties_witness :
  clean_caption ascii_only (flags_on ["clean_caption"; "clean_emoji"])
    (txt "sale today #deal")
  = [].
Proof.
  apply remove_caption_flag_empties. vm_compute. reflexivity.
Defined.

Lemma record_nothing st : record_sent [] st = st.
Proof.
  destruct st. unfold record_sent. cbn. rewrite app_nil_r. reflexivity.
Qed.

Lemma dispatch_nothing U client rule msg st :
  (forall d, alone U client rule msg d = new_pass) ->
  dispatch U client rule msg st = st.
Proof.
  intros Hnone. unfold dispatch, run_pass.
  rewrite (for_each_isolated _ (dest_list rule)
             (fun d => uniform_deliver client msg _ _ _ _ d)
             (fun d p => deliver_ok client msg _ _ _ _ d p)).
  cbn [fst sent success_count new_pass app Nat.add].
  assert (Hboth :
            concat (map (fun d => sent (alone U client rule msg d))
                      (dest_list rule)) = []
            /\ list_sum (map (fun d => success_count
                                         (alone U client rule msg d))
                           (dest_list rule)) = 0%nat).
  { induction (dest_list rule) as [| d l (IH1 & IH2)];
      [split; reflexivity |].
    cbn [map concat list_sum fold_right]. rewrite Hnone.
    split; [exact IH1 | exact IH2]. }
  destruct Hboth as (Hs & Hn).
  unfold alone in Hs, Hn. rewrite Hs, Hn.
  cbn [Nat.ltb Nat.leb]. apply record_nothing.
Qed.

(** X4: in copy mode a message without media whose cleaned caption is empty
    is dropped without a trace: nothing is sent to any destination and the
    rule's counter does not move. *)
Theorem copy_emptied_text_is_dropped U client rule msg st :
  String.eqb (forward_mode rule) "copy" = true ->
  msg_media msg = false ->
  clean_caption U (filters rule) (original_text_of msg) = [] ->
  dispatch U client rule msg st = st.
Proof.
  intros Hmode Hmedia Hclean. apply dispatch_nothing. intros d.
  unfold alone, run_pass, deliver, try_except.
  destruct (resolve_dest client d) as [e |]; [| reflexivity].
  rewrite Hmode, Hclean. unfold copy_message. rewrite Hmedia.
  reflexivity.
Qed.

Lemma copy_emptied_text_is_dropped_witness :
  dispatch ascii_only (friendly_client [])
    (simple_rule 3 "copy" ["clean_hashtag"]) (text_message (txt "#news"))
    initial_state
  = initial_state.
Proof.
  apply copy_emptied_text_is_dropped; vm_compute; reflexivity.
Defined.

(** X5: in copy mode a round video note, and a sticker, are uploaded
    without caption even when the cleaned caption is not empty: the text
    that came with them is lost. *)
Theorem captionless_kinds_lose_text client msg original caption rlp e f p :
  msg_media msg = true ->
  msg_photo msg = false ->
  download_media client msg = Downloaded f ->
  send_file_ok client e = true ->
  (msg_video_note msg = true ->
   copy_message client msg original caption rlp e p
   = ({| sent := sent p ++ [SendFile e [f] None AsVideoNote; RemoveFile f];
         success_count := S (success_count p) |}, Ok tt))
  /\ (msg_video_note msg = false -> msg_voice msg = false ->
      msg_video msg = false -> msg_gif msg = false ->
      msg_sticker msg = true ->
      copy_message client msg original caption rlp e p
      = ({| sent := sent p ++ [SendFile e [f] None AsSticker; RemoveFile f];
            success_count := S (success_count p) |}, Ok tt)).
Proof.
  intros Hmedia Hphoto Hfile Hok.
  split.
  - intros Hnote. unfold copy_message.
    rewrite Hmedia, Hphoto, Hnote, Hfile. cbn [negb]. rewrite !andb_false_r.
    unfold try_finally, seq, bind, send_file, perform, succeed, emit.
    rewrite Hok. cbn [sent success_count].
    rewrite <- (app_assoc (sent p)). reflexivity.
  - intros Hnote Hvoice Hvideo Hgif Hsticker. unfold copy_message.
    rewrite Hmedia, Hphoto, Hnote, Hvoice, Hvideo, Hgif, Hsticker, Hfile.
    cbn [negb]. rewrite !andb_false_r. cbn [andb].
    unfold try_finally, seq, bind, send_file, perform, succeed, emit.
    rewrite Hok. cbn [sent success_count].
    rewrite <- (app_assoc (sent p)). reflexivity.
Qed.

Lemma captionless_kinds_lose_text_witness :
  copy_message (friendly_client []) sticker_message (txt "hello")
    (txt "hello") false "@chanB" new_pass
  = ({| sent := [SendFile "@chanB" [9] None AsSticker; RemoveFile 9];
        success_count := 1 |}, Ok tt).
Proof.
  apply (captionless_kinds_lose_text (friendly_client []) sticker_message
           (txt "hello") (txt "hello") false "@chanB" 9 new_pass);
    reflexivity.
Defined.

(** X6: once a media file has been downloaded in copy mode, removing it is
    the last thing the copy does, exactly once, for every kind of media and
    whether the upload succeeds or raises. *)
Theorem temp_file_always_removed client msg original caption rlp e f p :
  msg_media msg = true ->
  is_only_web_preview msg = false ->
  download_media client msg = Downloaded f ->
  exists l,
    sent (fst (copy_message client msg original caption rlp e p))
    = sent p ++ l ++ [RemoveFile f]
    /\ ~ In (RemoveFile f) l.
Proof.
  intros Hmedia Hweb Hfile. unfold is_only_web_preview in Hweb.
  unfold copy_message. rewrite Hmedia, Hweb, Hfile.
  unfold try_finally, seq, bind, send_file, perform, succeed, emit, raise,
    ret.
  destruct (send_file_ok client e);
    destruct (msg_photo msg), (msg_video_note msg), (msg_voice msg),
      (msg_video msg), (msg_gif msg), (msg_sticker msg), (msg_audio msg),
      (msg_document msg), (truthy original);
    cbn [fst sent success_count];
    first
      [ exists []; split; [reflexivity | intros []]
      | eexists [_]; split;
        [rewrite <- (app_assoc (sent p)); reflexivity
        | intros [Heq | []]; discriminate Heq] ].
Qed.

Lemma temp_file_always_removed_witness :
  exists l,
    sent (fst (copy_message (friendly_client []) (voice_note (txt "hi"))
                 (txt "hi") (txt "hi") false "@chanB" new_pass))
    = sent new_pass ++ l ++ [RemoveFile 7]
    /\ ~ In (RemoveFile 7) l.
Proof.
  apply (temp_file_always_removed (friendly_client []) (voice_note (txt "hi"))
           (txt "hi") (txt "hi") false "@chanB" 7 new_pass);
    reflexivity.
Defined.

(** ** Albums in copy mode *)

Lemma emit_removals files p :
  fold_left (fun p f => emit (RemoveFile f) p) files p
  = {| sent := sent p ++ map RemoveFile files;
       success_count := success_count p |}.
Proof.
  revert p. induction files as [| f files IH]; intros p.
  - destruct p. cbn. rewrite app_nil_r. reflexivity.
  - cbn [fold_left map]. rewrite IH. unfold emit.
    cbn [sent success_count]. rewrite <- app_assoc. reflexivity.
Qed.

Lemma download_all_stops client before msg rest files :
  download_all client before = Some files ->
  download_media client msg = DownloadError ->
  download_all client (before ++ msg :: rest) = None.
Proof.
  revert files. induction before as [| m before IH]; intros files Hb Hm.
  - cbn [app download_all]. rewrite Hm. reflexivity.
  - cbn [app download_all] in *.
    destruct (download_media client m); [| | discriminate].
    + destruct (download_all client before) as [fs |]; [| discriminate].
      rewrite (IH fs eq_refl Hm). reflexivity.
    + exact (IH files Hb Hm).
Qed.

(** X7: an album copied to a resolved destination.  When no download
    raises, the files that were downloaded are uploaded as one group with the
    buffered caption, and every one of them is removed afterwards whether or
    not the upload went through; members whose download returned nothing are
    left out silently.  When the download of a member raises, nothing is
    uploaded for this destination and the files of the members downloaded
    before it are not removed: the download loop runs outside the
    [try]/[finally] that cleans up. *)
Theorem album_copy_uploads_and_cleans client album dest e :
  resolve_dest client dest = Some e ->
  String.eqb (forward_mode (album_rule album)) "copy" = true ->
  (forall files,
     download_all client (messages album) = Some files ->
     files <> [] ->
     sent (run_pass (album_to client album dest))
     = (if send_file_ok client e
        then [SendFile e files
                (if truthy (caption_text album)
                 then Some (caption_text album) else None) AsAlbum]
        else [])
       ++ map RemoveFile files)
  /\ (forall before msg rest files,
        messages album = before ++ msg :: rest ->
        download_all client before = Some files ->
        download_media client msg = DownloadError ->
        sent (run_pass (album_to client album dest)) = []).
Proof.
  intros Hres Hmode. split.
  - intros files Hall Hne. unfold album_to, run_pass, try_except.
    rewrite Hres, Hmode, Hall.
    destruct files as [| f fs]; [contradiction |].
    unfold try_finally, send_file, perform.
    destruct (send_file_ok client e);
      cbn [fst]; rewrite emit_removals; reflexivity.
  - intros before msg rest files Hsplit Hbefore Hraise.
    unfold album_to, run_pass, try_except.
    rewrite Hres, Hmode, Hsplit,
      (download_all_stops client before msg rest files Hbefore Hraise).
    reflexivity.
Qed.

Lemma album_copy_uploads_and_cleans_witness :
  sent (run_pass (album_to (friendly_client [])
                    (collected (simple_rule 1 "copy" []) three_photos)
                    "@chanB"))
  = [SendFile "@chanB" [1; 2; 3] (Some (txt "trip")) AsAlbum;
     RemoveFile 1; RemoveFile 2; RemoveFile 3]
  /\ sent (run_pass (album_to (failing_download 3)
                       (collected (simple_rule 1 "copy" []) three_photos)
                       "@chanB"))
     = [].
Proof.
  split.
  - apply (proj1 (album_copy_uploads_and_cleans (friendly_client [])
                    (collected (simple_rule 1 "copy" []) three_photos)
                    "@chanB" "@chanB" eq_refl eq_refl) [1; 2; 3]);
      [reflexivity | discriminate].
  - apply (proj2 (album_copy_uploads_and_cleans (failing_download 3)
                    (collected (simple_rule 1 "copy" []) three_photos)
                    "@chanB" "@chanB" eq_refl eq_refl)
             [album_photo 1 77 []; album_photo 2 77 []]
             (album_photo 3 77 (txt "trip")) [] [1; 2]);
      reflexivity.
Defined.

(** ** More on album buffers *)

(** X8: the album buffer is keyed by the group id alone.  When two rules
    of the account both take an album member, the second rule finds the
    buffer of the first and appends to it: the member is buffered twice under
    the first rule, and the flush sends that buffer to the first rule's
    destinations only. *)
Theorem album_buffer_shared_by_rules U client r1 r2 chat_id chat_username msg
    gid st :
  evaluate r1 chat_id chat_username msg = ToAlbum gid ->
  evaluate r2 chat_id chat_username msg = ToAlbum gid ->
  album_cache st !! gid = None ->
  let st1 := forward_handler U client [r1; r2] chat_id chat_username msg st in
  album_cache st1 !! gid = Some (collected r1 [msg; msg])
  /\ timers st1 = timers st ++ [gid]
  /\ outbox (send_album_group client gid st1)
     = outbox st ++ album_pass client (collected r1 [msg; msg]).
Proof.
  intros H1 H2 Hnone st1.
  assert (Hb : buffering gid (collected r1 ([msg] ++ [msg])) st st1).
  { subst st1. unfold forward_handler. cbn [fold_left].
    unfold process_rule. rewrite H1, H2.
    apply (album_add_next gid msg r1 r2 [msg] st); [discriminate |].
    apply album_add_first. exact Hnone. }
  destruct Hb as (Hc & Ht & Ho & _).
  assert (Hl : album_cache st1 !! gid = Some (collected r1 [msg; msg]))
    by (rewrite Hc; apply lookup_insert_eq).
  split; [exact Hl |]. split; [exact Ht |].
  destruct (flush_sends_buffer client gid _ st1 Hl ltac:(discriminate))
    as (Hout & _).
  rewrite Hout, Ho. reflexivity.
Qed.

Lemma album_buffer_shared_by_rules_witness :
  outbox (send_album_group (friendly_client []) 77
            (forward_handler ascii_only (friendly_client [])
               [simple_rule 1 "forward" [];
                {| rule_id := 2; source_list := ["@chanA"];
                   dest_list := ["@chanC"]; forward_mode := "forward";
                   filters := flags_on []; modify := no_modify |}]
               10 (Some "chanA") (album_photo 1 77 []) initial_state))
  = [ForwardMessages "@chanB" [album_photo 1 77 []; album_photo 1 77 []]].
Proof.
  pose proof (album_buffer_shared_by_rules ascii_only (friendly_client [])
                (simple_rule 1 "forward" [])
                {| rule_id := 2; source_list := ["@chanA"];
                   dest_list := ["@chanC"]; forward_mode := "forward";
                   filters := flags_on []; modify := no_modify |}
                10 (Some "chanA") (album_photo 1 77 []) 77 initial_state) as H.
  destruct H as (_ & _ & Hout).
  - vm_compute. reflexivity.
  - vm_compute. reflexivity.
  - reflexivity.
  - etransitivity; [exact Hout | vm_compute; reflexivity].
Defined.

Lemma flush_step U client rules gid album st :
  In gid (timers st) ->
  album_cache st !! gid = Some album ->
  messages album <> [] ->
  let st' := step U client rules st (TimerFires gid) in
  outbox st' = outbox st ++ album_pass client album
  /\ album_cache st' = delete gid (album_cache st)
  /\ timers st' = remove_first gid (timers st).
Proof.
  intros Hin Hl Hne st'. subst st'. unfold step.
  rewrite (proj2 (existsb_eqb_in gid (timers st)) Hin).
  unfold send_album_group.
  change (album_cache (set_timers (remove_first gid (timers st)) st))
    with (album_cache st).
  rewrite Hl. destruct (messages album); [congruence |].
  repeat split.
Qed.

(** X9: a member that arrives after the album's flush timer has fired does
    not join the group that was sent: it starts a new buffer with a new
    timer, and is delivered as a second group of its own. *)
Theorem late_member_sent_separately U client pre rule post chat_id
    chat_username gid album msg st :
  In gid (timers st) ->
  album_cache st !! gid = Some album ->
  messages album <> [] ->
  evaluate rule chat_id chat_username msg = ToAlbum gid ->
  (forall r, In r (pre ++ post) -> idle r chat_id chat_username msg) ->
  let rules := pre ++ rule :: post in
  let st1 := step U client rules st (TimerFires gid) in
  let st2 := step U client rules st1 (NewMessage chat_id chat_username msg) in
  let st3 := step U client rules st2 (TimerFires gid) in
  album_cache st2 !! gid = Some (collected rule [msg])
  /\ outbox st2 = outbox st ++ album_pass client album
  /\ outbox st3
     = outbox st ++ album_pass client album
       ++ album_pass client (collected rule [msg]).
Proof.
  intros Hin Hl Hne Hev Hidle rules st1 st2 st3.
  destruct (flush_step U client rules gid album st Hin Hl Hne)
    as (Ho1 & Hc1 & _).
  fold st1 in Ho1, Hc1.
  assert (Hnone : album_cache st1 !! gid = None)
    by (rewrite Hc1; apply lookup_delete_eq).
  assert (Hb : buffering gid (collected rule [msg]) st1 st2).
  { subst st2 rules. unfold step.
    rewrite (forward_handler_buffers U client pre rule post _ _ msg gid)
      by assumption.
    apply album_add_first. exact Hnone. }
  destruct Hb as (Hc2 & Ht2 & Ho2 & _).
  assert (Hl2 : album_cache st2 !! gid = Some (collected rule [msg]))
    by (rewrite Hc2; apply lookup_insert_eq).
  assert (Hin2 : In gid (timers st2))
    by (rewrite Ht2; apply in_or_app; right; left; reflexivity).
  destruct (flush_step U client rules gid _ st2 Hin2 Hl2
              ltac:(discriminate)) as (Ho3 & _).
  fold st3 in Ho3.
  split; [exact Hl2 |]. split; [rewrite Ho2; exact Ho1 |].
  rewrite Ho3, Ho2, Ho1, <- app_assoc. reflexivity.
Qed.

Lemma late_member_sent_separately_witness :
  outbox (run ascii_only (friendly_client []) [simple_rule 4 "forward" []]
            [TimerFires 77; NewMessage 10 (Some "chanA") (album_photo 3 77 []);
             TimerFires 77]
            (run ascii_only (friendly_client []) [simple_rule 4 "forward" []]
               [NewMessage 10 (Some "chanA") (album_photo 1 77 []);
                NewMessage 10 (Some "chanA") (album_photo 2 77 [])]
               initial_state))
  = [ForwardMessages "@chanB" [album_photo 1 77 []; album_photo 2 77 []];
     ForwardMessages "@chanB" [album_photo 3 77 []]].
Proof.
  pose proof (late_member_sent_separately ascii_only (friendly_client []) []
                (simple_rule 4 "forward" []) [] 10 (Some "chanA") 77
                (collected (simple_rule 4 "forward" [])
                   [album_photo 1 77 []; album_photo 2 77 []])
                (album_photo 3 77 [])
                (run ascii_only (friendly_client [])
                   [simple_rule 4 "forward" []]
                   [NewMessage 10 (Some "chanA") (album_photo 1 77 []);
                    NewMessage 10 (Some "chanA") (album_photo 2 77 [])]
                   initial_state)) as H.
  destruct H as (_ & _ & Hout).
  - vm_compute. left. reflexivity.
  - vm_compute. reflexivity.
  - discriminate.
  - vm_compute. reflexivity.
  - intros r [].
  - etransitivity; [exact Hout | vm_compute; reflexivity].
Defined.

(** * Further properties of the cleaning stages *)

(** ** Substitution only deletes *)

Lemma scan_sublist r s : forall n prev, sublist (sub_scan r [] n prev s) s.
Proof.
  induction s as [| c s IH]; intros n prev.
  - simpl. destruct n, (match_len r prev []); constructor.
  - destruct n as [| n]; simpl.
    + destruct (match_len r prev (c :: s)) as [[| m] |]; cbn [app].
      * apply sublist_skip, IH.
      * apply sublist_cons, IH.
      * apply sublist_skip, IH.
    + apply sublist_cons, IH.
Qed.

Lemma re_sub_sublist r t : sublist (re_sub r [] t) t.
Proof. apply scan_sublist. Qed.

(** X10: every cleaning stage only deletes characters: what it returns is
    the input with some characters left out, in the same order, so a stage
    never inserts, replaces or reorders text. *)
Theorem stages_only_delete U t :
  sublist (strip_hashtags U t) t
  /\ sublist (strip_mentions U t) t
  /\ sublist (strip_links U t) t
  /\ sublist (strip_emoji t) t
  /\ sublist (strip_phones U t) t
  /\ sublist (strip_emails U t) t.
Proof.
  unfold strip_hashtags, strip_mentions, strip_links, strip_emoji,
    strip_phones, strip_emails. cbv zeta.
  repeat split; try apply re_sub_sublist.
  - do 4 (etransitivity; [apply re_sub_sublist |]). apply re_sub_sublist.
  - etransitivity; apply re_sub_sublist.
Qed.

(** ** Searching and cleanliness *)

Lemma search_finds r s : forall prev,
  search_from r prev s = true -> exists a u, s = a ++ u /\ hit r u.
Proof.
  induction s as [| c s IH]; intros prev H; simpl in H.
  - destruct (match_len r prev []) eqn:E; [| discriminate].
    exists [], []. split; [reflexivity | exact (match_len_hit _ _ _ _ E)].
  - destruct (match_len r prev (c :: s)) eqn:E.
    + exists [], (c :: s).
      split; [reflexivity | exact (match_len_hit _ _ _ _ E)].
    + destruct (IH _ H) as (a & u & -> & Hu).
      exists (c :: a), u. split; [reflexivity | exact Hu].
Qed.

Lemma finds_search r a u :
  anchor_free r -> hit r u -> forall prev, search_from r prev (a ++ u) = true.
Proof.
  intros Haf Hu. induction a as [| c a IH]; intros prev.
  - cbn [app]. pose proof (hit_match_len r prev u Haf Hu) as Hm.
    destruct u; simpl; destruct (match_len r prev _); congruence.
  - cbn [app]. simpl.
    destruct (match_len r prev (c :: a ++ u)); [reflexivity | apply IH].
Qed.

Lemma clean_search r t : clean r t -> re_search r t = false.
Proof.
  intros Hc. unfold re_search.
  destruct (search_from r None t) eqn:E; [| reflexivity].
  destruct (search_finds _ _ _ E) as (a & u & -> & Hu).
  exfalso. exact (Hc a u eq_refl Hu).
Qed.

Lemma self_sub_clean q r t :
  anchor_free r -> tail_run q r -> junction q r r ->
  clean r (re_sub r [] t).
Proof.
  intros Haf Ht Hj. apply (re_sub_clean q r r t Haf Ht).
  - intros w Hl. exact (tail_run_nonempty q r w Ht Hl).
  - exact Hj.
  - intros a c s' _ H. exact H.
Qed.

Lemma marked_clean U m t :
  let r := Cat (Cls m) (plus (is_word U)) in
  clean r (re_sub r [] t).
Proof.
  intros r. apply (self_sub_clean (is_word U)).
  - simpl. auto.
  - simpl. reflexivity.
  - apply body_in_junction, body_in_marked. simpl. auto.
Qed.

Lemma strip_links_clean U t :
  Forall (fun r => clean r (strip_links U t))
    [link_re1 U; link_re2 U; link_re3 U; link_re4 U; link_re5 U].
Proof.
  pose proof (link_like_re1 U) as L1. pose proof (link_like_re2 U) as L2.
  pose proof (link_like_re3 U) as L3. pose proof (link_like_re4 U) as L4.
  pose proof (link_like_re5 U) as L5.
  unfold strip_links. cbv zeta.
  repeat first [apply Forall_nil | apply Forall_cons_2].
  - do 4 (apply (link_sub_keeps U); [assumption | assumption |]).
    apply (link_sub_clean U). assumption.
  - do 3 (apply (link_sub_keeps U); [assumption | assumption |]).
    apply (link_sub_clean U). assumption.
  - do 2 (apply (link_sub_keeps U); [assumption | assumption |]).
    apply (link_sub_clean U). assumption.
  - do 1 (apply (link_sub_keeps U); [assumption | assumption |]).
    apply (link_sub_clean U). assumption.
  - apply (link_sub_clean U). assumption.
  - exact I.
Qed.

(** X11: after the hashtag, mention, link, emoji or e-mail stage, a search
    for the stage's own pattern finds nothing: removing the matches does not
    bring new ones together.  (The phone stage has no such guarantee.) *)
Theorem stages_leave_no_match U t :
  re_search (hashtag_re U) (strip_hashtags U t) = false
  /\ re_search (mention_re U) (strip_mentions U t) = false
  /\ Forall (fun r => re_search r (strip_links U t) = false)
       [link_re1 U; link_re2 U; link_re3 U; link_re4 U; link_re5 U]
  /\ re_search emoji_re (strip_emoji t) = false
  /\ re_search (email_re U) (strip_emails U t) = false.
Proof.
  split; [apply clean_search, marked_clean |].
  split; [apply clean_search, marked_clean |].
  split.
  { eapply Forall_impl; [apply strip_links_clean |].
    intros r Hr. apply clean_search. exact Hr. }
  split.
  - apply clean_search, (self_sub_clean is_emoji).
    + exact I.
    + simpl. reflexivity.
    + apply body_in_junction, (body_in_chars _ is_emoji); simpl; auto.
  - apply clean_search, (self_sub_clean (email_tld U)).
    + unfold email_re, chr, plus. cbn [anchor_free]. tauto.
    + unfold email_re, chr, plus. cbn [tail_run]. reflexivity.
    + apply email_junction.
Qed.

(** ** The emoji stage as a filter *)

Lemma plus_match_none p prev c s :
  match_len (plus p) prev (c :: s) = None -> p c = false.
Proof.
  unfold match_len, plus. simpl.
  destruct (p c); [| reflexivity]. simpl.
  destruct (rep_match p 0 None (Some c) s accept) eqn:E; [discriminate |].
  exfalso. exact (rep_accept_total p s (Some c) None E).
Qed.

Lemma plus_match_run p prev c s n :
  match_len (plus p) prev (c :: s) = Some n ->
  p c = true
  /\ exists m w x, n = S m /\ s = w ++ x /\ length w = m /\ all_in p w.
Proof.
  unfold match_len, plus. simpl.
  destruct (p c) eqn:Hpc; [| discriminate]. simpl.
  destruct (rep_match p 0 None (Some c) s accept) as [x |] eqn:E;
    [| discriminate].
  intros [= <-]. split; [reflexivity |].
  destruct (rep_match_sound _ _ _ _ _ _ _ E)
    as (w & s' & -> & (Hall & _) & Hk).
  injection Hk as ->.
  exists (length w), w, x. rewrite length_app.
  repeat split; [f_equal; lia | exact Hall].
Qed.

Lemma filter_run q w x :
  all_in q w -> filter (fun c => negb (q c)) (w ++ x)
                = filter (fun c => negb (q c)) x.
Proof.
  induction 1 as [| c w Hc _ IH]; [reflexivity |].
  cbn [app]. rewrite filter_cons. rewrite Hc. cbn [negb].
  destruct (decide _) as [[] |]. exact IH.
Qed.

Lemma scan_run_filter q s : forall n prev w x,
  s = w ++ x -> length w = n -> all_in q w ->
  sub_scan (plus q) [] n prev s = filter (fun c => negb (q c)) s.
Proof.
  induction s as [| c s IH]; intros n prev w x Hs Hn Hw.
  - simpl. destruct n; [| reflexivity].
    destruct (match_len (plus q) prev []); reflexivity.
  - destruct n as [| n].
    + cbn [sub_scan].
      destruct (match_len (plus q) prev (c :: s)) as [k |] eqn:E.
      * destruct (plus_match_run _ _ _ _ _ E)
          as (Hc & m & w' & x' & -> & -> & Hl & Hall).
        cbn [app]. rewrite filter_cons, Hc. cbn [negb].
        destruct (decide _) as [[] |].
        exact (IH m (Some c) w' x' eq_refl Hl Hall).
      * pose proof (plus_match_none _ _ _ _ E) as Hc.
        rewrite filter_cons, Hc. cbn [negb].
        destruct (decide _) as [_ | Hn']; [| exfalso; apply Hn'; exact I].
        f_equal. exact (IH 0%nat (Some c) [] s eq_refl eq_refl (Forall_nil_2 _)).
    + destruct w as [| c' w]; [discriminate |].
      cbn [app] in Hs. injection Hs as <- ->. injection Hn as Hn.
      inversion Hw as [| ? ? Hc Hall]; subst.
      cbn [sub_scan]. rewrite filter_cons, Hc. cbn [negb].
      destruct (decide _) as [[] |].
      exact (IH _ (Some c) w x eq_refl eq_refl Hall).
Qed.

(** X12: the emoji stage deletes exactly the code points that lie in one of
    the listed ranges and keeps every other character, in order. *)
Theorem strip_emoji_is_filter t :
  strip_emoji t = filter (fun c => negb (is_emoji c)) t.
Proof.
  unfold strip_emoji, re_sub, emoji_re.
  exact (scan_run_filter is_emoji t 0%nat None [] t eq_refl eq_refl
           (Forall_nil_2 _)).
Qed.

(** ** The link filter *)

Lemma lit_chars_lang l w :
  lang (lit_chars l) w <-> w = map N_of_ascii l.
Proof.
  revert w. induction l as [| a l IH]; intros w.
  - reflexivity.
  - destruct l as [| b l].
    + exact (chr_lang a w _ eq_refl).
    + change (lit_chars (a :: b :: l))
        with (Cat (chr a) (lit_chars (b :: l))).
      cbn [lang]. split.
      * intros (w1 & w2 & -> & H1 & H2).
        apply (chr_lang a w1 _ eq_refl) in H1. apply IH in H2.
        subst. reflexivity.
      * intros ->. exists [N_of_ascii a], (map N_of_ascii (b :: l)).
        split; [reflexivity |].
        split; [apply (chr_lang a _ _ eq_refl); reflexivity |].
        apply IH. reflexivity.
Qed.

Lemma lit_lang s w : lang (lit s) w <-> w = txt s.
Proof. apply lit_chars_lang. Qed.

Lemma opt_lang p w :
  lang (opt p) w <-> w = [] \/ exists c, w = [c] /\ p c = true.
Proof.
  unfold opt. cbn [lang within]. split.
  - intros (Hall & _ & Hlen).
    destruct w as [| c [| c' w]]; [left; reflexivity | | simpl in Hlen; lia].
    right. exists c. split; [reflexivity |]. inversion Hall; assumption.
  - intros [-> | (c & -> & Hc)]; simpl.
    + repeat split; [constructor | lia | lia].
    + repeat split; [repeat constructor; exact Hc | lia | lia].
Qed.

Lemma has_link_words w : lang has_link_re w <-> In w link_markers.
Proof.
  unfold has_link_re. cbn [lang]. rewrite !lit_lang. split.
  - intros [(w1 & w2 & -> & H1 & w3 & w4 & -> & H3 & H4) | [-> | [-> | ->]]].
    + apply lit_lang in H1, H4. apply opt_lang in H3. subst w1 w4.
      destruct H3 as [-> | (c & -> & Hc)].
      * left. reflexivity.
      * apply N.eqb_eq in Hc. subst c. right. left. reflexivity.
    + right. right. left. reflexivity.
    + right. right. right. left. reflexivity.
    + right. right. right. right. left. reflexivity.
  - intros [<- | [<- | [<- | [<- | [<- | []]]]]].
    + left. exists (txt "http"), (txt "://").
      split; [reflexivity |]. split; [apply lit_lang; reflexivity |].
      exists [], (txt "://"). split; [reflexivity |].
      split; [apply opt_lang; left; reflexivity | apply lit_lang; reflexivity].
    + left. exists (txt "http"), (txt "s://").
      split; [reflexivity |]. split; [apply lit_lang; reflexivity |].
      exists (txt "s"), (txt "://"). split; [reflexivity |].
      split; [| apply lit_lang; reflexivity].
      apply opt_lang. right. exists 115%N. split; reflexivity.
    + right. left. reflexivity.
    + right. right. left. reflexivity.
    + right. right. right. reflexivity.
Qed.

Lemma has_link_anchor_free : anchor_free has_link_re.
Proof.
  unfold has_link_re, lit, opt, chr.
  cbn [lit_chars list_ascii_of_string anchor_free]. repeat split.
Qed.

(** X13: the link filter's text test fires exactly when the text contains
    one of the five markers [http://], [https://], [www.], [t.me/] or
    [tg://], in this lower-case spelling, anywhere in the text. *)
Theorem link_filter_detects_markers t :
  re_search has_link_re t = true
  <-> exists m, In m link_markers /\ occurs_in m t.
Proof.
  unfold re_search, occurs_in. split.
  - intros H. destruct (search_finds _ _ _ H) as (a & u & -> & w & s' & -> & Hw).
    exists w. split; [apply has_link_words; exact Hw |].
    exists a, s'. reflexivity.
  - intros (m & Hm & a & b & ->).
    apply finds_search; [exact has_link_anchor_free |].
    exists m, b. split; [reflexivity | apply has_link_words; exact Hm].
Qed.

(** ** Whitespace *)

Lemma scan_all_in q r repl s :
  all_in q repl -> all_in q s ->
  forall n prev, all_in q (sub_scan r repl n prev s).
Proof.
  intros Hr. unfold all_in in *. induction 1 as [| c s Hc Hs IH]; intros n prev.
  - simpl. destruct n, (match_len r prev []); auto.
  - destruct n as [| n]; simpl; [| apply IH].
    destruct (match_len r prev (c :: s)) as [[| m] |].
    + apply Forall_app. split; [exact Hr |]. constructor; [exact Hc | apply IH].
    + apply Forall_app. split; [exact Hr | apply IH].
    + constructor; [exact Hc | apply IH].
Qed.

Lemma re_sub_all_in q r repl t :
  all_in q repl -> all_in q t -> all_in q (re_sub r repl t).
Proof. intros Hr Ht. apply scan_all_in; assumption. Qed.

Lemma lstrip_all_space U t : all_in (is_space U) t -> lstrip U t = [].
Proof.
  induction 1 as [| c t Hc _ IH]; [reflexivity |].
  simpl. rewrite Hc. exact IH.
Qed.

Lemma py_strip_all_space U t : all_in (is_space U) t -> py_strip U t = [].
Proof.
  intros H. unfold py_strip. rewrite (lstrip_all_space U t H). reflexivity.
Qed.

Ltac keeps_class :=
  repeat first
    [ assumption
    | apply Forall_nil_2
    | match goal with
      | |- all_in _ (if ?b then _ else _) => destruct b
      end
    | apply re_sub_all_in ].

(** X14: a caption that consists of whitespace only is cleaned to the empty
    text, whatever the cleaner flags are; in copy mode it is then sent as no
    caption at all. *)
Theorem blank_caption_cleans_to_empty U filters t :
  all_in (is_space U) t ->
  clean_caption U filters t = [].
Proof.
  intros Ht. unfold clean_caption, normalize_ws. cbv zeta.
  apply py_strip_all_space.
  assert (H32 : all_in (is_space U) [32%N])
    by (repeat constructor).
  assert (H10 : all_in (is_space U) [10%N; 10%N])
    by (repeat constructor).
  unfold strip_hashtags, strip_mentions, strip_links, strip_emoji,
    strip_phones, strip_emails. cbv zeta.
  keeps_class.
Qed.

Lemma blank_caption_cleans_to_empty_witness :
  clean_caption ascii_only (flags_on ["clean_link"])
    [32%N; 10%N; 9%N; 32%N]
  = [].
Proof.
  apply blank_caption_cleans_to_empty. repeat constructor.
Defined.

Lemma lstrip_stops U t : stops (is_space U) (lstrip U t).
Proof.
  induction t as [| c t IH]; [exact I |].
  simpl. destruct (is_space U c) eqn:Hc; [exact IH | exact Hc].
Qed.

Lemma lstrip_keeps_last U l c :
  is_space U c = false -> lstrip U (l ++ [c]) = lstrip U l ++ [c].
Proof.
  intros Hc. induction l as [| d l IH]; simpl.
  - rewrite Hc. reflexivity.
  - destruct (is_space U d); [exact IH | reflexivity].
Qed.

Lemma py_strip_stops U t :
  stops (is_space U) (py_strip U t)
  /\ stops (is_space U) (rev (py_strip U t)).
Proof.
  unfold py_strip. rewrite rev_involutive. split; [| apply lstrip_stops].
  pose proof (lstrip_stops U t) as Hhead.
  destruct (lstrip U t) as [| c a]; [exact I |].
  simpl in Hhead. cbn [rev].
  rewrite (lstrip_keeps_last U (rev a) c Hhead), rev_app_distr.
  exact Hhead.
Qed.

(** X15: the cleaned caption never starts or ends with a whitespace
    character. *)
Theorem cleaned_caption_is_stripped U filters t :
  stops (is_space U) (clean_caption U filters t)
  /\ stops (is_space U) (rev (clean_caption U filters t)).
Proof. unfold clean_caption, normalize_ws. cbv zeta. apply py_strip_stops. Qed.

(** * Text helpers *)

(** ** Escaping *)

Lemma flat_map_flat_map {A B C} (f : A -> list B) (g : B -> list C) l :
  flat_map g (flat_map f l) = flat_map (fun a => flat_map g (f a)) l.
Proof.
  induction l as [| a l IH]; [reflexivity |].
  cbn [flat_map]. rewrite flat_map_app, IH. reflexivity.
Qed.

Lemma replace_all_escaped cs : forall t,
  NoDup cs -> ~ In 92%N cs ->
  fold_left (fun t c => replace_char c [92%N; c] t) cs t = escaped cs t.
Proof.
  induction cs as [| c cs IH]; intros t Hnd Hbs.
  - cbn [fold_left]. unfold escaped. cbn [existsb].
    induction t as [| x t IHt]; [reflexivity |].
    cbn [flat_map app]. f_equal. exact IHt.
  - cbn [fold_left]. apply NoDup_cons in Hnd. destruct Hnd as (Hc & Hnd).
    rewrite IH; [| exact Hnd | intros H; apply Hbs; right; exact H].
    unfold escaped, replace_char. rewrite flat_map_flat_map.
    apply flat_map_ext. intros x. cbn [existsb].
    destruct (N.eqb_spec x c) as [-> | Hne].
    + cbn [orb flat_map app].
      replace (existsb (N.eqb 92%N) cs) with false.
      2:{ symmetry. apply not_true_is_false. intros H.
          apply existsb_exists in H. destruct H as (y & Hy & E).
          apply N.eqb_eq in E. subst y. apply Hbs. right. exact Hy. }
      replace (existsb (N.eqb c) cs) with false.
      2:{ symmetry. apply not_true_is_false. intros H.
          apply existsb_exists in H. destruct H as (y & Hy & E).
          apply N.eqb_eq in E. subst y. apply Hc.
          apply list_elem_of_In. exact Hy. }
      reflexivity.
    + cbn [orb flat_map]. rewrite app_nil_r. reflexivity.
Qed.

(** X16: the chain of replacements in [escape_markdown] and [safe_text]
    amounts to one pass that puts a single backslash in front of each
    special character and leaves every other character alone: no character
    is escaped twice, and the backslashes already in the text are not
    escaped. *)
Theorem escaping_is_one_pass t :
  escape_markdown t = escaped escape_chars t
  /\ safe_text t = escaped (txt "_*`[") t.
Proof.
  split.
  - unfold escape_markdown. destruct t as [| c t]; [reflexivity |].
    cbn [truthy]. apply replace_all_escaped.
    + apply (bool_decide_unpack _). vm_compute. exact I.
    + vm_compute. intuition discriminate.
  - unfold safe_text. destruct t as [| c t]; [reflexivity |].
    cbn [truthy].
    exact (replace_all_escaped (txt "_*`[") (c :: t)
             ltac:(apply (bool_decide_unpack _); vm_compute; exact I)
             ltac:(vm_compute; intuition discriminate)).
Qed.

(** ** Parsing id lists *)

Section IdFacts.
Variable U : Unicode.

Lemma separators_replaced t :
  replace_char 32 [44%N] (replace_char 59 [44%N] (replace_char 10 [44%N] t))
  = flat_map (fun x => if ((x =? 10) || (x =? 59) || (x =? 32))%N
                       then [44%N] else [x]) t.
Proof.
  unfold replace_char. rewrite !flat_map_flat_map.
  apply flat_map_ext. intros x.
  destruct (N.eqb_spec x 10) as [-> | H10]; [reflexivity |].
  cbn [flat_map app orb].
  destruct (N.eqb_spec x 59) as [-> | H59]; [reflexivity |].
  cbn [flat_map app orb]. destruct (x =? 32)%N; reflexivity.
Qed.

Lemma separators_gone t :
  Forall (fun c => ((c =? 10) || (c =? 59) || (c =? 32))%N = false)
    (replace_char 32 [44%N]
       (replace_char 59 [44%N] (replace_char 10 [44%N] t))).
Proof.
  rewrite separators_replaced.
  induction t as [| x t IH]; [constructor |].
  cbn [flat_map]. apply Forall_app. split; [| exact IH].
  destruct ((x =? 10) || (x =? 59) || (x =? 32))%N eqn:E;
    repeat constructor. exact E.
Qed.

Lemma split_parts sep (Q : N -> Prop) t :
  Forall Q t ->
  Forall (fun p => Forall (fun c => Q c /\ c <> sep) p) (split_on sep t).
Proof.
  induction 1 as [| c t Hc _ IH]; [repeat constructor |].
  cbn [split_on]. destruct (N.eqb_spec c sep) as [-> | Hne].
  - constructor; [constructor | exact IH].
  - destruct (split_on sep t) as [| p ps]; [repeat constructor; auto |].
    inversion IH; subst. constructor; [| assumption].
    constructor; [auto | assumption].
Qed.

Lemma lstrip_suffix t : exists a, t = a ++ lstrip U t.
Proof.
  induction t as [| c t (a & IH)]; [exists []; reflexivity |].
  simpl. destruct (is_space U c).
  - exists (c :: a). simpl. f_equal. exact IH.
  - exists []. reflexivity.
Qed.

Lemma lstrip_Forall (Q : N -> Prop) t : Forall Q t -> Forall Q (lstrip U t).
Proof.
  intros H. destruct (lstrip_suffix t) as (a & E). rewrite E in H.
  apply Forall_app in H. tauto.
Qed.

Lemma py_strip_Forall (Q : N -> Prop) t :
  Forall Q t -> Forall Q (py_strip U t).
Proof.
  intros H. unfold py_strip.
  apply Forall_rev, lstrip_Forall, Forall_rev, lstrip_Forall. exact H.
Qed.

Lemma lstrip_fixed t : stops (is_space U) t -> lstrip U t = t.
Proof. destruct t as [| c t]; [reflexivity |]. simpl. intros ->. reflexivity. Qed.

Lemma py_strip_fixed t :
  stops (is_space U) t -> stops (is_space U) (rev t) -> py_strip U t = t.
Proof.
  intros H1 H2. unfold py_strip.
  rewrite (lstrip_fixed t H1), (lstrip_fixed _ H2). apply rev_involutive.
Qed.

Lemma py_strip_idempotent t : py_strip U (py_strip U t) = py_strip U t.
Proof. apply py_strip_fixed; apply py_strip_stops. Qed.

Lemma parts_wellformed t :
  Forall (fun p => truthy p = true -> wellformed_id U p)
    (map (py_strip U)
       (split_on 44
          (replace_char 32 [44%N]
             (replace_char 59 [44%N] (replace_char 10 [44%N] t))))).
Proof.
  apply Forall_map.
  eapply Forall_impl; [exact (split_parts 44 _ _ (separators_gone t)) |].
  intros p Hp Ht. cbn beta in *. split; [| split].
  - destruct (py_strip U p); [discriminate | discriminate].
  - apply py_strip_idempotent.
  - apply py_strip_Forall. eapply Forall_impl; [exact Hp |].
    intros c (Hc & Hne). cbn beta in *. unfold is_separator. rewrite Hc.
    apply N.eqb_neq. exact Hne.
Qed.

Lemma keep_new_step seen result p :
  keep_new (seen, result) p
  = if truthy p && negb (bool_decide (p ∈ seen))
    then (p :: seen, result ++ [p]) else (seen, result).
Proof. reflexivity. Qed.

Lemma keep_new_invariant (P : text -> Prop) parts : forall seen result,
  seen = rev result -> NoDup result -> Forall P result ->
  Forall (fun p => truthy p = true -> P p) parts ->
  NoDup (snd (fold_left keep_new parts (seen, result)))
  /\ Forall P (snd (fold_left keep_new parts (seen, result))).
Proof.
  induction parts as [| p parts IH]; intros seen result Hs Hnd Hall Hparts.
  - cbn. auto.
  - inversion Hparts as [| ? ? Hp Hrest]; subst.
    cbn [fold_left]. rewrite keep_new_step.
    destruct (truthy p) eqn:Ht; cbn [andb]; [| apply IH; auto].
    destruct (bool_decide (p ∈ rev result)) eqn:Hd; cbn [negb];
      [apply IH; auto |].
    apply bool_decide_eq_false in Hd.
    apply IH; auto.
    + rewrite rev_app_distr. reflexivity.
    + apply NoDup_app. split; [exact Hnd |]. split; [| apply NoDup_singleton].
      intros x Hx Hx'. apply list_elem_of_singleton in Hx'. subst x.
      apply Hd. rewrite list_elem_of_In, <- in_rev, <- list_elem_of_In.
      exact Hx.
    + apply Forall_app. split; [exact Hall |]. constructor; auto.
Qed.

Lemma ids_wellformed t :
  NoDup (parse_multi_ids U t)
  /\ Forall (wellformed_id U) (parse_multi_ids U t).
Proof.
  unfold parse_multi_ids. cbv zeta.
  apply (keep_new_invariant (wellformed_id U)).
  - reflexivity.
  - constructor.
  - constructor.
  - apply parts_wellformed.
Qed.

(** X17: [parse_multi_ids] returns a list without duplicates in which every
    id is non-empty, has no whitespace at either end, and contains no
    separator (newline, semicolon, blank or comma). *)
Theorem parse_multi_ids_wellformed t :
  NoDup (parse_multi_ids U t)
  /\ Forall (wellformed_id U) (parse_multi_ids U t).
Proof. exact (ids_wellformed t). Qed.

Lemma split_on_app sep p rest :
  Forall (fun c => c <> sep) p ->
  split_on sep (p ++ sep :: rest) = p :: split_on sep rest.
Proof.
  induction 1 as [| c p Hc _ IH]; cbn [app split_on].
  - rewrite N.eqb_refl. reflexivity.
  - rewrite IH. destruct (N.eqb_spec c sep); [contradiction | reflexivity].
Qed.

Lemma split_on_free sep p :
  Forall (fun c => c <> sep) p -> split_on sep p = [p].
Proof.
  induction 1 as [| c p Hc _ IH]; [reflexivity |].
  cbn [split_on]. rewrite IH.
  destruct (N.eqb_spec c sep); [contradiction | reflexivity].
Qed.

Lemma split_join l :
  l <> [] -> Forall (fun p => Forall (fun c => c <> 44%N) p) l ->
  split_on 44 (join [44%N] l) = l.
Proof.
  intros Hne Hall. induction Hall as [| p l Hp Hl IH]; [congruence |].
  destruct l as [| q l].
  - cbn [join]. apply split_on_free. exact Hp.
  - change (join [44%N] (p :: q :: l))
      with (p ++ 44%N :: join [44%N] (q :: l)).
    rewrite (split_on_app 44 p _ Hp), IH; [reflexivity | discriminate].
Qed.

Lemma read_write l :
  Forall (wellformed_id U) l -> read_list U (write_list l) = l.
Proof.
  intros Hall. unfold read_list, write_list.
  destruct l as [| p l].
  - cbn [join split_on]. rewrite filter_cons.
    destruct (decide _) as [H |]; [discriminate H | reflexivity].
  - rewrite split_join; [| discriminate |].
    + induction Hall as [| q l' (Hq & Hs & _) _ IH]; [reflexivity |].
      rewrite filter_cons.
      destruct (decide _) as [_ | Hn].
      * cbn [map]. rewrite Hs. f_equal. exact IH.
      * exfalso. apply Hn. rewrite Hs. destruct q; [congruence | reflexivity].
    + eapply Forall_impl; [exact Hall |].
      intros q (_ & _ & Hq). cbn beta. eapply Forall_impl; [exact Hq |].
      intros c Hc ->. discriminate Hc.
Qed.

(** X18: an id list parsed by [parse_multi_ids] survives storage: written
    to the comma-separated column and read back the way the rule queries do,
    it is the same list. *)
Theorem id_list_survives_storage t :
  read_list U (write_list (parse_multi_ids U t)) = parse_multi_ids U t.
Proof. apply read_write. exact (proj2 (ids_wellformed t)). Qed.
End IdFacts.

(** * The wizard's filter steps and the handler *)

Lemma set_keys_flag keys turn_on : forall f k,
  flag (set_keys keys turn_on f) k
  = if bool_decide (k ∈ keys) then turn_on else flag f k.
Proof.
  unfold set_keys. induction keys as [| key keys IH]; intros f k.
  - reflexivity.
  - cbn [fold_left]. rewrite IH.
    destruct (bool_decide (k ∈ keys)) eqn:E.
    + apply bool_decide_eq_true in E.
      rewrite bool_decide_eq_true_2; [reflexivity | right; exact E].
    + apply bool_decide_eq_false in E.
      destruct (decide (k = key)) as [-> | Hne].
      * rewrite bool_decide_eq_true_2 by left.
        unfold flag. rewrite lookup_insert_eq. reflexivity.
      * rewrite bool_decide_eq_false_2.
        -- unfold flag. rewrite lookup_insert_ne by congruence. reflexivity.
        -- intros H. apply elem_of_cons in H. tauto.
Qed.

Lemma msg_type_is_ignore_key msg ty :
  msg_type msg = Some ty -> ty ∈ ignore_keys.
Proof.
  unfold msg_type, ignore_keys.
  repeat match goal with
         | |- (if ?b then _ else _) = _ -> _ => destruct b
         end;
    intros [= <-]; set_solver.
Qed.

(** What the classification does when every ignore flag reads [b]. *)
Lemma evaluate_uniform b rule chat_id chat_username msg :
  (forall k, k ∈ ignore_keys -> flag (filters rule) k = b) ->
  match evaluate rule chat_id chat_username msg with
  | NoMatch => True
  | Skipped _ => b = true
  | ToAlbum _ => b = false
  | Proceed => b = false \/ msg_type msg = None
  end.
Proof.
  intros Hb. unfold evaluate.
  assert (Hty : forall ty, msg_type msg = Some ty ->
                           flag (filters rule) ty = b)
    by (intros ty Hty; apply Hb, (msg_type_is_ignore_key msg); exact Hty).
  rewrite !Hb by (unfold ignore_keys; set_solver).
  destruct (negb (existsb _ (source_list rule))); [exact I |].
  destruct b; cbn [andb negb].
  - rewrite !andb_true_r.
    destruct (msg_photo msg) eqn:Hphoto; cbn [andb].
    { destruct (has_text msg); reflexivity. }
    destruct (msg_poll msg); [reflexivity |].
    destruct (grouped msg); [reflexivity |].
    destruct (msg_forward msg); [reflexivity |].
    destruct (msg_reply_to msg); [reflexivity |].
    destruct (re_search has_link_re (original_text_of msg)
              || existsb is_url_entity (msg_entities msg)); [reflexivity |].
    destruct (msg_reply_markup msg); [reflexivity |].
    destruct (existsb is_custom_emoji (msg_entities msg)); [reflexivity |].
    destruct (msg_type msg) as [ty |] eqn:E.
    + rewrite (Hty ty eq_refl). reflexivity.
    + right. reflexivity.
  - rewrite !andb_false_r. cbn [andb].
    destruct (grouped msg); [reflexivity |].
    destruct (msg_type msg) as [ty |] eqn:E.
    + rewrite (Hty ty eq_refl). left. reflexivity.
    + left. reflexivity.
Qed.

(** X19: after "all off" in the filter step, the handler skips no message
    of a matching chat; after "all on", it buffers no album, and the only
    messages that still go through are those of no recognised kind (no
    photo, video, voice, audio, sticker, gif, document, poll or text). *)
Theorem filters_all_switch state state' turn_on rule chat_id chat_username
    msg :
  handle_filters_all (Some state) turn_on = Some state' ->
  match evaluate (with_filters (state_filters state') rule)
          chat_id chat_username msg with
  | NoMatch => True
  | Skipped _ => turn_on = true
  | ToAlbum _ => turn_on = false
  | Proceed => turn_on = false \/ msg_type msg = None
  end.
Proof.
  unfold handle_filters_all.
  destruct (state_step state); try discriminate.
  intros [= <-]. apply evaluate_uniform. intros k Hk.
  change (flag (set_keys ignore_keys turn_on (state_filters state)) k
          = turn_on).
  rewrite set_keys_flag. rewrite bool_decide_eq_true_2 by exact Hk.
  reflexivity.
Qed.

Lemma filters_all_switch_witness :
  match evaluate
          (with_filters
             (state_filters
                (set_filters
                   (set_keys ignore_keys false (state_filters filter_step))
                   filter_step))
             (simple_rule 1 "forward" []))
          10 (Some "chanA") (text_message (txt "see www.x.org")) with
  | NoMatch => True
  | Skipped _ => false = true
  | ToAlbum _ => false = false
  | Proceed =>
      false = false \/ msg_type (text_message (txt "see www.x.org")) = None
  end.
Proof.
  exact (filters_all_switch filter_step
           (set_filters
              (set_keys ignore_keys false (state_filters filter_step))
              filter_step)
           false (simple_rule 1 "forward" []) 10 (Some "chanA")
           (text_message (txt "see www.x.org")) eq_refl).
Defined.

Lemma evaluate_ext f g rule chat_id chat_username msg :
  (forall k, k ∈ ignore_keys -> flag f k = flag g k) ->
  evaluate (with_filters f rule) chat_id chat_username msg
  = evaluate (with_filters g rule) chat_id chat_username msg.
Proof.
  intros H. unfold evaluate.
  change (filters (with_filters f rule)) with f.
  change (filters (with_filters g rule)) with g.
  change (source_list (with_filters f rule)) with (source_list rule).
  change (source_list (with_filters g rule)) with (source_list rule).
  rewrite !(H "photo_only"), !(H "photo_with_text"), !(H "poll"),
    !(H "album"), !(H "forward"), !(H "reply"), !(H "link"), !(H "button"),
    !(H "emoji") by (unfold ignore_keys; set_solver).
  destruct (msg_type msg) as [ty |] eqn:E; [| reflexivity].
  rewrite (H ty (msg_type_is_ignore_key msg ty E)). reflexivity.
Qed.

Lemma clean_caption_ext U f g t :
  (forall k, k ∈ "clean_caption" :: cleaner_keys -> flag f k = flag g k) ->
  clean_caption U f t = clean_caption U g t.
Proof.
  intros H. unfold clean_caption.
  rewrite !(H "clean_caption"), !(H "clean_hashtag"), !(H "clean_mention"),
    !(H "clean_link"), !(H "clean_emoji"), !(H "clean_phone"),
    !(H "clean_email") by (unfold cleaner_keys; set_solver).
  reflexivity.
Qed.

Lemma set_keys_other keys turn_on f k :
  k ∉ keys -> flag (set_keys keys turn_on f) k = flag f k.
Proof.
  intros H. rewrite set_keys_flag, bool_decide_eq_false_2 by exact H.
  reflexivity.
Qed.

Lemma keys_are_disjoint k :
  k ∈ ignore_keys -> k ∈ "clean_caption" :: cleaner_keys -> False.
Proof.
  unfold ignore_keys, cleaner_keys. intros H1 H2.
  repeat (apply elem_of_cons in H2; destruct H2 as [-> | H2];
          [revert H1; apply (bool_decide_unpack _); vm_compute; exact I |]).
  inversion H2.
Qed.

(** X20: the "all on / all off" buttons keep to their own flags.  The one
    of the filter step never changes how captions are cleaned; the one of the
    cleaner step never changes which messages are skipped, buffered or
    dispatched, and never touches the "remove caption" flag. *)
Theorem all_buttons_keep_to_their_flags U s1 s1' s2 s2' on1 on2 :
  handle_filters_all (Some s1) on1 = Some s1' ->
  handle_cleaner_all (Some s2) on2 = Some s2' ->
  (forall t, clean_caption U (state_filters s1') t
             = clean_caption U (state_filters s1) t)
  /\ (forall rule chat_id chat_username msg,
        evaluate (with_filters (state_filters s2') rule)
          chat_id chat_username msg
        = evaluate (with_filters (state_filters s2) rule)
            chat_id chat_username msg)
  /\ flag (state_filters s2') "clean_caption"
     = flag (state_filters s2) "clean_caption".
Proof.
  unfold handle_filters_all, handle_cleaner_all.
  destruct (state_step s1); try discriminate.
  destruct (state_step s2); try discriminate.
  intros H1 H2.
  assert (E1 : state_filters s1'
               = set_keys ignore_keys on1 (state_filters s1))
    by (injection H1 as <-; reflexivity).
  assert (E2 : state_filters s2'
               = set_keys cleaner_keys on2 (state_filters s2))
    by (injection H2 as <-; reflexivity).
  rewrite E1, E2. clear H1 H2 E1 E2.
  split; [| split].
  - intros t. apply clean_caption_ext. intros k Hk.
    apply set_keys_other. intros Hi. exact (keys_are_disjoint k Hi Hk).
  - intros rule chat_id chat_username msg. apply evaluate_ext. intros k Hk.
    apply set_keys_other. intros Hc.
    apply (keys_are_disjoint k Hk). right. exact Hc.
  - apply set_keys_other. unfold cleaner_keys.
    apply (bool_decide_unpack _). vm_compute. exact I.
Qed.

Lemma all_buttons_keep_to_their_flags_witness :
  flag (state_filters
          (set_filters
             (set_keys cleaner_keys false (state_filters cleaner_step))
             cleaner_step)) "clean_caption"
  = flag (state_filters cleaner_step) "clean_caption".
Proof.
  exact (proj2 (proj2
           (all_buttons_keep_to_their_flags ascii_only
              filter_step
              (set_filters
                 (set_keys ignore_keys true (state_filters filter_step))
                 filter_step)
              cleaner_step
              (set_filters
                 (set_keys cleaner_keys false (state_filters cleaner_step))
                 cleaner_step)
              true false eq_refl eq_refl))).
Defined.

(** X21: a toggle flips the flag it names and no other, and a second toggle
    of the same flag brings every flag back to what it was; the step of the
    wizard is not changed. *)
Theorem filter_toggle_twice state key s1 s2 :
  handle_filter_toggle (Some state) key = Some s1 ->
  handle_filter_toggle (Some s1) key = Some s2 ->
  flag (state_filters s1) key = negb (flag (state_filters state) key)
  /\ (forall k, k <> key ->
                flag (state_filters s1) k = flag (state_filters state) k)
  /\ (forall k, flag (state_filters s2) k = flag (state_filters state) k)
  /\ state_step s2 = state_step state.
Proof.
  unfold handle_filter_toggle. intros H1 H2.
  assert (E1 : s1 = set_filters
                      (<[key := negb (flag (state_filters state) key)]>
                         (state_filters state)) state)
    by (destruct (state_step state); congruence).
  assert (E2 : s2 = set_filters
                      (<[key := negb (flag (state_filters s1) key)]>
                         (state_filters s1)) s1)
    by (destruct (state_step s1); congruence).
  assert (F1 : flag (state_filters s1) key
               = negb (flag (state_filters state) key)).
  { rewrite E1. unfold flag at 1. cbn [state_filters set_filters].
    rewrite lookup_insert_eq. reflexivity. }
  assert (F2 : forall k, k <> key ->
                         flag (state_filters s1) k
                         = flag (state_filters state) k).
  { intros k Hk. rewrite E1. unfold flag. cbn [state_filters set_filters].
    rewrite lookup_insert_ne by congruence. reflexivity. }
  split; [exact F1 |]. split; [exact F2 |]. split.
  - intros k. rewrite E2. cbn [state_filters set_filters].
    destruct (decide (k = key)) as [-> | Hne].
    + unfold flag at 1. rewrite lookup_insert_eq. cbn [default].
      rewrite F1. apply negb_involutive.
    + unfold flag at 1. rewrite lookup_insert_ne by congruence.
      apply (F2 k Hne).
  - rewrite E2, E1. reflexivity.
Qed.

Lemma filter_toggle_twice_witness :
  flag (state_filters (toggled "link" filter_step)) "link"
  = negb (flag (state_filters filter_step) "link").
Proof.
  exact (proj1
           (filter_toggle_twice filter_step "link"
              (toggled "link" filter_step)
              (toggled "link" (toggled "link" filter_step))
              eq_refl eq_refl)).
Defined.

(** X22: [DEFAULT_FILTERS], which a session starts from and which a rule
    without stored filters is read back with, keeps everything: no message of
    a matching chat is skipped, and the caption is only normalised for
    whitespace. *)
Theorem default_filters_keep_everything U rule chat_id chat_username msg t :
  (forall why,
     evaluate (with_filters DEFAULT_FILTERS rule) chat_id chat_username msg
     <> Skipped why)
  /\ clean_caption U DEFAULT_FILTERS t = normalize_ws U t.
Proof.
  split.
  - intros why Hs.
    pose proof (evaluate_uniform false (with_filters DEFAULT_FILTERS rule)
                  chat_id chat_username msg) as H.
    rewrite Hs in H. discriminate H.
    intros k Hk. change (filters (with_filters DEFAULT_FILTERS rule))
                   with DEFAULT_FILTERS.
    revert k Hk. unfold ignore_keys.
    apply Forall_forall. repeat constructor.
  - reflexivity.
Qed.

(** * Resolving identifiers *)

Lemma resolve_dest_cases client entity_cache dest_str :
  (exists e, Resolver.resolve_dest client entity_cache dest_str
             = (Some e, entity_cache)
             /\ entity_cache !! dest_str = Some e)
  \/ (exists e, Resolver.resolve_dest client entity_cache dest_str
                = (Some e, <[dest_str := e]> entity_cache))
  \/ Resolver.resolve_dest client entity_cache dest_str
     = (None, entity_cache).
Proof.
  unfold Resolver.resolve_dest.
  destruct (entity_cache !! dest_str) as [e |] eqn:Hc.
  { left. exists e. split; reflexivity. }
  right.
  repeat match goal with
         | |- context [match ?x with _ => _ end] =>
             lazymatch x with
             | context [match _ with _ => _ end] => fail
             | _ => destruct x
             end
         end;
    first [right; reflexivity | left; eexists; reflexivity].
Qed.

(** X23: the destination cache pins what it has resolved and nothing else.
    A destination that resolves is stored under its own key, and from then
    on the same entity is returned without asking the connection, whatever
    the connection would answer; a destination that does not resolve leaves
    the cache as it was, so it is tried again next time; no other key is
    touched. *)
Theorem resolve_dest_cache client entity_cache dest_str :
  let r := Resolver.resolve_dest client entity_cache dest_str in
  match fst r with
  | Some entity =>
      snd r !! dest_str = Some entity
      /\ forall client',
           Resolver.resolve_dest client' (snd r) dest_str
           = (Some entity, snd r)
  | None => snd r = entity_cache
  end
  /\ forall other, other <> dest_str ->
                   snd r !! other = entity_cache !! other.
Proof.
  assert (Hpin : forall c e, c !! dest_str = Some e ->
                   forall client',
                     Resolver.resolve_dest client' c dest_str = (Some e, c)).
  { intros c e Hc client'. unfold Resolver.resolve_dest. rewrite Hc.
    reflexivity. }
  cbv zeta.
  destruct (resolve_dest_cases client entity_cache dest_str)
    as [(e & -> & Hc) | [(e & ->) | ->]]; cbn [fst snd].
  - split; [split; [exact Hc | apply Hpin, Hc] | reflexivity].
  - split; [split |].
    + apply lookup_insert_eq.
    + apply Hpin, lookup_insert_eq.
    + intros other Hne. apply lookup_insert_ne. congruence.
  - split; reflexivity.
Qed.

(** X24: the check the wizard makes when an id is entered and the
    resolution the handler makes at run time agree: on a connection that
    gives the same answers, and with nothing cached yet, [resolve_dest]
    returns an entity exactly when [resolve_entity] reports success, and it
    is the same entity. *)
Theorem resolvers_agree client identifier :
  fst (Resolver.resolve_dest client ∅ identifier)
  = match Resolver.resolve_entity (Some client) identifier with
    | inl entity => Some entity
    | inr _ => None
    end.
Proof.
  unfold Resolver.resolve_dest, Resolver.resolve_entity.
  rewrite lookup_empty.
  repeat match goal with
         | |- context [match ?x with _ => _ end] =>
             lazymatch x with
             | context [match _ with _ => _ end] => fail
             | _ => destruct x
             end
         end;
    reflexivity.
Qed.

(** ** A bare channel id as source and as destination *)

Lemma length_append a x :
  String.length (String.append a x)
  = (String.length a + String.length x)%nat.
Proof.
  induction a as [| c a IH]; [reflexivity |].
  change (String.append (String c a) x) with (String c (String.append a x)).
  cbn [String.length]. rewrite IH. reflexivity.
Qed.

Lemma append_longer a x : a <> EmptyString -> String.append a x <> x.
Proof.
  intros Ha E. apply (f_equal String.length) in E.
  rewrite length_append in E.
  destruct a; [congruence | cbn [String.length] in E; lia].
Qed.

Lemma abs_with_prefix r : Z.abs (with_prefix r) <> Z.pos r.
Proof.
  intros H.
  assert (Hcases : with_prefix r = Z.pos r \/ with_prefix r = Z.neg r)
    by (destruct (with_prefix r); simpl in H; try discriminate;
        injection H as ->; auto).
  destruct Hcases as [E | E]; apply (f_equal py_str) in E;
    rewrite py_str_with_prefix in E;
    [rewrite py_str_pos in E | rewrite py_str_neg in E].
  - exact (append_longer "-100" _ ltac:(discriminate) E).
  - change (String.append "-100" ?x) with (String "-" (String.append "100" x))
      in E.
    injection E as E.
    exact (append_longer "100" _ ltac:(discriminate) E).
Qed.

Lemma bare_id_dialogs r ds fail :
  (forall did e, In (did, e) ds -> Z.abs did <> Z.pos r) ->
  iter_dialogs (Z.pos r) ds fail = if fail then Failed else Missing.
Proof.
  induction ds as [| [did e] ds IH]; intros H; [reflexivity |].
  cbn [iter_dialogs]. unfold dialog_matches.
  rewrite py_str_pos, not_prefixed_digits.
  assert (Hd : Z.abs did <> Z.pos r) by (apply (H did e); left; reflexivity).
  replace ((did =? Z.pos r) || (Z.abs did =? Z.abs (Z.pos r))) with false.
  - apply IH. intros did' e' Hin. apply (H did' e'). right. exact Hin.
  - symmetry. apply orb_false_iff. split; apply Z.eqb_neq.
    + intros ->. apply Hd. reflexivity.
    + exact Hd.
Qed.

(** X25: a bare positive id is treated differently as a source and as a
    destination.  As a source it matches the messages of the channel whose
    chat id is the [-100] form of it.  As a destination it resolves only if
    the connection knows the id directly or a dialog has this absolute
    value: the dialog of that same channel, listed under its [-100] id, is
    not accepted, and the destination stays unresolved. *)
Theorem bare_id_source_but_not_destination client r name :
  get_entity_by_id client (Z.pos r) = None ->
  (forall did e, In (did, e) (dialogs client) ->
                 did = with_prefix r \/ Z.abs did <> Z.pos r) ->
  check_source_match (with_prefix r) name (py_str (Z.pos r)) = true
  /\ fst (Resolver.resolve_dest client ∅ (py_str (Z.pos r))) = None.
Proof.
  intros Hdirect Hdialogs. split.
  - unfold check_source_match. rewrite py_str_pos, not_username_digits.
    unfold numeric_match. rewrite py_int_pos. cbn [bind_opt].
    destruct ((with_prefix r =? Z.pos r)
              || (Z.abs (with_prefix r) =? Z.abs (Z.pos r)));
      [reflexivity |].
    rewrite py_str_pos, not_prefixed_digits. cbn [bind_opt].
    rewrite py_str_with_prefix, prefixed_starts, prefixed_rest, py_int_pos.
    cbn [bind_opt Z.abs]. rewrite Z.eqb_refl. reflexivity.
  - unfold Resolver.resolve_dest. rewrite lookup_empty.
    rewrite py_str_pos, not_username_digits, py_int_pos, Hdirect.
    rewrite py_str_pos, not_prefixed_digits.
    rewrite (bare_id_dialogs r (dialogs client) (dialogs_fail client)).
    + destruct (dialogs_fail client); reflexivity.
    + intros did e Hin. destruct (Hdialogs did e Hin) as [-> | H];
        [apply abs_with_prefix | exact H].
Qed.

Lemma bare_id_source_but_not_destination_witness :
  check_source_match (with_prefix 5) None (py_str 5) = true
  /\ fst (Resolver.resolve_dest small_network ∅ (py_str 5)) = None.
Proof.
  apply (bare_id_source_but_not_destination small_network 5 None).
  - reflexivity.
  - intros did e [[= <- <-] | [[= <- <-] | []]].
    + right. discriminate.
    + left. vm_compute. reflexivity.
Defined.

(** * The rule table *)

Lemma with_rules_same db : with_rules (forward_rules db) db = db.
Proof. destruct db. reflexivity. Qed.

Lemma owned_set_is_enabled rule_id user_id v r :
  owned rule_id user_id (set_is_enabled v r) = owned rule_id user_id r.
Proof. reflexivity. Qed.

Lemma set_is_enabled_back r :
  set_is_enabled (1 - (1 - row_is_enabled r))
    (set_is_enabled (1 - row_is_enabled r) r) = r.
Proof.
  destruct r. unfold set_is_enabled. cbn. f_equal. lia.
Qed.

Lemma find_owned rule_id user_id (g : RuleRow -> RuleRow) rows :
  (forall r, row_id (g r) = row_id r) ->
  existsb (owned rule_id user_id) rows = true ->
  List.find (fun r => row_id r =? rule_id) (map g rows) <> None.
Proof.
  intros Hg He Hnone. apply existsb_exists in He.
  destruct He as (r & Hin & Ho). unfold owned in Ho.
  apply andb_true_iff in Ho. destruct Ho as (Hid & _).
  pose proof (find_none _ _ Hnone (g r) (in_map g rows r Hin)) as Hf.
  cbn beta in Hf. rewrite Hg, Hid in Hf. discriminate Hf.
Qed.

Lemma map_fixed {A} (g : A -> A) l :
  (forall x, In x l -> g x = x) -> map g l = l.
Proof.
  induction l as [| x l IH]; intros H; [reflexivity |].
  cbn [map]. rewrite (H x (or_introl eq_refl)), IH; [reflexivity |].
  intros y Hy. apply H. right. exact Hy.
Qed.

(** X26: toggling a rule twice restores the table exactly, and a toggle
    reports no result precisely when the user owns no rule of that id (in
    which case it changed nothing). *)
Theorem toggle_rule_twice db user_id rule_id :
  fst (toggle_rule (fst (toggle_rule db user_id rule_id)) user_id rule_id)
  = db
  /\ (snd (toggle_rule db user_id rule_id) = None
      <-> existsb (owned rule_id user_id) (forward_rules db) = false)
  /\ (existsb (owned rule_id user_id) (forward_rules db) = false ->
      fst (toggle_rule db user_id rule_id) = db).
Proof.
  unfold toggle_rule, update_where. cbn [fst snd]. split; [| split].
  - destruct db as [rows last accounts]. unfold with_rules.
    cbn [forward_rules last_rowid connected_accounts]. f_equal.
    rewrite map_map. apply map_fixed. intros r _.
    destruct (owned rule_id user_id r) eqn:Ho.
    + rewrite owned_set_is_enabled, Ho. apply set_is_enabled_back.
    + rewrite Ho. reflexivity.
  - destruct (existsb (owned rule_id user_id) (forward_rules db)) eqn:He.
    + split; [| discriminate]. intros Hn. exfalso.
      cbn [forward_rules with_rules] in Hn.
      destruct (List.find _ _) eqn:Hf; [discriminate |].
      revert Hf. apply (find_owned rule_id user_id); [| exact He].
      intros r. destruct (owned rule_id user_id r); reflexivity.
    + split; reflexivity.
  - intros He. destruct db as [rows last accounts]. unfold with_rules.
    cbn [forward_rules last_rowid connected_accounts] in *. f_equal.
    apply map_fixed. intros r Hin.
    destruct (owned rule_id user_id r) eqn:Ho; [| reflexivity].
    exfalso. rewrite <- not_true_iff_false in He. apply He.
    apply existsb_exists. exists r. split; assumption.
Qed.

Lemma others_after_update user_id hit set rows :
  (forall r, hit r = true -> row_user_id r = user_id) ->
  (forall r, row_user_id (set r) = row_user_id r) ->
  List.filter (fun r => negb (row_user_id r =? user_id))
    (map (fun r => if hit r then set r else r) rows)
  = List.filter (fun r => negb (row_user_id r =? user_id)) rows.
Proof.
  intros Hhit Hset. induction rows as [| r rows IH]; [reflexivity |].
  cbn [map List.filter]. rewrite IH.
  destruct (hit r) eqn:Hr; [| reflexivity].
  rewrite Hset, (Hhit r Hr), Z.eqb_refl. reflexivity.
Qed.

Lemma owned_user rule_id user_id r :
  owned rule_id user_id r = true -> row_user_id r = user_id.
Proof.
  unfold owned. intros H. apply andb_true_iff in H.
  destruct H as (_ & H). apply Z.eqb_eq. exact H.
Qed.

Lemma others_after_owned_update user_id rule_id set db :
  (forall r, row_user_id (set r) = row_user_id r) ->
  rules_of_others user_id
    (fst (update_where (owned rule_id user_id) set db))
  = rules_of_others user_id db.
Proof.
  intros Hset. unfold rules_of_others, update_where.
  cbn [fst with_rules forward_rules].
  apply others_after_update; [apply owned_user | exact Hset].
Qed.

(** X27: no operation that takes a user id changes or removes a rule of
    another user: deleting, toggling, and updating the mode, the sources,
    the destinations, the filters or the modify settings of a rule, removing
    an account, and adding a rule all leave the rules of the other users as
    they were, whatever rule id is passed. *)
Theorem other_users_rules_untouched db user_id rule_id phone mode ids
    filters modify new_filters new_modify :
  let same db' := rules_of_others user_id db' = rules_of_others user_id db in
  same (fst (delete_rule db user_id rule_id))
  /\ same (fst (toggle_rule db user_id rule_id))
  /\ same (fst (update_rule_mode db user_id rule_id mode))
  /\ same (fst (update_rule_sources db user_id rule_id ids))
  /\ same (fst (update_rule_destinations db user_id rule_id ids))
  /\ same (fst (update_rule_filters db user_id rule_id filters))
  /\ same (fst (update_rule_modify db user_id rule_id modify))
  /\ same (remove_account db user_id phone)
  /\ same (fst (add_forward_rule db user_id phone ids ids mode
                  new_filters new_modify)).
Proof.
  cbv zeta. repeat split;
    try (apply others_after_owned_update; reflexivity).
  - unfold rules_of_others, delete_rule. cbn [fst with_rules forward_rules].
    induction (forward_rules db) as [| r rows IH]; [reflexivity |].
    cbn [List.filter].
    destruct (owned rule_id user_id r) eqn:Ho; cbn [negb].
    + rewrite (owned_user _ _ _ Ho), Z.eqb_refl. exact IH.
    + cbn [List.filter]. rewrite IH. reflexivity.
  - unfold rules_of_others, remove_account. cbn [forward_rules].
    apply others_after_update; [| reflexivity].
    unfold of_account. intros r H. apply andb_true_iff in H.
    destruct H as (H & _). apply Z.eqb_eq. exact H.
  - unfold rules_of_others, add_forward_rule. cbn [fst forward_rules].
    rewrite List.filter_app. cbn [List.filter row_user_id].
    rewrite Z.eqb_refl. apply app_nil_r.
Qed.

Lemma enabled_after_remove U user_id phone rows :
  map (read_row U)
    (List.filter
       (fun r => String.eqb (row_phone r) phone && (row_is_enabled r =? 1))
       (map (fun r => if of_account user_id phone r
                      then set_is_enabled 0 r else r) rows))
  = List.filter
      (fun v => negb (row_user_id (stored_row v) =? user_id))
      (map (read_row U)
         (List.filter
            (fun r => String.eqb (row_phone r) phone
                      && (row_is_enabled r =? 1)) rows)).
Proof.
  induction rows as [| r rows IH]; [reflexivity |].
  cbn [map List.filter].
  destruct (of_account user_id phone r) eqn:Ho.
  - change (row_phone (set_is_enabled 0 r)) with (row_phone r).
    change (row_is_enabled (set_is_enabled 0 r)) with 0.
    rewrite andb_false_r.
    unfold of_account in Ho. apply andb_true_iff in Ho.
    destruct Ho as (Hu & Hp). rewrite Hp. cbn [andb].
    destruct (row_is_enabled r =? 1); [| exact IH].
    cbn [map List.filter]. change (stored_row (read_row U r)) with r.
    rewrite Hu. cbn [negb]. exact IH.
  - destruct (String.eqb (row_phone r) phone && (row_is_enabled r =? 1))
      eqn:Ht; [| exact IH].
    cbn [map List.filter]. change (stored_row (read_row U r)) with r.
    apply andb_true_iff in Ht. destruct Ht as (Hp & _).
    unfold of_account in Ho. rewrite Hp, andb_true_r in Ho. rewrite Ho.
    cbn [negb]. f_equal. exact IH.
Qed.

Lemma in_insert_by_phone a b l :
  In a (insert_by_phone b l) <-> a = b \/ In a l.
Proof.
  induction l as [| c l IH]; cbn [insert_by_phone].
  - cbn [In]. intuition congruence.
  - destruct (String.leb (acc_phone b) (acc_phone c)); cbn [In].
    + intuition congruence.
    + rewrite IH. intuition congruence.
Qed.

Lemma in_by_phone a l : In a (by_phone l) <-> In a l.
Proof.
  unfold by_phone. induction l as [| b l IH]; [reflexivity |].
  cbn [fold_right In]. rewrite in_insert_by_phone, IH. intuition congruence.
Qed.

(** X28: removing an account switches its rules off for good.  Afterwards
    the handler of that phone is given the rules it was given before minus
    those of the user, and connecting the account again brings the account
    back but not its rules. *)
Theorem removed_account_rules_stay_off U db user_id phone display_name :
  let db' := add_connected_account (remove_account db user_id phone)
               user_id phone display_name in
  get_rules_by_phone U db' phone
  = List.filter (fun v => negb (row_user_id (stored_row v) =? user_id))
      (get_rules_by_phone U db phone)
  /\ In (phone, display_name) (get_user_accounts db' user_id)
  /\ ~ In phone (map fst (get_user_accounts (remove_account db user_id phone)
                            user_id)).
Proof.
  cbv zeta. split; [| split].
  - unfold get_rules_by_phone, add_connected_account, remove_account.
    cbn [forward_rules]. apply enabled_after_remove.
  - unfold get_user_accounts, add_connected_account.
    cbn [connected_accounts].
    apply (in_map (fun a => (acc_phone a, acc_display_name a)) _
             {| acc_user_id := user_id; acc_phone := phone;
                acc_display_name := display_name; acc_is_active := 1 |}).
    apply in_by_phone. rewrite List.filter_app.
    apply in_or_app. right. cbn [List.filter acc_user_id acc_is_active].
    rewrite Z.eqb_refl. left. reflexivity.
  - unfold get_user_accounts, remove_account. cbn [connected_accounts].
    intros Hin. apply in_map_iff in Hin. destruct Hin as ([p n] & Hp & Hin).
    cbn [fst] in Hp. subst p.
    apply in_map_iff in Hin. destruct Hin as (a & Ha & Hin).
    apply (proj1 (in_by_phone _ _)) in Hin.
    apply filter_In in Hin. destruct Hin as (Hin & Hact).
    apply in_map_iff in Hin. destruct Hin as (a0 & Ha0 & _).
    apply andb_true_iff in Hact. destruct Hact as (Hu & Hact).
    destruct ((acc_user_id a0 =? user_id) && String.eqb (acc_phone a0) phone)
      eqn:Hm.
    + subst a. discriminate Hact.
    + subst a. injection Ha as Hph _.
      rewrite Hu, Hph, String.eqb_refl in Hm. discriminate Hm.
Qed.

Lemma all_false_flag (l : list (string * bool)) k :
  Forall (fun kv => snd kv = false) l -> flag (list_to_map l) k = false.
Proof.
  induction 1 as [| [k' v] l Hv _ IH]; [reflexivity |].
  cbn [snd] in Hv. subst v.
  change (list_to_map ((k', false) :: l))
    with (<[k' := false]> (list_to_map l : gmap string bool)).
  unfold flag.
  destruct (decide (k = k')) as [-> | Hne].
  - rewrite lookup_insert_eq. reflexivity.
  - rewrite lookup_insert_ne by congruence. exact IH.
Qed.

Lemma default_filters_flag k : flag DEFAULT_FILTERS k = false.
Proof. unfold DEFAULT_FILTERS. apply all_false_flag. repeat constructor. Qed.

Lemma column_or_same s : column_or (Some s) s = s.
Proof. unfold column_or. destruct (truthy s); reflexivity. Qed.

(** X29: a rule that was added is handed to the handler of its phone as it
    was entered.  The query returns what it returned before followed by the
    new rule, which carries the id that [add_forward_rule] returned, the
    source and destination lists as given (when the ids are well formed, as
    [parse_multi_ids] makes them), the mode (an empty mode reads as
    "forward"), and filters that read the same on every key as the ones
    given (no filters, or an empty dict, read as all off). *)
Theorem added_rule_is_read_back U db user_id phone sources destinations mode
    filters modify :
  Forall (wellformed_id U) sources ->
  Forall (wellformed_id U) destinations ->
  let r := add_forward_rule db user_id phone sources destinations mode
             filters modify in
  exists v,
    get_rules_by_phone U (fst r) phone = get_rules_by_phone U db phone ++ [v]
    /\ row_id (stored_row v) = snd r
    /\ stored_source_list v = sources
    /\ stored_dest_list v = destinations
    /\ stored_forward_mode v
       = (if String.eqb mode "" then "forward" else mode)
    /\ forall k, flag (stored_filters v) k = flag (default ∅ filters) k.
Proof.
  intros Hs Hd. cbv zeta. unfold add_forward_rule, get_rules_by_phone.
  cbn [fst snd forward_rules]. eexists. split.
  - rewrite List.filter_app, map_app. cbn [List.filter row_phone row_is_enabled].
    rewrite String.eqb_refl. cbn [andb Z.eqb Pos.eqb map]. reflexivity.
  - cbn [stored_row read_row row_id stored_source_list stored_dest_list
           stored_forward_mode stored_filters row_sources row_source
           row_destinations row_destination row_forward_mode row_filters].
    rewrite !column_or_same, (read_write U sources Hs),
      (read_write U destinations Hd).
    repeat split. intros k. unfold dumps_filters.
    destruct filters as [f |]; cbn [default].
    + destruct (decide (f = ∅)) as [-> | _]; cbn [default];
        [apply default_filters_flag | reflexivity].
    + apply default_filters_flag.
Qed.

Lemma added_rule_is_read_back_witness :
  exists v,
    get_rules_by_phone ascii_only
      (fst (add_forward_rule
              {| forward_rules := []; last_rowid := 41;
                 connected_accounts := [] |}
              7 "+100" [txt "@chanA"; txt "-1005"] [txt "@chanB"] "copy"
              None None)) "+100"
    = get_rules_by_phone ascii_only
        {| forward_rules := []; last_rowid := 41; connected_accounts := [] |}
        "+100" ++ [v]
    /\ row_id (stored_row v) = 42
    /\ stored_source_list v = [txt "@chanA"; txt "-1005"]
    /\ stored_dest_list v = [txt "@chanB"]
    /\ stored_forward_mode v = "copy"
    /\ forall k, flag (stored_filters v) k = flag ∅ k.
Proof.
  apply (added_rule_is_read_back ascii_only
           {| forward_rules := []; last_rowid := 41;
              connected_accounts := [] |}
           7 "+100" [txt "@chanA"; txt "-1005"] [txt "@chanB"] "copy"
           None None).
  - repeat constructor; try discriminate; vm_compute; reflexivity.
  - repeat constructor; try discriminate; vm_compute; reflexivity.
Defined.

(** * Albums in forward mode *)

(** X30: in forward mode the flush of an album forwards the whole buffer, in
    one call per destination, to every captured destination that resolves
    and accepts it, in the order of the destinations; a destination that
    does not resolve or that refuses is skipped and the others are still
    served. *)
Theorem album_forwarded_to_each_destination client gid album st :
  album_cache st !! gid = Some album ->
  messages album <> [] ->
  String.eqb (forward_mode (album_rule album)) "copy" = false ->
  outbox (send_album_group client gid st)
  = outbox st
    ++ forwarded_group client (messages album) (album_dest_list album).
Proof.
  intros Hl Hne Hmode.
  destruct (flush_sends_buffer client gid album st Hl Hne) as (-> & _).
  f_equal. unfold album_pass, run_pass.
  rewrite (for_each_isolated _ _ (uniform_album_to client album)
             (album_to_ok client album)).
  cbn [fst sent new_pass app]. unfold forwarded_group.
  induction (album_dest_list album) as [| d dests IH]; [reflexivity |].
  cbn [map concat omap list_omap]. rewrite IH.
  unfold run_pass, album_to, try_except at 1. rewrite Hmode.
  destruct (resolve_dest client d) as [e |]; [| reflexivity].
  unfold forward_messages, perform.
  destruct (forward_messages_ok client e); reflexivity.
Qed.

Lemma album_forwarded_to_each_destination_witness :
  outbox (send_album_group (friendly_client ["@gone"]) 77
            (set_album_cache
               (insert 77
                  {| messages := three_photos;
                     album_dest_list := ["@gone"; "@chanB"; "@chanC"];
                     album_rule := simple_rule 4 "forward" [];
                     caption_text := txt "trip" |})
               initial_state))
  = [ForwardMessages "@chanB" three_photos;
     ForwardMessages "@chanC" three_photos].
Proof.
  apply (album_forwarded_to_each_destination (friendly_client ["@gone"]) 77
           {| messages := three_photos;
              album_dest_list := ["@gone"; "@chanB"; "@chanC"];
              album_rule := simple_rule 4 "forward" [];
              caption_text := txt "trip" |}).
  - reflexivity.
  - discriminate.
  - reflexivity.
Defined.
